(** * folio (playwright test runner): utilities and dispatcher

    A shallow embedding of [src/util.ts] (deadline runner, error
    serialisation, monotonic clock, file matcher) and of the worker
    dispatcher that the end-to-end tests of the repository exercise. *)

From Stdlib Require Import ZArith List Bool Lia String Ascii.
From stdpp Require Import base option relations list gmap strings.
Import ListNotations.

Local Open Scope Z_scope.

(** ** The monotonic clock: [monotonicTime] *)

Module Clock.

(** [x | 0] on a number: the integer part (toward zero), reduced to a
    signed 32-bit integer. *)
Definition to_int32 (z : Z) : Z :=
  let m := z mod 2 ^ 32 in
  if m <? 2 ^ 31 then m else m - 2 ^ 32.

(** [process.hrtime()] returns the pair [[seconds, nanoseconds]]. *)
Definition hrtime_t : Type := (Z * Z)%type.

(** What node documents about [process.hrtime()]: the second component
    is the sub-second remainder. *)
Definition hrtime_ok (hr : hrtime_t) : Prop :=
  0 <= fst hr /\ 0 <= snd hr < 10 ^ 9.

Definition hrtime_okb (hr : hrtime_t) : bool :=
  (0 <=? fst hr) && (0 <=? snd hr) && (snd hr <? 10 ^ 9).

(** The instant of a reading, in nanoseconds. *)
Definition nanos (hr : hrtime_t) : Z := fst hr * 10 ^ 9 + snd hr.

(** [monotonicTime]:
    [const [seconds, nanoseconds] = process.hrtime();
     return seconds * 1000 + (nanoseconds / 1000000 | 0);]
    The division is a division of numbers; [| 0] takes its integer part
    (for the integers below 2^52 that [hrtime] produces, the integer part
    of the floating quotient is the truncated integer quotient). *)
Definition monotonicTime (hr : hrtime_t) : Z :=
  let '(seconds, nanoseconds) := hr in
  seconds * 1000 + to_int32 (Z.quot nanoseconds 1000000).

End Clock.

(** ** The deadline runner: [DeadlineRunner], [raceAgainstDeadline] *)

Module Deadline.
Import Clock.

Section Runner.

(** [T] is the type of the values the inner promise fulfils with, [E] the
    type of rejection reasons other than [undefined]. *)
Variables T E : Type.

(** [{ result?: T, timedOut?: boolean }]: each key is present or absent. *)
Record Outcome : Type := mkOutcome {
  o_result : option T;
  o_timedOut : option bool }.

(** The object literal [{ result }]. *)
Definition with_result (v : T) : Outcome :=
  {| o_result := Some v; o_timedOut := None |}.

(** The object literal [{ timedOut: true }]. *)
Definition timed_out : Outcome :=
  {| o_result := None; o_timedOut := Some true |}.

(** The state of the promise [this.result]. A rejection reason is any
    value, [undefined] ([None]) included. *)
Inductive PromiseState : Type :=
| Pending
| Fulfilled (o : Outcome)
| Rejected (reason : option E).

(** A timeout pending in node's timer table: the reading of the clock
    when [setTimeout] was called and the delay it was called with. Its
    callback is always [() => this._finish({ timedOut: true })]. *)
Record Timer : Type := mkTimer { armedAt : Z; delay : Z }.

(** node's [TIMEOUT_MAX], 2^31 - 1: the longest delay a timeout can have. *)
Definition TIMEOUT_MAX : Z := 2147483647.

(** The delay node gives a timeout that was asked for [after]
    milliseconds, [if (!(after >= 1 && after <= TIMEOUT_MAX)) after = 1]
    in the constructor of its [Timeout]: a delay that does not fit into
    31 bits becomes 1 millisecond. *)
Definition idleTimeout (after : Z) : Z :=
  if (1 <=? after) && (after <=? TIMEOUT_MAX) then after else 1.

(** The runner's fields together with the part of the runtime it talks
    to: the process clock, the table of its pending timeouts and whether
    the inner promise has settled. *)
Record World : Type := mkWorld {
  hrtime : hrtime_t;
  timers : gmap nat Timer;
  nextTimer : nat;
  settled : bool;
  _timer : option nat;
  _done : bool;
  result : PromiseState }.

Definition set_hrtime (hr : hrtime_t) (w : World) : World :=
  mkWorld hr (timers w) (nextTimer w) (settled w) (_timer w) (_done w) (result w).
Definition set_timers (ts : gmap nat Timer) (w : World) : World :=
  mkWorld (hrtime w) ts (nextTimer w) (settled w) (_timer w) (_done w) (result w).
Definition set_nextTimer (n : nat) (w : World) : World :=
  mkWorld (hrtime w) (timers w) n (settled w) (_timer w) (_done w) (result w).
Definition set_settled (b : bool) (w : World) : World :=
  mkWorld (hrtime w) (timers w) (nextTimer w) b (_timer w) (_done w) (result w).
Definition set__timer (h : option nat) (w : World) : World :=
  mkWorld (hrtime w) (timers w) (nextTimer w) (settled w) h (_done w) (result w).
Definition set_result (r : PromiseState) (w : World) : World :=
  mkWorld (hrtime w) (timers w) (nextTimer w) (settled w) (_timer w) (_done w) r.

(** [clearTimeout(h)]: the timeout is no longer pending (nothing happens
    when it has fired or was cleared already). *)
Definition clearTimeout (h : nat) (w : World) : World :=
  set_timers (delete h (timers w)) w.

(** [setTimeout(callback, timeout)] with the runner's callback: a fresh
    handle, pending from now on. The table keeps the argument of the
    call, so that what the runner asked for can be read off it; the delay
    node waits for is [idleTimeout timeout], which is [timeout] up to
    [TIMEOUT_MAX] and 1 above it, and the timeout fires no earlier than
    that after the call (see [step], which applies [idleTimeout] to the
    delay kept here). *)
Definition setTimeout (timeout : Z) (w : World) : nat * World :=
  let h := nextTimer w in
  (h, set_nextTimer (S h)
        (set_timers (<[h := mkTimer (monotonicTime (hrtime w)) timeout]> (timers w)) w)).

(** The resolving functions [f] and [r] of [new Promise((f, r) => ...)]:
    they settle a pending promise and do nothing to a settled one. *)
Definition _fulfill (o : Outcome) (w : World) : World :=
  match result w with
  | Pending => set_result (Fulfilled o) w
  | _ => w
  end.

Definition _reject (error : option E) (w : World) : World :=
  match result w with
  | Pending => set_result (Rejected error) w
  | _ => w
  end.

(** The first statement of [setDeadline]:
    [if (this._timer) { clearTimeout(this._timer); this._timer = undefined; }] *)
Definition cancelTimer (w : World) : World :=
  match _timer w with
  | Some h => set__timer None (clearTimeout h w)
  | None => w
  end.

(** [_finish(success?, error?)]. Its call [this.setDeadline(undefined)]
    runs [cancelTimer] and returns at [if (deadline === undefined) return]
    (lemma [setDeadline_undefined]); that breaks the recursion between the
    two methods. *)
Definition _finish (success : option Outcome) (error : option E) (w : World) : World :=
  if _done w then w
  else
    let w := cancelTimer w in
    match success with
    | Some o => _fulfill o w
    | None => _reject error w
    end.

(** [setDeadline(deadline)]. *)
Definition setDeadline (deadline : option Z) (w : World) : World :=
  let w := cancelTimer w in
  match deadline with
  | None => w
  | Some d =>
      let timeout := d - monotonicTime (hrtime w) in
      if timeout <=? 0 then _finish (Some timed_out) None w
      else
        let '(h, w) := setTimeout timeout w in
        set__timer (Some h) w
  end.

(** [new DeadlineRunner(promise, deadline)], run when the process clock
    reads [hr]: the promise [result] is created pending, the two callbacks
    are registered on the inner promise (they run later, see [step]) and
    the deadline is set. *)
Definition new_DeadlineRunner (hr : hrtime_t) (deadline : option Z) : World :=
  setDeadline deadline
    {| hrtime := hr; timers := ∅; nextTimer := 0%nat; settled := false;
       _timer := None; _done := false; result := Pending |}.

(** [raceAgainstDeadline(promise, deadline)] returns the [result] promise
    of a new runner; the runner itself does not escape, so nobody can call
    [setDeadline] on it afterwards. *)
Definition raceAgainstDeadline (hr : hrtime_t) (deadline : option Z) : World :=
  new_DeadlineRunner hr deadline.

(** What the event loop can do to a runner. *)
Inductive Event : Type :=
| Advance (hr : hrtime_t)           (* time passes; the clock reads [hr] *)
| TimerFires (h : nat)              (* node runs the callback of timeout [h] *)
| InnerFulfils (v : T)              (* [promise.then(result => ...)] runs *)
| InnerRejects (e : option E)       (* [.catch(e => ...)] runs *)
| CallSetDeadline (d : option Z).   (* the owner calls [setDeadline(d)] *)

(** One turn of the event loop, [None] when the runtime cannot produce
    the event in this state: the clock does not go back, a timeout fires
    only while pending and not before the delay node gave it has passed
    (it is then removed from the table), and a promise settles once.
    There is one clock: the event loop's, on which node measures the
    delay, is taken to read what [process.hrtime()] reads. *)
Definition step (w : World) (ev : Event) : option World :=
  match ev with
  | Advance hr =>
      if hrtime_okb hr && (nanos (hrtime w) <=? nanos hr)
      then Some (set_hrtime hr w) else None
  | TimerFires h =>
      match timers w !! h with
      | Some t =>
          if armedAt t + idleTimeout (delay t) <=? monotonicTime (hrtime w)
          then Some (_finish (Some timed_out) None (clearTimeout h w))
          else None
      | None => None
      end
  | InnerFulfils v =>
      if settled w then None
      else Some (_finish (Some (with_result v)) None (set_settled true w))
  | InnerRejects e =>
      if settled w then None
      else Some (_finish None e (set_settled true w))
  | CallSetDeadline d => Some (setDeadline d w)
  end.

Fixpoint run (w : World) (tr : list Event) : option World :=
  match tr with
  | [] => Some w
  | ev :: tr' =>
      match step w ev with
      | Some w' => run w' tr'
      | None => None
      end
  end.

Definition is_settlement (ev : Event) : bool :=
  match ev with
  | InnerFulfils _ | InnerRejects _ => true
  | _ => false
  end.

Definition is_setDeadline (ev : Event) : bool :=
  match ev with
  | CallSetDeadline _ => true
  | _ => false
  end.

Definition is_fire (ev : Event) : bool :=
  match ev with
  | TimerFires _ => true
  | _ => false
  end.

(** The reading [monotonicTime()] would return in this state. *)
Definition now (w : World) : Z := monotonicTime (hrtime w).

End Runner.

Arguments with_result {T} v.
Arguments timed_out {T}.
Arguments Pending {T E}.
Arguments Fulfilled {T E} o.
Arguments Rejected {T E} reason.
Arguments Advance {T E} hr.
Arguments TimerFires {T E} h.
Arguments InnerFulfils {T E} v.
Arguments InnerRejects {T E} e.
Arguments CallSetDeadline {T E} d.
Arguments hrtime {T E} w.
Arguments timers {T E} w.
Arguments nextTimer {T E} w.
Arguments settled {T E} w.
Arguments _timer {T E} w.
Arguments _done {T E} w.
Arguments result {T E} w.
Arguments cancelTimer {T E} w.
Arguments clearTimeout {T E} h w.
Arguments setTimeout {T E} timeout w.
Arguments _fulfill {T E} o w.
Arguments _reject {T E} error w.
Arguments _finish {T E} success error w.
Arguments setDeadline {T E} deadline w.
Arguments step {T E} w ev.
Arguments run {T E} w tr.
Arguments now {T E} w.
Arguments is_settlement {T E} ev.
Arguments is_setDeadline {T E} ev.
Arguments is_fire {T E} ev.
Arguments new_DeadlineRunner {T E} hr deadline.
Arguments raceAgainstDeadline {T E} hr deadline.
Arguments set_hrtime {T E} hr w.
Arguments set_timers {T E} ts w.
Arguments set_settled {T E} b w.
Arguments set__timer {T E} h w.
Arguments set_result {T E} r w.

(** *** Invariants of the runner *)

Section Invariants.

Context {T E : Type}.
Implicit Types (w : World T E) (ev : Event T E) (tr : list (Event T E)).

(** What holds of a runner from its construction on: [_done] is never
    written; the clock reads what [process.hrtime()] can return; the only
    timeout that can be pending is the one [_timer] holds, and its handle
    is not one a later [setTimeout] returns; until the inner promise has
    settled the result is pending or [{ timedOut: true }], and afterwards
    it is not pending. *)
Record Inv w : Prop := mkInv {
  inv_done : _done w = false;
  inv_clock : hrtime_ok (hrtime w);
  inv_timers : forall h t, timers w !! h = Some t -> _timer w = Some h;
  inv_running :
    settled w = false -> result w = Pending \/ result w = Fulfilled timed_out;
  inv_settled : settled w = true -> result w <> Pending;
  inv_fresh : forall h, _timer w = Some h -> (h < nextTimer w)%nat }.

(** Traces without a call of [setDeadline], without a settlement of the
    inner promise, without a timeout firing. *)
Definition closed tr : Prop := forallb (fun ev => negb (is_setDeadline ev)) tr = true.
Definition unsettled tr : Prop := forallb (fun ev => negb (is_settlement ev)) tr = true.
Definition unfired tr : Prop := forallb (fun ev => negb (is_fire ev)) tr = true.

(** With deadline [d0] set when the clock read [a0]: every pending
    timeout was armed at [a0] for [d0 - a0] milliseconds, which is
    positive; while the inner promise has not settled, either the result
    is pending and the timeout is armed, or the runner has timed out, and
    then [d0] has passed provided the delay fits node's timers. *)
Record Armed (a0 d0 : Z) w : Prop := mkArmed {
  armed_due :
    forall h t, timers w !! h = Some t ->
                armedAt t = a0 /\ delay t = d0 - a0 /\ 0 < d0 - a0;
  armed_running :
    settled w = false ->
    (result w = Pending /\ exists h t, timers w !! h = Some t) \/
    (result w = Fulfilled timed_out /\ (d0 - a0 <= TIMEOUT_MAX -> d0 <= now w)) }.

(** Without a deadline: no timeout is ever pending, the result is pending
    until the inner promise settles, and it is never [{ timedOut: true }]. *)
Record Unarmed w : Prop := mkUnarmed {
  unarmed_timers : timers w = ∅;
  unarmed_running : settled w = false -> result w = Pending;
  unarmed_result : result w <> Fulfilled timed_out }.

(** The timeout with handle [h] is gone for good. *)
Definition gone (h : nat) w : Prop :=
  timers w !! h = None /\ (h < nextTimer w)%nat.

End Invariants.

End Deadline.

(** ** Error serialisation: [serializeError] *)

Module Serialize.

Local Open Scope string_scope.

(** JavaScript values as far as [serializeError] looks at them. An object
    carries its own properties and whether [Error.prototype] is on its
    prototype chain. *)
Local Unset Elimination Schemes.
Inductive JsValue : Type :=
| JsUndefined
| JsNull
| JsBoolean (b : bool)
| JsNumber (n : Z)
| JsString (s : string)
| JsObject (isError : bool) (props : list (string * JsValue)).
Local Set Elimination Schemes.

(** An object literal: its keys in order, each with its value. *)
Definition JsLiteral : Type := list (string * JsValue).

Fixpoint lookup_prop (name : string) (props : list (string * JsValue)) : option JsValue :=
  match props with
  | [] => None
  | (k, v) :: rest => if String.eqb k name then Some v else lookup_prop name rest
  end.

(** [error instanceof Error] *)
Definition instanceof_Error (error : JsValue) : bool :=
  match error with
  | JsObject isError _ => isError
  | _ => false
  end.

(** [error.name] for a property name: the own property, else what
    [Error.prototype] provides ([message] is the empty string there),
    else [undefined]. Only used on instances of [Error]. *)
Definition get (error : JsValue) (name : string) : JsValue :=
  match error with
  | JsObject isError props =>
      match lookup_prop name props with
      | Some v => v
      | None =>
          if isError && String.eqb name "message" then JsString EmptyString else JsUndefined
      end
  | _ => JsUndefined
  end.

Definition has_key (name : string) (o : JsLiteral) : bool :=
  existsb (fun kv => String.eqb (fst kv) name) o.

Section WithInspect.

(** [util.inspect], node's printer of values. *)
Variable inspect : JsValue -> string.

(** [serializeError(error)] *)
Definition serializeError (error : JsValue) : JsLiteral :=
  if instanceof_Error error then
    [("message", get error "message"); ("stack", get error "stack")]
  else
    [("value", JsString (inspect error))].

End WithInspect.

End Serialize.

(** ** File matchers: [createMatcher] *)

Module Matcher.

Local Open Scope string_scope.

(** The [lastIndex] of each [RegExp] object (0 when never written). *)
Abbreviation Store := (gmap nat nat).

Section WithEngines.

(** The regular-expression engine: [regex_match src sticky s i] is the
    index after the first match of the expression compiled from [src] in
    [s], searched from position [i] (only at [i] when [sticky]). *)
Variable RegExpSource : Type.
Variable regex_match : RegExpSource -> bool -> string -> nat -> option nat.

(** [minimatch(value, pattern)] *)
Variable minimatch : string -> string -> bool.

(** A [RegExp] object: its identity, what it was compiled from and its
    flags. Its mutable [lastIndex] lives in the store, so that two
    references to one object share it. *)
Record RegExp : Type := mkRegExp {
  re_ref : nat;
  re_source : RegExpSource;
  re_global : bool;
  re_sticky : bool }.

Definition lastIndex (st : Store) (re : RegExp) : nat :=
  default 0%nat (st !! re_ref re).

(** [re.lastIndex = i] *)
Definition set_lastIndex (re : RegExp) (i : nat) (st : Store) : Store :=
  <[re_ref re := i]> st.

(** [re.test(value)]: an expression with the [g] or [y] flag searches
    from [lastIndex] and leaves the end of the match there (0 when there
    is none); one without them searches from 0 and leaves [lastIndex]
    alone. *)
Definition test (re : RegExp) (value : string) (st : Store) : bool * Store :=
  if re_global re || re_sticky re then
    let i := lastIndex st re in
    if (String.length value <? i)%nat then (false, set_lastIndex re 0 st)
    else
      match regex_match (re_source re) (re_sticky re) value i with
      | Some e => (true, set_lastIndex re e st)
      | None => (false, set_lastIndex re 0 st)
      end
  else
    (match regex_match (re_source re) false value 0 with
     | Some _ => true
     | None => false
     end, st).

Inductive Pattern : Type :=
| PRegExp (re : RegExp)
| PString (s : string).

(** The argument of [createMatcher]: one pattern or an array of them. *)
Inductive Patterns : Type :=
| Single (p : Pattern)
| Many (ps : list Pattern).

(** [s.includes(sub)] *)
Definition includes (s sub : string) : bool :=
  match String.index 0 sub s with
  | Some _ => true
  | None => false
  end.

Definition slash : string := "/".
Definition backslash : string := String (ascii_of_nat 92) EmptyString.

(** What the returned function closes over. *)
Record Lists : Type := mkLists {
  reList : list RegExp;
  filePatterns : list string }.

(** One turn of the loop that fills [reList] and [filePatterns]. *)
Definition push_pattern (acc : Lists) (pattern : Pattern) : Lists :=
  match pattern with
  | PRegExp re => mkLists (reList acc ++ [re]) (filePatterns acc)
  | PString s =>
      if negb (includes s slash) && negb (includes s backslash)
      then mkLists (reList acc) (filePatterns acc ++ [String.append "**/" s])
      else mkLists (reList acc) (filePatterns acc ++ [s])
  end.

Definition to_array (patterns : Patterns) : list Pattern :=
  match patterns with
  | Single p => [p]
  | Many ps => ps
  end.

(** [for (const re of reList) { re.lastIndex = 0; if (re.test(value)) return true; }] *)
Fixpoint test_reList (res : list RegExp) (value : string) (st : Store) : bool * Store :=
  match res with
  | [] => (false, st)
  | re :: rest =>
      let st := set_lastIndex re 0 st in
      let '(b, st) := test re value st in
      if b then (true, st) else test_reList rest value st
  end.

(** [for (const pattern of filePatterns) { if (minimatch(value, pattern)) return true; }] *)
Fixpoint test_filePatterns (ps : list string) (value : string) : bool :=
  match ps with
  | [] => false
  | pattern :: rest =>
      if minimatch value pattern then true else test_filePatterns rest value
  end.

(** The function [createMatcher] returns, applied to [value] in store
    [st]: its boolean and the store it leaves. *)
Definition matcher (l : Lists) (value : string) (st : Store) : bool * Store :=
  let '(b, st) := test_reList (reList l) value st in
  if b then (true, st)
  else (test_filePatterns (filePatterns l) value, st).

(** [createMatcher(patterns)] *)
Definition createMatcher (patterns : Patterns) : string -> Store -> bool * Store :=
  matcher (fold_left push_pattern (to_array patterns) (mkLists [] [])).

(** A string pattern without separator, with [**/] written in front. *)
Definition prefixed (p : Pattern) : Pattern :=
  match p with
  | PRegExp re => PRegExp re
  | PString s =>
      if negb (includes s slash) && negb (includes s backslash)
      then PString (String.append "**/" s) else PString s
  end.

(** What [re.test(value)] answers once [lastIndex] is 0. *)
Definition matches (re : RegExp) (value : string) : bool :=
  match regex_match (re_source re) (re_sticky re) value 0 with
  | Some _ => true
  | None => false
  end.

(** [patterns] with [prefixed] applied to each pattern. *)
Definition prefixed_all (patterns : Patterns) : Patterns :=
  match patterns with
  | Single p => Single (prefixed p)
  | Many ps => Many (map prefixed ps)
  end.

End WithEngines.

Arguments mkRegExp {RegExpSource} re_ref re_source re_global re_sticky.
Arguments re_ref {RegExpSource} r.
Arguments re_source {RegExpSource} r.
Arguments re_global {RegExpSource} r.
Arguments re_sticky {RegExpSource} r.
Arguments lastIndex {RegExpSource} st re.
Arguments set_lastIndex {RegExpSource} re i st.
Arguments test {RegExpSource} regex_match re value st.
Arguments PRegExp {RegExpSource} re.
Arguments PString {RegExpSource} s.
Arguments Single {RegExpSource} p.
Arguments Many {RegExpSource} ps.
Arguments mkLists {RegExpSource} reList filePatterns.
Arguments reList {RegExpSource} l.
Arguments filePatterns {RegExpSource} l.
Arguments push_pattern {RegExpSource} acc pattern.
Arguments to_array {RegExpSource} patterns.
Arguments test_reList {RegExpSource} regex_match res value st.
Arguments matcher {RegExpSource} regex_match minimatch l value st.
Arguments createMatcher {RegExpSource} regex_match minimatch patterns.
Arguments prefixed {RegExpSource} p.
Arguments matches {RegExpSource} regex_match re value.
Arguments prefixed_all {RegExpSource} patterns.

(** The expressions among the patterns, and the file patterns among
    them as [minimatch] gets them, in the order of the patterns. *)
Definition regexps {RegExpSource : Type} (ps : list (Pattern RegExpSource))
  : list (RegExp RegExpSource) :=
  flat_map (fun p => match p with PRegExp re => [re] | PString _ => [] end) ps.

Definition globs {RegExpSource : Type} (ps : list (Pattern RegExpSource)) : list string :=
  flat_map (fun p => match prefixed p with PRegExp _ => [] | PString s => [s] end) ps.

(** A toy engine: an expression is a literal that matches where it
    occurs; a file pattern accepts exactly one value. *)
Definition literal_match (src : string) (sticky : bool) (s : string) (i : nat) : option nat :=
  match String.index i src s with
  | Some k =>
      if sticky && negb (Nat.eqb k i) then None
      else Some (k + String.length src)%nat
  | None => None
  end.

End Matcher.

(** ** The dispatcher and its workers *)

Module Dispatcher.

Local Open Scope nat_scope.

(** The dispatcher and the worker runtime are not among the sources;
    their end-to-end tests are. The model below follows the
    specification of the scheduler: a run that is not stopped early (no
    [maxFailures], [globalTimeout] or signal) and whose workers do not
    crash. *)

(** Modelled from the spec: the status of an attempt (section 3,
    [TestResult.status]). *)
Inductive Status : Type := passed | failed | timedOut | skipped.

(** Modelled from the spec: "a test ends with failed or timedOut"
    (section 4.5, retries; section 4.4, step 7). *)
Definition is_failure (st : Status) : bool :=
  match st with
  | failed | timedOut => true
  | passed | skipped => false
  end.

(** The files the test bodies of a run share on disk. *)
Abbreviation Files := (gset string).

(** Modelled from the spec: a [Test] (section 3) with the fields the
    dispatcher reads: its spec's file, its fixture hash, its retries. The
    body of the test is a function of the [workerIndex] it runs in, of the
    attempt and of the files on disk: [None] while it waits, else the
    status it ends with and the files it leaves. *)
Record Test : Type := mkTest {
  testId : nat;
  file : string;
  fixtureHash : nat;
  retries : nat;
  body : nat -> nat -> Files -> option (Status * Files) }.

(** Modelled from the spec: a [TestResult] (section 3), the fields
    [attempt], [workerIndex] and [status]. *)
Record TestResult : Type := mkTestResult {
  attempt : nat;
  workerIndex : nat;
  status : Status }.

(** A pending attempt: the test and the number of the attempt. *)
Abbreviation Entry := (Test * nat)%type.

(** Modelled from the spec: a worker at work (section 4.4, 4.5): its
    index, the hash it is bound to, and what is left of the hash-run it
    was given, the test in flight first. *)
Record Worker : Type := mkWorker {
  w_index : nat;
  w_hash : nat;
  w_run : list Entry }.

(** Modelled from the spec: the dispatcher (section 4.5): the FIFO queue
    of pending tests, the workers at work, the free workers with the hash
    each is bound to (the least recently used first), the number of
    workers spawned so far, the results appended so far, and the disk. *)
Record State : Type := mkState {
  queue : list Entry;
  busy : list Worker;
  free : list (nat * nat);
  spawned : nat;
  results : list (Test * TestResult);
  files : Files }.

(** Modelled from the spec: membership of a hash-run, "maximal contiguous
    runs of equal fixtureHash" (section 4.5) of tests of one file ("a test
    whose declaration precedes another in the same file ... runs in the
    same worker unless a fixture-hash change or a failure intervenes",
    section 4.5; two files run in parallel, section 8, scenario 1). *)
Definition in_run (f : string) (h : nat) (e : Entry) : bool :=
  String.eqb (file e.1) f && Nat.eqb (fixtureHash e.1) h.

(** Modelled from the spec: the hash-run at the head of the queue and the
    rest of the queue (section 4.5). *)
Fixpoint take_run (f : string) (h : nat) (q : list Entry) : list Entry * list Entry :=
  match q with
  | [] => ([], [])
  | e :: q' =>
      if in_run f h e then
        let '(run, rest) := take_run f h q' in (e :: run, rest)
      else ([], q)
  end.

(** Modelled from the spec: "prefer a free worker already bound to H"
    (section 4.5): the first such worker and the other free workers. *)
Fixpoint pick_free (h : nat) (fr : list (nat * nat)) : option (nat * list (nat * nat)) :=
  match fr with
  | [] => None
  | (i, h') :: fr' =>
      if Nat.eqb h' h then Some (i, fr')
      else
        match pick_free h fr' with
        | Some (j, rest) => Some (j, (i, h') :: rest)
        | None => None
        end
  end.

(** The [k]-th element of a list and the others. *)
Fixpoint pick {A : Type} (k : nat) (l : list A) : option (A * list A) :=
  match l, k with
  | [], _ => None
  | x :: l', O => Some (x, l')
  | x :: l', S k' =>
      match pick k' l' with
      | Some (y, rest) => Some (y, x :: rest)
      | None => None
      end
  end.

(** Modelled from the spec: assigning the hash-run at the head of the
    queue (section 4.5, with [W = RunConfig.workers]): to a free worker
    bound to its hash; else, the pool having capacity, to a new worker;
    else to a new worker that replaces the least recently used free
    worker; [None] when the queue is empty or every worker is at work.
    A new worker takes the next index. *)
Definition assign (W : nat) (s : State) : option State :=
  match queue s with
  | [] => None
  | e :: _ =>
      let h := fixtureHash e.1 in
      let '(run, rest) := take_run (file e.1) h (queue s) in
      match pick_free h (free s) with
      | Some (i, free') =>
          Some (mkState rest (busy s ++ [mkWorker i h run]) free'
                        (spawned s) (results s) (files s))
      | None =>
          if length (busy s) + length (free s) <? W then
            Some (mkState rest (busy s ++ [mkWorker (spawned s) h run]) (free s)
                          (S (spawned s)) (results s) (files s))
          else
            match free s with
            | _ :: free' =>
                Some (mkState rest (busy s ++ [mkWorker (spawned s) h run]) free'
                              (S (spawned s)) (results s) (files s))
            | [] => None
            end
      end
  end.

(** Modelled from the spec: the retry rule (section 4.5; section 8: a
    test with [retries = r] whose attempts all fail has [r + 1]
    results). *)
Definition retry_of (t : Test) (a : nat) : list Entry :=
  if a <? retries t then [(t, S a)] else [].

(** Modelled from the spec: [testEnd] from the [k]-th worker at work
    (section 4.4, steps 6 to 8; section 4.5). The result is appended. After
    a failure the worker is discarded, the retry goes to the head of the
    queue and the rest of the hash-run stays pending behind it; after a
    success the worker goes on with its hash-run, or is free when the run
    has ended. [None] while the body waits. *)
Definition testEnd (k : nat) (s : State) : option State :=
  match pick k (busy s) with
  | Some (w, others) =>
      match w_run w with
      | [] => None
      | (t, a) :: rest =>
          match body t (w_index w) a (files s) with
          | None => None
          | Some (st, fs) =>
              let rs := results s ++ [(t, mkTestResult a (w_index w) st)] in
              if is_failure st then
                Some (mkState (retry_of t a ++ rest ++ queue s) others (free s)
                              (spawned s) rs fs)
              else
                match rest with
                | [] =>
                    Some (mkState (queue s) others (free s ++ [(w_index w, w_hash w)])
                                  (spawned s) rs fs)
                | _ :: _ =>
                    Some (mkState (queue s) (others ++ [mkWorker (w_index w) (w_hash w) rest])
                                  (free s) (spawned s) rs fs)
                end
          end
      end
  | None => None
  end.

(** Modelled from the spec: workers are destroyed at run end (section 3,
    lifecycle): once nothing is pending, the [k]-th free worker stops. *)
Definition retire (k : nat) (s : State) : option State :=
  match queue s, pick k (free s) with
  | [], Some (_, others) =>
      Some (mkState (queue s) (busy s) others (spawned s) (results s) (files s))
  | _, _ => None
  end.

(** What the dispatcher does in one turn. *)
Inductive Action : Type :=
| Assign
| TestEnd (k : nat)
| Retire (k : nat).

(** Modelled from the spec: one turn of the dispatcher's event loop
    (section 5): it assigns hash-runs as long as it can, and only then
    waits for the next message of a worker. *)
Definition perform (W : nat) (a : Action) (s : State) : option State :=
  match a with
  | Assign => assign W s
  | TestEnd k =>
      match assign W s with
      | Some _ => None
      | None => testEnd k s
      end
  | Retire k =>
      match assign W s with
      | Some _ => None
      | None => retire k s
      end
  end.

Definition step (W : nat) (s s' : State) : Prop :=
  exists a, perform W a s = Some s'.

(** The actions that can be tried in a state, and what they lead to. *)
Definition actions (s : State) : list Action :=
  Assign :: (TestEnd <$> seq 0 (length (busy s))) ++ (Retire <$> seq 0 (length (free s))).

Definition successors (W : nat) (s : State) : list State :=
  omap (fun a => perform W a s) (actions s).

(** Modelled from the spec: the start of dispatch: the runnable tests in
    order, each at attempt 0 (section 4.5, input). *)
Definition start (tests : list Test) (fs : Files) : State :=
  mkState ((fun t => (t, 0)) <$> tests) [] [] 0 [] fs.

(** A run of the dispatcher along a list of actions. *)
Fixpoint exec (W : nat) (acts : list Action) (s : State) : option State :=
  match acts with
  | [] => Some s
  | a :: acts' =>
      match perform W a s with
      | Some s' => exec W acts' s'
      | None => None
      end
  end.

(** Every state reachable within [fuel] turns in which no action is
    possible; [None] when some run is longer than [fuel]. *)
Fixpoint explore (W : nat) (fuel : nat) (s : State) : option (list State) :=
  match fuel with
  | O => None
  | S fuel' =>
      match successors W s with
      | [] => Some [s]
      | succs =>
          foldr (fun s' acc =>
                   match explore W fuel' s', acc with
                   | Some l1, Some l2 => Some (l1 ++ l2)
                   | _, _ => None
                   end) (Some []) succs
      end
  end.

Definition status_eqb (a b : Status) : bool :=
  match a, b with
  | passed, passed | failed, failed | timedOut, timedOut | skipped, skipped => true
  | _, _ => false
  end.

(** Modelled from the spec: the summary of a run (section 3, final
    status; section 4.5, retries; section 6.5, exit codes): a test has
    passed when its first attempt passed, is flaky when a retry passed,
    and has failed when its last allowed attempt failed; the exit code is
    0 when no test has failed and 1 otherwise. *)
Definition passed_count (s : State) : nat :=
  length (List.filter (fun tr => status_eqb (status tr.2) passed && Nat.eqb (attempt tr.2) 0)
                      (results s)).

Definition flaky_count (s : State) : nat :=
  length (List.filter (fun tr => status_eqb (status tr.2) passed && negb (Nat.eqb (attempt tr.2) 0))
                      (results s)).

Definition failed_count (s : State) : nat :=
  length (List.filter (fun tr => is_failure (status tr.2) && negb (attempt tr.2 <? retries tr.1))
                      (results s)).

Definition exitCode (s : State) : nat :=
  if Nat.eqb (failed_count s) 0 then 0 else 1.

(** The worker indices of the results, in the order the results came. *)
Definition worker_indices (s : State) : list nat :=
  (fun tr => workerIndex tr.2) <$> results s.

(** The tests in flight: the head of each run, with its worker. *)
Definition in_flight (s : State) : list (nat * nat) :=
  omap (fun w => match w_run w with
                 | (t, _) :: _ => Some (testId t, w_index w)
                 | [] => None
                 end) (busy s).

(** What the end-to-end tests look at: the sorted worker indices of the
    results, the number of passed and of failed tests, the exit code. *)
Fixpoint insert_sorted (n : nat) (l : list nat) : list nat :=
  match l with
  | [] => [n]
  | m :: l' => if n <=? m then n :: l else m :: insert_sorted n l'
  end.

Definition sort_indices (l : list nat) : list nat := foldr insert_sorted [] l.

Definition report (s : State) : list nat * nat * nat * nat :=
  (sort_indices (worker_indices s), passed_count s, failed_count s, exitCode s).

(** *** The test files of the end-to-end tests *)

(** A body that passes wherever it runs
    ([console.log('workerIndex-' + testInfo.workerIndex)]). *)
Definition logs_worker : nat -> nat -> Files -> option (Status * Files) :=
  fun _ _ fs => Some (passed, fs).

(** [expect(testInfo.workerIndex).toBe(i)] *)
Definition expects_worker (i : nat) : nat -> nat -> Files -> option (Status * Files) :=
  fun w _ fs => Some (if Nat.eqb w i then passed else failed, fs).

(** "should reuse worker for multiple tests": [a.test.js] with three
    tests that expect [workerIndex] 0; one project, so one hash. *)
Definition reuse_tests : list Test :=
  [ mkTest 0 "a.test.js" 0 0 (expects_worker 0);
    mkTest 1 "a.test.js" 0 0 (expects_worker 0);
    mkTest 2 "a.test.js" 0 0 (expects_worker 0) ].

(** "should not reuse worker for different suites": [projects: [{}, {}, {}]]
    and one test in [a.test.js]; the spec gives one test per project, each
    with the hash of its project. *)
Definition project_tests : list Test :=
  [ mkTest 0 "a.test.js" 0 0 logs_worker;
    mkTest 1 "a.test.js" 1 0 logs_worker;
    mkTest 2 "a.test.js" 2 0 logs_worker ].

Definition sentinel : string := "parallel-index.txt".

(** "should run in parallel", [1.spec.ts]: expects [workerIndex] 0, then
    waits until the sentinel file exists. *)
Definition waits_for_sentinel : nat -> nat -> Files -> option (Status * Files) :=
  fun w _ fs =>
    if Nat.eqb w 0 then
      if bool_decide (sentinel ∈ fs) then Some (passed, fs) else None
    else Some (failed, fs).

(** "should run in parallel", [2.spec.ts]: writes the sentinel file, then
    expects [workerIndex] 1. *)
Definition writes_sentinel : nat -> nat -> Files -> option (Status * Files) :=
  fun w _ fs => Some (if Nat.eqb w 1 then passed else failed, {[ sentinel ]} ∪ fs).

Definition parallel_tests : list Test :=
  [ mkTest 0 "1.spec.ts" 0 0 waits_for_sentinel;
    mkTest 1 "2.spec.ts" 0 0 writes_sentinel ].

(** One file, one hash, two tests, the first of which fails. *)
Definition failing_first : list Test :=
  [ mkTest 0 "a.test.js" 0 0 (fun _ _ fs => Some (failed, fs));
    mkTest 1 "a.test.js" 0 0 logs_worker ].

(** Two files of one test each, with one hash. *)
Definition two_files : list Test :=
  [ mkTest 0 "1.spec.ts" 0 0 logs_worker;
    mkTest 1 "2.spec.ts" 0 0 logs_worker ].

(** *** What the proofs say about a run *)

(** The shapes a turn can have: a hash-run goes to a free worker of its
    hash, or to a new worker (which may replace a free one); the test at
    the head of a run ends with a failure, ends the run, or leaves the
    rest of the run to its worker; a free worker stops. *)
Inductive Move : State -> State -> Prop :=
| move_reuse q run rest bs fr1 i h fr2 sp rs fs f :
    take_run f h q = (run, rest) ->
    Move (mkState q bs (fr1 ++ (i, h) :: fr2) sp rs fs)
         (mkState rest (bs ++ [mkWorker i h run]) (fr1 ++ fr2) sp rs fs)
| move_spawn q run rest bs fr fr' sp rs fs f h :
    take_run f h q = (run, rest) ->
    (fr' = fr \/ exists x, fr = x :: fr') ->
    Move (mkState q bs fr sp rs fs)
         (mkState rest (bs ++ [mkWorker sp h run]) fr' (S sp) rs fs)
| move_fail q b1 w b2 t a rest st fr sp rs fs fs' :
    w_run w = (t, a) :: rest -> is_failure st = true ->
    Move (mkState q (b1 ++ w :: b2) fr sp rs fs)
         (mkState (retry_of t a ++ rest ++ q) (b1 ++ b2) fr sp
                  (rs ++ [(t, mkTestResult a (w_index w) st)]) fs')
| move_done q b1 w b2 t a st fr sp rs fs fs' :
    w_run w = [(t, a)] -> is_failure st = false ->
    Move (mkState q (b1 ++ w :: b2) fr sp rs fs)
         (mkState q (b1 ++ b2) (fr ++ [(w_index w, w_hash w)]) sp
                  (rs ++ [(t, mkTestResult a (w_index w) st)]) fs')
| move_next q b1 w b2 t a rest st fr sp rs fs fs' :
    w_run w = (t, a) :: rest -> is_failure st = false ->
    Move (mkState q (b1 ++ w :: b2) fr sp rs fs)
         (mkState q ((b1 ++ b2) ++ [mkWorker (w_index w) (w_hash w) rest]) fr sp
                  (rs ++ [(t, mkTestResult a (w_index w) st)]) fs')
| move_retire q bs fr1 x fr2 sp rs fs :
    Move (mkState q bs (fr1 ++ x :: fr2) sp rs fs)
         (mkState q bs (fr1 ++ fr2) sp rs fs).

(** The workers alive, each with the hash it is bound to. *)
Definition pool (s : State) : list (nat * nat) :=
  ((fun w => (w_index w, w_hash w)) <$> busy s) ++ free s.

(** Workers and hashes: the indices of the workers alive are below the
    number of workers spawned, and an index determines the hash; the
    tests in the run of a worker have the hash of the worker; a result
    carries the index of a worker that was spawned, agrees in hash with
    the worker alive under that index, and two results under one index
    belong to tests of one hash. *)
Record WInv (s : State) : Prop := mkWInv {
  wi_bound : forall p, p ∈ pool s -> p.1 < spawned s;
  wi_fun : forall p q, p ∈ pool s -> q ∈ pool s -> p.1 = q.1 -> p.2 = q.2;
  wi_runs : forall w e, w ∈ busy s -> e ∈ w_run w -> fixtureHash e.1 = w_hash w;
  wi_res_bound : forall tr, tr ∈ results s -> workerIndex tr.2 < spawned s;
  wi_res_pool : forall tr p,
    tr ∈ results s -> p ∈ pool s -> workerIndex tr.2 = p.1 -> fixtureHash tr.1 = p.2;
  wi_res : forall tr1 tr2,
    tr1 ∈ results s -> tr2 ∈ results s ->
    workerIndex tr1.2 = workerIndex tr2.2 -> fixtureHash tr1.1 = fixtureHash tr2.1 }.

(** Whether [check] holds where every run from [s0] ends, no run being
    longer than [n] turns. *)
Definition verdict (W n : nat) (s0 : State) (check : State -> bool) : bool :=
  match explore W n s0 with
  | Some ends => forallb check ends
  | None => false
  end.

(** A pending attempt and a result are told apart from the others by
    the test and the number of the attempt. *)
Definition ekey (e : Entry) : nat * nat := (testId e.1, e.2).
Definition rkey (tr : Test * TestResult) : nat * nat := (testId tr.1, attempt tr.2).

(** The attempts still to be made: in the queue or with a worker. *)
Definition pending (s : State) : list Entry := queue s ++ (busy s ≫= w_run).

(** The attempts pending and the attempts done; those of them that are
    first attempts. *)
Definition keys (s : State) : list (nat * nat) :=
  (ekey <$> pending s) ++ (rkey <$> results s).

Definition first_keys (s : State) : list (nat * nat) :=
  filter (fun k => k.2 = 0) (keys s).

(** Where two tests that are neighbours in a hash-run can be: side by
    side in the queue; side by side in the run of a worker; the first
    done in a worker that has the second at the head of its run; both
    done in one worker; or the first failed. *)
Definition Pair (t1 t2 : Test) (s : State) : Prop :=
  (exists a b, queue s = a ++ (t1, 0) :: (t2, 0) :: b) \/
  (exists w a b, w ∈ busy s /\ w_run w = a ++ (t1, 0) :: (t2, 0) :: b) \/
  (exists w b r1,
      w ∈ busy s /\ w_run w = (t2, 0) :: b /\
      (t1, r1) ∈ results s /\ attempt r1 = 0 /\ workerIndex r1 = w_index w) \/
  (exists r1 r2,
      (t1, r1) ∈ results s /\ (t2, r2) ∈ results s /\
      attempt r1 = 0 /\ attempt r2 = 0 /\ workerIndex r1 = workerIndex r2) \/
  (exists r1, (t1, r1) ∈ results s /\ attempt r1 = 0 /\ is_failure (status r1) = true).

(** The states a run can be in after [n] turns. *)
Fixpoint after (W n : nat) (s : State) : list State :=
  match n with
  | O => [s]
  | S n' => successors W s ≫= after W n'
  end.

End Dispatcher.

(** ** Merging objects: [mergeObjects] *)

Module Objects.
Import Serialize.

Local Open Scope string_scope.

(** An object [mergeObjects] is given or returns: its own enumerable
    properties, and its prototype, [None] for [Object.prototype] (what an
    object literal has) and [Some v] for the object or [null] the setter
    of [__proto__] stored. The objects are plain: their properties are
    writable data properties with string keys (what object literals,
    spreads and [JSON.parse] build), and their prototype chains hold no
    read-only property and no setter but the one [Object.prototype] has
    for [__proto__]. *)
Record JsObj : Type := mkJsObj {
  own : gmap string JsValue;
  prototype : option JsValue }.

(** [Object.is(value, undefined)] *)
Definition is_undefined (v : JsValue) : bool :=
  match v with
  | JsUndefined => true
  | _ => false
  end.

(** The values the setter of [__proto__] stores: objects and [null]; it
    ignores any other value. *)
Definition is_object_or_null (v : JsValue) : bool :=
  match v with
  | JsObject _ _ | JsNull => true
  | _ => false
  end.

(** Whether [result["__proto__"] = value] runs the setter that
    [Object.prototype] has for [__proto__]: the assignment looks for the
    property in [result] itself, then along its prototype chain, and
    stops at the first object that has it. *)
Definition reaches_setter (result : JsObj) : bool :=
  match own result !! "__proto__" with
  | Some _ => false
  | None =>
      match prototype result with
      | None => true
      | Some (JsObject _ props) =>
          match lookup_prop "__proto__" props with
          | Some _ => false
          | None => true
          end
      | Some _ => false
      end
  end.

(** [result[name] = value]: an assignment to [__proto__] that reaches
    the setter changes the prototype (for an object or [null]) or does
    nothing (for another value), and creates no property; any other
    assignment writes the own property [name]. *)
Definition set_property (name : string) (value : JsValue) (result : JsObj) : JsObj :=
  if String.eqb name "__proto__" && reaches_setter result then
    if is_object_or_null value then mkJsObj (own result) (Some value) else result
  else mkJsObj (<[name := value]> (own result)) (prototype result).

(** One turn of [for (const [name, value] of Object.entries(b))]:
    [if (!Object.is(value, undefined)) result[name] = value;] *)
Definition assign_entry (name : string) (value : JsValue) (result : JsObj) : JsObj :=
  if is_undefined value then result else set_property name value result.

(** [{ ...a }]: a new object with the own properties of [a] (none for
    [undefined]), [__proto__] included when [a] has it as an own
    property, and the prototype [Object.prototype]. *)
Definition spread (a : option JsObj) : JsObj :=
  mkJsObj (default ∅ (own <$> a)) None.

(** [mergeObjects(a, b)]; [None] is [undefined] (or [void]).
    [Object.entries(b)] lists the own properties of [b]. *)
Definition mergeObjects (a b : option JsObj) : JsObj :=
  let result := spread a in
  match b with
  | None => result
  | Some b => map_fold assign_entry result (own b)
  end.

(** The own property [k] of an object that may be [undefined]. *)
Definition own_of (a : option JsObj) (k : string) : option JsValue :=
  a ≫= (fun o => own o !! k).

End Objects.

(** ** Errors and call frames: [prependErrorMessage], [callFrames],
    [errorWithCallLocation] *)

Module Errors.
Import Matcher.

Local Open Scope string_scope.

(** An [Error] as these functions see it: its message and its stack
    ([None] when [stack] is [undefined]). *)
Record JsError : Type := mkJsError {
  message : string;
  stack : option string }.

(** [s.substring(n)]: [s] without its first [n] characters. *)
Fixpoint substring_from (n : nat) (s : string) : string :=
  match n, s with
  | O, _ => s
  | S _, EmptyString => EmptyString
  | S n', String _ s' => substring_from n' s'
  end.

(** [s.substring(0, n)] *)
Fixpoint substring_to (n : nat) (s : string) : string :=
  match n, s with
  | O, _ => EmptyString
  | S _, EmptyString => EmptyString
  | S n', String c s' => String c (substring_to n' s')
  end.

(** [s.indexOf(sub)], [None] for -1. *)
Definition indexOf (s sub : string) : option nat := String.index 0 sub s.

(** [s.startsWith(p)] *)
Definition startsWith (s p : string) : bool := String.prefix p s.

(** [prependErrorMessage(e, message)]: the error after the call. *)
Definition prependErrorMessage (e : JsError) (msg : string) : JsError :=
  let stack0 := match stack e with Some s => s | None => EmptyString end in
  let stack1 :=
    if includes stack0 (message e) then
      match indexOf stack0 (message e) with
      | Some i => substring_from (i + String.length (message e)) stack0
      | None => stack0
      end
    else stack0 in
  let m := message e in
  let m := if startsWith m "Error:" then substring_from (String.length "Error:") m else m in
  let message' := String.append msg m in
  mkJsError message' (Some (String.append message' stack1)).

Definition newline : ascii := ascii_of_nat 10.

(** [s.split(sep)] for a separator of one character: the first piece
    and the pieces after it. *)
Fixpoint split_on (sep : ascii) (s : string) : string * list string :=
  match s with
  | EmptyString => (EmptyString, [])
  | String c s' =>
      let '(p, ps) := split_on sep s' in
      if Ascii.eqb c sep then (EmptyString, p :: ps) else (String c p, ps)
  end.

Definition split (sep : ascii) (s : string) : list string :=
  let '(p, ps) := split_on sep s in p :: ps.

(** [FOLIO_DIRS.some(dir => frame.includes(dir))] *)
Definition in_folio (dirs : list string) (frame : string) : bool :=
  existsb (fun dir => includes frame dir) dirs.

(** [while (frames.length && FOLIO_DIRS.some(dir => frames[0].includes(dir))) frames.shift();] *)
Fixpoint shift_folio (dirs : list string) (frames : list string) : list string :=
  match frames with
  | [] => []
  | frame :: rest => if in_folio dirs frame then shift_folio dirs rest else frames
  end.

(** [callFrames()], given [FOLIO_DIRS] and the stack that
    [Error.captureStackTrace] wrote. *)
Definition callFrames (dirs : list string) (captured : string) : list string :=
  shift_folio dirs (tail (split newline captured)).

(** [errorWithCallLocation(message)], given the same. *)
Definition errorWithCallLocation (dirs : list string) (captured : string) (msg : string) : JsError :=
  let frames := callFrames dirs captured in
  mkJsError msg
    (Some (String.append "Error: "
             (String.append msg
                (String.append (String newline EmptyString)
                               (String.concat (String newline EmptyString) frames))))).

(** The message [prependErrorMessage] keeps: the old one without a
    leading [Error:]. *)
Definition kept_message (m : string) : string :=
  if startsWith m "Error:" then substring_from 6 m else m.

(** A line: a string without a newline. *)
Definition is_line (f : string) : Prop := split newline f = [f].

End Errors.

(** ** Call locations: [callLocation] *)

Module Locations.
Import Matcher Errors.

(** What [stackUtils.parseLine] reads off a line of a stack: each of the
    keys [file], [line] and [column] is there or not (the frame of a
    native function has none of them). *)
Record ParsedLine : Type := mkParsedLine {
  p_file : option string;
  p_line : option nat;
  p_column : option nat }.

(** The object [callLocation] returns: [file] is a string; [line] and
    [column] are what [parseLine] gave, [undefined] ([None]) when it gave
    none. *)
Record Location : Type := mkLocation {
  loc_file : string;
  loc_line : option nat;
  loc_column : option nat }.

Section WithParser.

(** [stackUtils.parseLine], which gives [null] ([None]) for a line it
    cannot read, and [path.resolve(cwd, file)] for a string [file]. *)
Variable parseLine : string -> option ParsedLine.
Variable resolve : string -> string.

(** [callLocation(fallbackFile)], given [FOLIO_DIRS] and the captured
    stack. [None] is a thrown [TypeError]: reading [location.file] throws
    when [parseLine] gave [null], and [path.resolve(cwd, undefined)]
    throws when the parsed line has no [file]. *)
Definition callLocation (dirs : list string) (captured : string) (fallbackFile : string)
  : option Location :=
  match callFrames dirs captured with
  | [] => Some (mkLocation fallbackFile (Some 1%nat) (Some 1%nat))
  | frame :: _ =>
      match parseLine frame with
      | Some location =>
          match p_file location with
          | Some file =>
              Some (mkLocation (resolve file) (p_line location) (p_column location))
          | None => None
          end
      | None => None
      end
  end.

(** The location read off a frame, when [parseLine] reads the frame and
    finds a file in it. *)
Definition located (frame : string) : option Location :=
  match parseLine frame with
  | Some location =>
      match p_file location with
      | Some file => Some (mkLocation (resolve file) (p_line location) (p_column location))
      | None => None
      end
  | None => None
  end.

End WithParser.

End Locations.

(** ** The harness of the end-to-end tests: [writeFiles] *)

Module Harness.
Import Matcher Errors.

Local Open Scope string_scope.

(** [s] reversed onto [acc]. *)
Fixpoint rev_onto (s acc : string) : string :=
  match s with
  | EmptyString => acc
  | String c s' => rev_onto s' (String c acc)
  end.

(** [s.endsWith(suffix)] *)
Definition endsWith (s suffix : string) : bool :=
  String.prefix (rev_onto suffix EmptyString) (rev_onto s EmptyString).

(** [/(spec|test)\.(js|ts)$/.test(name)] *)
Definition is_test_file (name : string) : bool :=
  endsWith name "spec.js" || endsWith name "spec.ts"
  || endsWith name "test.js" || endsWith name "test.ts".

(** [/\.(js|ts)$/.test(name)] *)
Definition is_script (name : string) : bool :=
  endsWith name ".js" || endsWith name ".ts".

(** [Object.keys(files).some(name => name.includes('.config.'))] *)
Definition hasConfig (files : list (string * string)) : bool :=
  existsb (fun f => includes (fst f) ".config.") files.

Definition nl : string := String newline EmptyString.

(** The configuration file written when the test gives none. *)
Definition default_config : string * string :=
  ("folio.config.ts",
   String.append nl (String.append "        module.exports = {};"
                                   (String.append nl "      "))).

Definition expect_line : string := String.append "const { expect } = folio;" nl.

Section WithHeaders.

(** The two headers, which quote the directory of the package. *)
Variables headerJS headerTS : string.

(** What is written under [name] for the content [content]. *)
Definition written (name content : string) : string :=
  let isTypeScriptSourceFile := endsWith name "ts" && negb (endsWith name "d.ts") in
  let header := if isTypeScriptSourceFile then headerTS else headerJS in
  if is_test_file name then
    let fileHeader := String.append header expect_line in
    String.append fileHeader content
  else if is_script name && negb (endsWith name "d.ts") then
    String.append header content
  else content.

(** [writeFiles(testInfo, files)]: the files written, each under its
    name relative to the output directory of the test, with its content.
    [files] lists the keys of the object in order, each with its value. *)
Definition writeFiles (files : list (string * string)) : list (string * string) :=
  let files := if hasConfig files then files else (files ++ [default_config])%list in
  map (fun f => (fst f, written (fst f) (snd f))) files.

End WithHeaders.

End Harness.

(** * Properties *)

Module ClockFacts.
Import Clock.

Lemma hrtime_okb_spec hr : hrtime_okb hr = true <-> hrtime_ok hr.
Proof.
  unfold hrtime_okb, hrtime_ok. rewrite !andb_true_iff.
  rewrite !Z.leb_le, Z.ltb_lt. tauto.
Qed.

Lemma to_int32_small z : 0 <= z < 2 ^ 31 -> to_int32 z = z.
Proof.
  intros Hz. unfold to_int32.
  rewrite Z.mod_small by lia.
  destruct (Z.ltb_spec z (2 ^ 31)); lia.
Qed.

Lemma monotonicTime_quot hr :
  hrtime_ok hr -> monotonicTime hr = fst hr * 1000 + Z.quot (snd hr) 1000000.
Proof.
  destruct hr as [s ns]. intros [Hs Hns]. cbn [fst snd] in *.
  unfold monotonicTime. rewrite to_int32_small; [reflexivity|].
  rewrite Z.quot_div_nonneg by lia.
  split; [apply Z.div_pos; lia|].
  apply Z.div_lt_upper_bound; lia.
Qed.

Lemma monotonicTime_floor hr :
  hrtime_ok hr -> monotonicTime hr = nanos hr / 10 ^ 6.
Proof.
  intros Hok. rewrite monotonicTime_quot by assumption.
  destruct hr as [s ns]. destruct Hok as [Hs Hns]. cbn [fst snd] in *.
  unfold nanos. cbn [fst snd].
  rewrite Z.quot_div_nonneg by lia.
  replace (s * 10 ^ 9 + ns) with (ns + (s * 1000) * 10 ^ 6) by lia.
  rewrite Z.div_add by lia. change (10 ^ 6) with 1000000. lia.
Qed.

Lemma monotonicTime_mono hr1 hr2 :
  hrtime_ok hr1 -> hrtime_ok hr2 -> nanos hr1 <= nanos hr2 ->
  monotonicTime hr1 <= monotonicTime hr2.
Proof.
  intros H1 H2 Hle. rewrite !monotonicTime_floor by assumption.
  apply Z.div_le_mono; lia.
Qed.

(** C9. For the readings [process.hrtime()] produces, [monotonicTime] is a
    nonnegative integer, equal to [seconds * 1000] plus [nanoseconds]
    divided by 1e6 and truncated toward zero; a later reading of the clock
    gives a value that is not smaller; and the value is below the exact
    time by less than one millisecond. *)
Theorem monotonicTime_spec hr1 hr2 :
  hrtime_ok hr1 -> hrtime_ok hr2 -> nanos hr1 <= nanos hr2 ->
  0 <= monotonicTime hr1 /\
  monotonicTime hr1 = fst hr1 * 1000 + Z.quot (snd hr1) 1000000 /\
  monotonicTime hr1 <= monotonicTime hr2 /\
  0 <= nanos hr1 - monotonicTime hr1 * 10 ^ 6 < 10 ^ 6.
Proof.
  intros H1 H2 Hle. split; [|split; [|split]].
  - rewrite monotonicTime_floor by assumption.
    apply Z.div_pos; [|lia]. destruct H1 as [Hs Hns]. unfold nanos. lia.
  - apply monotonicTime_quot, H1.
  - apply monotonicTime_mono; assumption.
  - rewrite monotonicTime_floor by assumption.
    pose proof (Z.mod_pos_bound (nanos hr1) (10 ^ 6) ltac:(lia)) as Hm.
    pose proof (Z.div_mod (nanos hr1) (10 ^ 6) ltac:(lia)) as Hd. lia.
Qed.

Lemma monotonicTime_spec_witness :
  monotonicTime (1, 999999999) = 1999 /\
  monotonicTime (1, 999999999) <= monotonicTime (2, 0) /\
  0 <= nanos (1, 999999999) - monotonicTime (1, 999999999) * 10 ^ 6 < 10 ^ 6.
Proof.
  pose proof (monotonicTime_spec (1, 999999999) (2, 0)
                ltac:(unfold hrtime_ok; cbn; lia)
                ltac:(unfold hrtime_ok; cbn; lia)
                ltac:(unfold nanos; cbn; lia)) as (_ & H2 & H3 & H4).
  split; [exact H2|]. split; [exact H3|exact H4].
Defined.

End ClockFacts.

Module DeadlineFacts.
Import Clock ClockFacts Deadline.

Section Facts.
Context {T E : Type}.
Implicit Types (w : World T E) (ev : Event T E) (tr : list (Event T E)).

Lemma setDeadline_undefined w : setDeadline None w = cancelTimer w.
Proof. reflexivity. Qed.

(** *** Settling once *)

Lemma result_cancelTimer w : result (cancelTimer w) = result w.
Proof. unfold cancelTimer. destruct (_timer w); reflexivity. Qed.

Lemma _fulfill_settled o w : result w <> Pending -> _fulfill o w = w.
Proof. unfold _fulfill. destruct (result w); congruence. Qed.

Lemma _reject_settled e w : result w <> Pending -> _reject e w = w.
Proof. unfold _reject. destruct (result w); congruence. Qed.

Lemma _finish_settled s e w :
  result w <> Pending -> result (_finish s e w) = result w.
Proof.
  intros Hs. unfold _finish. destruct (_done w); [reflexivity|].
  assert (Hc : result (cancelTimer w) <> Pending) by (rewrite result_cancelTimer; exact Hs).
  destruct s.
  - rewrite _fulfill_settled by exact Hc. apply result_cancelTimer.
  - rewrite _reject_settled by exact Hc. apply result_cancelTimer.
Qed.

Lemma setDeadline_settled d w :
  result w <> Pending -> result (setDeadline d w) = result w.
Proof.
  intros Hs. unfold setDeadline.
  assert (Hc : result (cancelTimer w) <> Pending) by (rewrite result_cancelTimer; exact Hs).
  destruct d as [d|]; [|apply result_cancelTimer].
  destruct (_ <=? 0).
  - rewrite _finish_settled by exact Hc. apply result_cancelTimer.
  - cbn. apply result_cancelTimer.
Qed.

Lemma step_settled w ev w' :
  result w <> Pending -> step w ev = Some w' -> result w' = result w.
Proof.
  intros Hs. destruct ev as [hr|h|v|e|d]; cbn.
  - destruct (_ && _); [|discriminate]. intros [= <-]. reflexivity.
  - destruct (timers w !! h); [|discriminate].
    destruct (_ <=? _); [|discriminate]. intros [= <-].
    rewrite _finish_settled; [reflexivity|exact Hs].
  - destruct (settled w); [discriminate|]. intros [= <-].
    rewrite _finish_settled; [reflexivity|exact Hs].
  - destruct (settled w); [discriminate|]. intros [= <-].
    rewrite _finish_settled; [reflexivity|exact Hs].
  - intros [= <-]. apply setDeadline_settled, Hs.
Qed.

Lemma run_settled tr : forall w w',
  result w <> Pending -> run w tr = Some w' -> result w' = result w.
Proof.
  induction tr as [|ev tr IH]; intros w w' Hs; cbn.
  - intros [= <-]. reflexivity.
  - destruct (step w ev) as [w1|] eqn:Hst; [|discriminate].
    intros Hrun. pose proof (step_settled _ _ _ Hs Hst) as H1.
    rewrite <- H1. apply IH; [congruence|exact Hrun].
Qed.

Lemma run_app tr1 : forall tr2 w w',
  run w (tr1 ++ tr2) = Some w' <->
  exists w1, run w tr1 = Some w1 /\ run w1 tr2 = Some w'.
Proof.
  induction tr1 as [|ev tr1 IH]; intros tr2 w w'; cbn.
  - split; [eauto|]. intros (w1 & [= <-] & H). exact H.
  - destruct (step w ev) as [w1|]; [apply IH|].
    split; [discriminate|]. intros (? & ? & _). discriminate.
Qed.


(** *** What holds of every runner *)

Lemma timers_cancelTimer w :
  (forall h t, timers w !! h = Some t -> _timer w = Some h) ->
  timers (cancelTimer w) = ∅.
Proof.
  intros Ht. unfold cancelTimer. destruct (_timer w) as [h|] eqn:Hh; cbn.
  - apply map_eq. intros k. rewrite lookup_empty.
    destruct (decide (h = k)) as [->|Hne].
    + apply lookup_delete_eq.
    + rewrite lookup_delete_ne by exact Hne.
      destruct (timers w !! k) as [t|] eqn:Hk; [|reflexivity].
      apply Ht in Hk. congruence.
  - apply map_eq. intros k. rewrite lookup_empty.
    destruct (timers w !! k) as [t|] eqn:Hk; [|reflexivity].
    apply Ht in Hk. congruence.
Qed.

Lemma _timer_cancelTimer w : _timer (cancelTimer w) = None.
Proof. unfold cancelTimer. destruct (_timer w) eqn:Hh; [reflexivity|exact Hh]. Qed.

Lemma cancelTimer_frame w :
  hrtime (cancelTimer w) = hrtime w /\ settled (cancelTimer w) = settled w /\
  _done (cancelTimer w) = _done w /\ nextTimer (cancelTimer w) = nextTimer w.
Proof. unfold cancelTimer. destruct (_timer w); cbn; auto. Qed.

Lemma cancelTimer_cancels w h : _timer w = Some h -> timers (cancelTimer w) !! h = None.
Proof. intros Hh. unfold cancelTimer. rewrite Hh. cbn. apply lookup_delete_eq. Qed.

(** [_finish] on a runner whose [_done] is [false]. *)
Lemma _finish_unfold s e w :
  _done w = false ->
  _finish s e w =
  match s with
  | Some o => _fulfill o (cancelTimer w)
  | None => _reject e (cancelTimer w)
  end.
Proof. intros Hd. unfold _finish. rewrite Hd. reflexivity. Qed.

Lemma _fulfill_frame o w :
  hrtime (_fulfill o w) = hrtime w /\ settled (_fulfill o w) = settled w /\
  _done (_fulfill o w) = _done w /\ timers (_fulfill o w) = timers w /\
  _timer (_fulfill o w) = _timer w /\ nextTimer (_fulfill o w) = nextTimer w.
Proof. unfold _fulfill. destruct (result w); cbn; auto 6. Qed.

Lemma _reject_frame e w :
  hrtime (_reject e w) = hrtime w /\ settled (_reject e w) = settled w /\
  _done (_reject e w) = _done w /\ timers (_reject e w) = timers w /\
  _timer (_reject e w) = _timer w /\ nextTimer (_reject e w) = nextTimer w.
Proof. unfold _reject. destruct (result w); cbn; auto 6. Qed.

Lemma settled_finish s e w : settled (_finish s e w) = settled w.
Proof.
  unfold _finish. destruct (_done w); [reflexivity|].
  destruct (cancelTimer_frame w) as (_ & Hc & _).
  destruct s as [o|].
  - destruct (_fulfill_frame o (cancelTimer w)) as (_ & -> & _). exact Hc.
  - destruct (_reject_frame e (cancelTimer w)) as (_ & -> & _). exact Hc.
Qed.

Lemma settled_setDeadline d w : settled (setDeadline d w) = settled w.
Proof.
  unfold setDeadline. destruct (cancelTimer_frame w) as (_ & Hc & _).
  destruct d as [d|]; [|exact Hc].
  destruct (_ <=? 0); [rewrite settled_finish|cbn]; exact Hc.
Qed.

Lemma _finish_frame s e w :
  _done w = false ->
  (forall h t, timers w !! h = Some t -> _timer w = Some h) ->
  hrtime (_finish s e w) = hrtime w /\ settled (_finish s e w) = settled w /\
  _done (_finish s e w) = false /\ timers (_finish s e w) = ∅ /\
  _timer (_finish s e w) = None.
Proof.
  intros Hd Ht. rewrite _finish_unfold by exact Hd.
  destruct (cancelTimer_frame w) as (Hc1 & Hc2 & Hc3 & _).
  pose proof (timers_cancelTimer w Ht) as Hc4.
  pose proof (_timer_cancelTimer w) as Hc5.
  destruct s as [o|].
  - destruct (_fulfill_frame o (cancelTimer w)) as (-> & -> & -> & -> & -> & _).
    repeat split; congruence.
  - destruct (_reject_frame e (cancelTimer w)) as (-> & -> & -> & -> & -> & _).
    repeat split; congruence.
Qed.

Lemma result_fulfill_timed_out w :
  result w = Pending \/ result w = Fulfilled timed_out ->
  result (_fulfill timed_out w) = Fulfilled (E := E) timed_out.
Proof. unfold _fulfill. intros [H|H]; rewrite H; [reflexivity|exact H]. Qed.

Lemma result_finish_timed_out w :
  _done w = false ->
  result w = Pending \/ result w = Fulfilled timed_out ->
  result (_finish (Some timed_out) None w) = Fulfilled timed_out.
Proof.
  intros Hd Hr. rewrite _finish_unfold by exact Hd.
  apply result_fulfill_timed_out. rewrite result_cancelTimer. exact Hr.
Qed.

Lemma result_finish_pending s e w :
  _done w = false -> result w = Pending ->
  result (_finish s e w) =
  match s with Some o => Fulfilled o | None => Rejected e end.
Proof.
  intros Hd Hr. rewrite _finish_unfold by exact Hd.
  destruct s; [unfold _fulfill|unfold _reject];
    rewrite result_cancelTimer, Hr; reflexivity.
Qed.

Lemma result_finish_not_pending s e w :
  _done w = false -> result (_finish s e w) <> Pending.
Proof.
  intros Hd. destruct (result w) as [|o|r] eqn:Hr.
  - rewrite result_finish_pending by assumption. destruct s; discriminate.
  - rewrite _finish_settled by congruence. congruence.
  - rewrite _finish_settled by congruence. congruence.
Qed.

(** [_finish] keeps the invariant when it reports a timeout, or when the
    inner promise has settled. *)
Lemma Inv_finish s e w :
  _done w = false -> hrtime_ok (hrtime w) ->
  (forall h t, timers w !! h = Some t -> _timer w = Some h) ->
  (settled w = true \/
   (s = Some timed_out /\
    (settled w = false -> result w = Pending \/ result w = Fulfilled timed_out))) ->
  Inv (_finish s e w).
Proof.
  intros Hd Hc Ht Hs.
  destruct (_finish_frame s e w Hd Ht) as (H1 & H2 & H3 & H4 & H5).
  split.
  - exact H3.
  - rewrite H1. exact Hc.
  - intros h t. rewrite H4, lookup_empty. discriminate.
  - rewrite H2. intros Hf. destruct Hs as [Hs|[-> Hr]]; [congruence|].
    right. apply result_finish_timed_out; auto.
  - intros _. apply result_finish_not_pending, Hd.
  - rewrite H5. discriminate.
Qed.

Lemma Inv_finish_timed_out w : Inv w -> Inv (_finish (Some timed_out) None w).
Proof.
  intros HI. apply Inv_finish; try apply HI.
  right. split; [reflexivity|apply HI].
Qed.

Lemma Inv_cancelTimer w : Inv w -> Inv (cancelTimer w).
Proof.
  intros [Hd Hc Ht Hr Hs Hf].
  destruct (cancelTimer_frame w) as (H1 & H2 & H3 & _).
  split.
  - congruence.
  - rewrite H1. exact Hc.
  - intros h t. rewrite timers_cancelTimer by exact Ht.
    rewrite lookup_empty. discriminate.
  - rewrite H2, result_cancelTimer. exact Hr.
  - rewrite H2, result_cancelTimer. exact Hs.
  - rewrite _timer_cancelTimer. discriminate.
Qed.

Lemma Inv_setDeadline d w : Inv w -> Inv (setDeadline d w).
Proof.
  intros HI. unfold setDeadline.
  pose proof (Inv_cancelTimer w HI) as HIc.
  pose proof (timers_cancelTimer w (inv_timers w HI)) as Hempty.
  destruct d as [d|]; [|exact HIc].
  destruct (_ <=? 0); [apply Inv_finish_timed_out, HIc|].
  destruct HIc as [Hd Hc Ht Hr Hs Hf]. cbn. split; cbn; auto.
  - intros h t. rewrite Hempty.
    destruct (decide (nextTimer (cancelTimer w) = h)) as [->|Hne].
    + reflexivity.
    + rewrite lookup_insert_ne by exact Hne. rewrite lookup_empty. discriminate.
  - intros h [= <-]. lia.
Qed.

Lemma Inv_step w ev w' : Inv w -> step w ev = Some w' -> Inv w'.
Proof.
  intros HI. destruct ev as [hr|h|v|e|d]; cbn.
  - destruct (hrtime_okb hr) eqn:Hok; [|discriminate]. cbn.
    destruct (_ <=? _); [|discriminate]. intros [= <-].
    destruct HI as [Hd Hc Ht Hr Hs Hf]. split; cbn; auto.
    apply hrtime_okb_spec, Hok.
  - destruct (timers w !! h) as [t|] eqn:Hh; [|discriminate].
    destruct (_ <=? _); [|discriminate]. intros [= <-].
    apply Inv_finish_timed_out.
    destruct HI as [Hd Hc Ht Hr Hs Hf]. split; cbn; auto.
    intros k t'. destruct (decide (h = k)) as [->|Hne].
    + rewrite lookup_delete_eq. discriminate.
    + rewrite lookup_delete_ne by exact Hne. apply Ht.
  - destruct (settled w); [discriminate|]. intros [= <-].
    destruct HI as [Hd Hc Ht Hr Hs Hf]. apply Inv_finish; cbn; auto.
  - destruct (settled w); [discriminate|]. intros [= <-].
    destruct HI as [Hd Hc Ht Hr Hs Hf]. apply Inv_finish; cbn; auto.
  - intros [= <-]. apply Inv_setDeadline, HI.
Qed.

Lemma Inv_run tr : forall w w', Inv w -> run w tr = Some w' -> Inv w'.
Proof.
  induction tr as [|ev tr IH]; intros w w' HI; cbn.
  - intros [= <-]. exact HI.
  - destruct (step w ev) as [w1|] eqn:Hst; [|discriminate].
    apply IH. eapply Inv_step; eauto.
Qed.

Lemma Inv_new hr d : hrtime_ok hr -> Inv (new_DeadlineRunner (T := T) (E := E) hr d).
Proof.
  intros Hok. unfold new_DeadlineRunner. apply Inv_setDeadline.
  split; cbn; auto; discriminate.
Qed.

(** *** A runner nobody calls [setDeadline] on *)

Lemma now_mono w hr :
  hrtime_ok (hrtime w) -> hrtime_okb hr && (nanos (hrtime w) <=? nanos hr) = true ->
  now w <= now (set_hrtime hr w).
Proof.
  intros Hok H. apply andb_true_iff in H as [H1 H2].
  apply hrtime_okb_spec in H1. apply Z.leb_le in H2.
  unfold now. cbn. apply monotonicTime_mono; assumption.
Qed.

Lemma idleTimeout_in_range after :
  1 <= after <= TIMEOUT_MAX -> idleTimeout after = after.
Proof.
  intros [H1 H2]. unfold idleTimeout.
  destruct (Z.leb_spec 1 after); [|lia].
  destruct (Z.leb_spec after TIMEOUT_MAX); [reflexivity|lia].
Qed.

Lemma idleTimeout_overflow after : TIMEOUT_MAX < after -> idleTimeout after = 1.
Proof.
  intros H. unfold idleTimeout.
  destruct (Z.leb_spec after TIMEOUT_MAX); [lia|].
  rewrite andb_false_r. reflexivity.
Qed.

Lemma idleTimeout_le after : 1 <= after -> 1 <= idleTimeout after <= after.
Proof.
  intros H. unfold idleTimeout.
  destruct (1 <=? after); destruct (after <=? TIMEOUT_MAX); cbn; lia.
Qed.

Lemma Armed_new hr d0 :
  hrtime_ok hr ->
  Armed (monotonicTime hr) d0 (raceAgainstDeadline (T := T) (E := E) hr (Some d0)).
Proof.
  intros Hok. unfold raceAgainstDeadline, new_DeadlineRunner, setDeadline.
  cbn [cancelTimer _timer hrtime].
  destruct (Z.leb_spec (d0 - monotonicTime hr) 0) as [Hle|Hgt].
  - split; cbn.
    + intros h t. rewrite lookup_empty. discriminate.
    + intros _. right. split; [reflexivity|]. unfold now. cbn. lia.
  - split; cbn.
    + intros h t. destruct (decide (0%nat = h)) as [<-|Hne].
      * rewrite lookup_insert_eq. intros [= <-]. cbn. lia.
      * rewrite lookup_insert_ne by exact Hne. rewrite lookup_empty. discriminate.
    + intros _. left. split; [reflexivity|].
      exists 0%nat. eexists. apply lookup_insert_eq.
Qed.

Lemma Armed_step a0 d0 w ev w' :
  Inv w -> Armed a0 d0 w -> is_setDeadline ev = false ->
  step w ev = Some w' -> Armed a0 d0 w'.
Proof.
  intros HI [Hdue Hrun] Hev. destruct ev as [hr|h|v|e|d]; cbn; try discriminate.
  - destruct (_ && _) eqn:Hadv; [|discriminate]. intros [= <-].
    pose proof (now_mono w hr (inv_clock w HI) Hadv) as Hmono.
    split; cbn; [exact Hdue|]. intros Hs.
    destruct (Hrun Hs) as [Hp|[Hp Hle]]; [left; exact Hp|right].
    split; [exact Hp|]. intros Hfit. specialize (Hle Hfit). lia.
  - destruct (timers w !! h) as [t|] eqn:Hh; [|discriminate].
    destruct (Z.leb_spec (armedAt t + idleTimeout (delay t)) (monotonicTime (hrtime w)))
      as [Hle|]; [|discriminate].
    intros [= <-]. destruct (Hdue h t Hh) as (Ha0 & Hd0 & Hpos).
    assert (Hd : _done (clearTimeout h w) = false) by (cbn; apply HI).
    assert (Ht : forall k t', timers (clearTimeout h w) !! k = Some t' ->
                              _timer (clearTimeout h w) = Some k).
    { intros k t'. cbn. destruct (decide (h = k)) as [->|Hne].
      - rewrite lookup_delete_eq. discriminate.
      - rewrite lookup_delete_ne by exact Hne. apply HI. }
    destruct (_finish_frame (Some timed_out) None _ Hd Ht) as (H1 & H2 & H3 & H4 & H5).
    split.
    + intros k t'. rewrite H4, lookup_empty. discriminate.
    + rewrite H2. cbn. intros Hs. right. split.
      * apply result_finish_timed_out; [exact Hd|]. cbn.
        apply (inv_running w HI Hs).
      * intros Hfit. unfold now. rewrite H1. cbn.
        rewrite Hd0, idleTimeout_in_range in Hle by lia. lia.
  - destruct (settled w); [discriminate|]. intros [= <-].
    assert (Hd : _done (set_settled true w) = false) by (cbn; apply HI).
    assert (Ht : forall k t', timers (set_settled true w) !! k = Some t' ->
                              _timer (set_settled true w) = Some k) by (cbn; apply HI).
    destruct (_finish_frame (Some (with_result v)) None _ Hd Ht) as (H1 & H2 & H3 & H4 & H5).
    split.
    + intros k t'. rewrite H4, lookup_empty. discriminate.
    + rewrite H2. cbn. discriminate.
  - destruct (settled w); [discriminate|]. intros [= <-].
    assert (Hd : _done (set_settled true w) = false) by (cbn; apply HI).
    assert (Ht : forall k t', timers (set_settled true w) !! k = Some t' ->
                              _timer (set_settled true w) = Some k) by (cbn; apply HI).
    destruct (_finish_frame None e _ Hd Ht) as (H1 & H2 & H3 & H4 & H5).
    split.
    + intros k t'. rewrite H4, lookup_empty. discriminate.
    + rewrite H2. cbn. discriminate.
Qed.

Lemma closed_cons ev tr : closed (ev :: tr) <-> is_setDeadline ev = false /\ closed tr.
Proof.
  unfold closed. cbn. rewrite andb_true_iff, negb_true_iff. reflexivity.
Qed.

Lemma closed_app tr1 tr2 : closed (tr1 ++ tr2) <-> closed tr1 /\ closed tr2.
Proof. unfold closed. rewrite forallb_app, andb_true_iff. reflexivity. Qed.

Lemma Armed_run a0 d0 tr : forall w w',
  Inv w -> Armed a0 d0 w -> closed tr -> run w tr = Some w' -> Armed a0 d0 w'.
Proof.
  induction tr as [|ev tr IH]; intros w w' HI HA Hcl; cbn.
  - intros [= <-]. exact HA.
  - apply closed_cons in Hcl as [Hev Hcl].
    destruct (step w ev) as [w1|] eqn:Hst; [|discriminate].
    apply IH; [eapply Inv_step; eauto|eapply Armed_step; eauto|exact Hcl].
Qed.

Lemma Unarmed_new hr : Unarmed (raceAgainstDeadline (T := T) (E := E) hr None).
Proof. split; cbn; [reflexivity|reflexivity|discriminate]. Qed.

Lemma Unarmed_step w ev w' :
  Inv w -> Unarmed w -> is_setDeadline ev = false ->
  step w ev = Some w' -> Unarmed w'.
Proof.
  intros HI [Hts Hrun Hres] Hev. destruct ev as [hr|h|v|e|d]; cbn; try discriminate.
  - destruct (_ && _); [|discriminate]. intros [= <-]. split; cbn; assumption.
  - rewrite Hts, lookup_empty. discriminate.
  - destruct (settled w) eqn:Hs; [discriminate|]. intros [= <-].
    assert (Hd : _done (set_settled true w) = false) by (cbn; apply HI).
    assert (Ht : forall k t', timers (set_settled true w) !! k = Some t' ->
                              _timer (set_settled true w) = Some k) by (cbn; apply HI).
    destruct (_finish_frame (Some (with_result v)) None _ Hd Ht) as (H1 & H2 & H3 & H4 & H5).
    split.
    + exact H4.
    + rewrite H2. cbn. discriminate.
    + rewrite result_finish_pending; [discriminate|exact Hd|cbn; auto].
  - destruct (settled w) eqn:Hs; [discriminate|]. intros [= <-].
    assert (Hd : _done (set_settled true w) = false) by (cbn; apply HI).
    assert (Ht : forall k t', timers (set_settled true w) !! k = Some t' ->
                              _timer (set_settled true w) = Some k) by (cbn; apply HI).
    destruct (_finish_frame None e _ Hd Ht) as (H1 & H2 & H3 & H4 & H5).
    split.
    + exact H4.
    + rewrite H2. cbn. discriminate.
    + rewrite result_finish_pending; [discriminate|exact Hd|cbn; auto].
Qed.

Lemma Unarmed_run tr : forall w w',
  Inv w -> Unarmed w -> closed tr -> run w tr = Some w' -> Unarmed w'.
Proof.
  induction tr as [|ev tr IH]; intros w w' HI HA Hcl; cbn.
  - intros [= <-]. exact HA.
  - apply closed_cons in Hcl as [Hev Hcl].
    destruct (step w ev) as [w1|] eqn:Hst; [|discriminate].
    apply IH; [eapply Inv_step; eauto|eapply Unarmed_step; eauto|exact Hcl].
Qed.

Lemma settled_step_unsettled w ev w' :
  is_settlement ev = false -> step w ev = Some w' -> settled w' = settled w.
Proof.
  intros Hev. destruct ev as [hr|h|v|e|d]; cbn in *; try discriminate.
  - destruct (_ && _); [|discriminate]. intros [= <-]. reflexivity.
  - destruct (timers w !! h) as [t|]; [|discriminate].
    destruct (_ <=? _); [|discriminate]. intros [= <-].
    rewrite settled_finish. reflexivity.
  - intros [= <-]. apply settled_setDeadline.
Qed.

Lemma settled_run_unsettled tr : forall w w',
  unsettled tr -> run w tr = Some w' -> settled w' = settled w.
Proof.
  induction tr as [|ev tr IH]; intros w w' Hu; cbn.
  - intros [= <-]. reflexivity.
  - unfold unsettled in Hu. cbn in Hu. apply andb_true_iff in Hu as [Hev Hu].
    apply negb_true_iff in Hev.
    destruct (step w ev) as [w1|] eqn:Hst; [|discriminate].
    intros Hrun. rewrite (IH w1 w' Hu Hrun).
    eapply settled_step_unsettled; eauto.
Qed.

Lemma settled_new hr d : settled (new_DeadlineRunner (T := T) (E := E) hr d) = false.
Proof. unfold new_DeadlineRunner. rewrite settled_setDeadline. reflexivity. Qed.

Lemma fulfils_pending w v post w' :
  Inv w -> result w = Pending ->
  run w (InnerFulfils v :: post) = Some w' ->
  result w' = Fulfilled (with_result v).
Proof.
  intros HI Hp. cbn. destruct (settled w); [discriminate|].
  intros Hrun.
  assert (Hr : result (_finish (Some (with_result v)) None (set_settled true w))
               = Fulfilled (with_result v)).
  { rewrite result_finish_pending; [reflexivity|cbn; apply HI|cbn; exact Hp]. }
  rewrite (run_settled _ _ _ (ltac:(rewrite Hr; discriminate)) Hrun). exact Hr.
Qed.

Lemma fires_unsettled w h post w' :
  Inv w -> settled w = false ->
  run w (TimerFires h :: post) = Some w' ->
  result w' = Fulfilled timed_out.
Proof.
  intros HI Hs. cbn. destruct (timers w !! h) as [t|]; [|discriminate].
  destruct (_ <=? _); [|discriminate]. intros Hrun.
  assert (Hr : result (_finish (Some timed_out) None (clearTimeout h w))
               = Fulfilled (E := E) timed_out).
  { apply result_finish_timed_out; cbn; [apply HI|apply (inv_running w HI Hs)]. }
  rewrite (run_settled _ _ _ (ltac:(rewrite Hr; discriminate)) Hrun). exact Hr.
Qed.

Lemma result_new_elapsed hr d0 :
  d0 <= monotonicTime hr ->
  result (new_DeadlineRunner (T := T) (E := E) hr (Some d0)) = Fulfilled timed_out.
Proof.
  intros Hle. unfold new_DeadlineRunner, setDeadline. cbn [cancelTimer _timer hrtime].
  destruct (Z.leb_spec (d0 - monotonicTime hr) 0); [reflexivity|lia].
Qed.

Lemma result_new_pending hr d0 :
  monotonicTime hr < d0 ->
  result (new_DeadlineRunner (T := T) (E := E) hr (Some d0)) = Pending.
Proof.
  intros Hlt. unfold new_DeadlineRunner, setDeadline. cbn [cancelTimer _timer hrtime].
  destruct (Z.leb_spec (d0 - monotonicTime hr) 0); [lia|reflexivity].
Qed.

(** Until the timeout fires, the result of a runner nobody calls
    [setDeadline] on stays pending as long as the inner promise has not
    settled. *)
Lemma pending_run_unfired tr : forall w w',
  Inv w -> closed tr -> unfired tr ->
  (settled w = false -> result w = Pending) ->
  run w tr = Some w' ->
  settled w' = false -> result w' = Pending.
Proof.
  induction tr as [|ev tr IH]; intros w w' HI Hcl Hu Hp; cbn.
  - intros [= <-]. exact Hp.
  - apply closed_cons in Hcl as [Hev Hcl].
    unfold unfired in Hu. cbn in Hu. apply andb_true_iff in Hu as [Hev' Hu].
    apply negb_true_iff in Hev'.
    destruct (step w ev) as [w1|] eqn:Hst; [|discriminate].
    apply (IH w1 w' (Inv_step _ _ _ HI Hst) Hcl Hu).
    destruct ev as [hr|h|v|e|d]; cbn in Hev, Hev', Hst; try discriminate.
    + destruct (_ && _); [|discriminate]. injection Hst as <-. exact Hp.
    + destruct (settled w); [discriminate|]. injection Hst as <-.
      rewrite settled_finish. cbn. discriminate.
    + destruct (settled w); [discriminate|]. injection Hst as <-.
      rewrite settled_finish. cbn. discriminate.
Qed.

(** X20. [raceAgainstDeadline(p, d)] for a deadline node's timers can
    hold, for every trace of the event loop (the runner is not reachable
    from outside, so the trace has no call of [setDeadline]):
    - when [p] fulfils with [v] before the deadline elapses (the clock
      still reads less than the deadline, which was at most [TIMEOUT_MAX]
      milliseconds ahead when the runner was built; or the deadline was
      ahead then and the timeout has not fired yet), or there is no
      deadline, the result is [{ result: v }];
    - when the timeout fires before [p] settles, or the deadline has
      passed already when the runner is built, the result is
      [{ timedOut: true }]; and once the clock has reached the deadline
      with the result still pending, the timeout is ready to fire and
      firing it gives [{ timedOut: true }];
    - without a deadline the result is never [{ timedOut: true }] and
      stays pending until [p] settles;
    - a deadline more than [TIMEOUT_MAX] milliseconds ahead is not
      waited for: its timeout is ready to fire one millisecond after the
      runner was built. *)
Theorem raceAgainstDeadline_traces (hr : hrtime_t) (d : option Z) tr w' :
  hrtime_ok hr -> closed tr ->
  run (raceAgainstDeadline hr d) tr = Some w' ->
  (forall pre v post w1,
      tr = pre ++ InnerFulfils v :: post ->
      run (raceAgainstDeadline hr d) pre = Some w1 ->
      (forall d0, d = Some d0 ->
         (now w1 < d0 /\ d0 - monotonicTime hr <= TIMEOUT_MAX) \/
         (monotonicTime hr < d0 /\ unfired pre)) ->
      result w' = Fulfilled (with_result v)) /\
  (forall pre h post,
      tr = pre ++ TimerFires h :: post -> unsettled pre ->
      result w' = Fulfilled timed_out) /\
  (forall d0, d = Some d0 -> d0 <= monotonicTime hr ->
      result w' = Fulfilled timed_out) /\
  (forall d0, d = Some d0 -> result w' = Pending -> d0 <= now w' ->
      exists h w'', step w' (TimerFires h) = Some w'' /\
                    result w'' = Fulfilled timed_out) /\
  (d = None ->
      result w' <> Fulfilled timed_out /\ (unsettled tr -> result w' = Pending)) /\
  (forall d0, d = Some d0 -> TIMEOUT_MAX < d0 - monotonicTime hr ->
      result w' = Pending -> monotonicTime hr + 1 <= now w' ->
      exists h w'', step w' (TimerFires h) = Some w'' /\
                    result w'' = Fulfilled timed_out).
Proof.
  intros Hok Hcl Hrun.
  pose proof (Inv_new hr d Hok) as HI0. fold (raceAgainstDeadline (T:=T) (E:=E) hr d) in HI0.
  repeat split.
  - intros pre v post w1 -> Hpre Hbefore.
    apply run_app in Hrun as (w1' & Hpre' & Hpost).
    rewrite Hpre in Hpre'. injection Hpre' as <-.
    apply closed_app in Hcl as [Hclpre _].
    pose proof (Inv_run _ _ _ HI0 Hpre) as HI1.
    apply (fulfils_pending w1 v post); [exact HI1| |exact Hpost].
    assert (Hs : settled w1 = false).
    { cbn in Hpost. destruct (settled w1); [discriminate|reflexivity]. }
    destruct d as [d0|].
    + destruct (Hbefore d0 eq_refl) as [[Hlt Hfit]|[Hlt Hu]].
      * pose proof (Armed_run _ d0 pre _ _ HI0 (Armed_new hr d0 Hok) Hclpre Hpre) as HA.
        destruct (armed_running _ d0 w1 HA Hs) as [[Hp _]|[_ Hle]]; [exact Hp|].
        specialize (Hle Hfit). lia.
      * apply (pending_run_unfired pre _ w1 HI0 Hclpre Hu); [|exact Hpre|exact Hs].
        intros _. apply result_new_pending, Hlt.
    + pose proof (Unarmed_run pre _ _ HI0 (Unarmed_new hr) Hclpre Hpre) as HU.
      apply (unarmed_running w1 HU Hs).
  - intros pre h post -> Hu.
    apply run_app in Hrun as (w1 & Hpre & Hpost).
    apply (fires_unsettled w1 h post); [eapply Inv_run; eauto| |exact Hpost].
    rewrite (settled_run_unsettled pre _ _ Hu Hpre). apply settled_new.
  - intros d0 -> Hle.
    pose proof (result_new_elapsed hr d0 Hle) as Hr.
    fold (raceAgainstDeadline (T:=T) (E:=E) hr (Some d0)) in Hr.
    rewrite (run_settled tr _ _ (ltac:(rewrite Hr; discriminate)) Hrun). exact Hr.
  - intros d0 -> Hp Hle.
    pose proof (Inv_run _ _ _ HI0 Hrun) as HI.
    pose proof (Armed_run _ d0 tr _ _ HI0 (Armed_new hr d0 Hok) Hcl Hrun) as HA.
    assert (Hs : settled w' = false).
    { destruct (settled w') eqn:Hs; [|reflexivity].
      exfalso. apply (inv_settled w' HI Hs Hp). }
    destruct (armed_running _ d0 w' HA Hs) as [[_ (h & t & Hh)]|[Hto _]]; [|congruence].
    exists h. eexists. split.
    + cbn. rewrite Hh.
      destruct (armed_due _ d0 w' HA h t Hh) as (-> & -> & Hpos).
      pose proof (idleTimeout_le (d0 - monotonicTime hr) ltac:(lia)) as Hidle.
      unfold now in Hle.
      destruct (Z.leb_spec (monotonicTime hr + idleTimeout (d0 - monotonicTime hr))
                           (monotonicTime (hrtime w'))); [|lia].
      reflexivity.
    + apply result_finish_timed_out; cbn; [apply HI|left; exact Hp].
  - subst d. apply (Unarmed_run tr _ _ HI0 (Unarmed_new hr) Hcl Hrun).
  - subst d. intros Hu.
    pose proof (Unarmed_run tr _ _ HI0 (Unarmed_new hr) Hcl Hrun) as HU.
    apply (unarmed_running w' HU).
    rewrite (settled_run_unsettled tr _ _ Hu Hrun). apply settled_new.
  - intros d0 -> Hover Hp Hle.
    pose proof (Inv_run _ _ _ HI0 Hrun) as HI.
    pose proof (Armed_run _ d0 tr _ _ HI0 (Armed_new hr d0 Hok) Hcl Hrun) as HA.
    assert (Hs : settled w' = false).
    { destruct (settled w') eqn:Hs; [|reflexivity].
      exfalso. apply (inv_settled w' HI Hs Hp). }
    destruct (armed_running _ d0 w' HA Hs) as [[_ (h & t & Hh)]|[Hto _]]; [|congruence].
    exists h. eexists. split.
    + cbn. rewrite Hh.
      destruct (armed_due _ d0 w' HA h t Hh) as (-> & -> & Hpos).
      rewrite idleTimeout_overflow by exact Hover.
      unfold now in Hle.
      destruct (Z.leb_spec (monotonicTime hr + 1) (monotonicTime (hrtime w'))); [|lia].
      reflexivity.
    + apply result_finish_timed_out; cbn; [apply HI|left; exact Hp].
Qed.

(** C2. The result promise settles at most once and its first settlement
    is final: from a runner whose result has settled, no sequence of
    events (a timeout firing, the inner promise fulfilling or rejecting, a
    call of [setDeadline], time passing) changes the result. *)
Theorem result_settles_once w tr w' :
  result w <> Pending -> run w tr = Some w' -> result w' = result w.
Proof. intros Hs Hrun. exact (run_settled tr w w' Hs Hrun). Qed.

(** X21. While the result is still pending (in a runner nobody calls
    [setDeadline] on: while the clock is before a deadline that was at
    most [TIMEOUT_MAX] milliseconds ahead when the runner was built), a
    rejection of the inner promise with [e] rejects the result with [e];
    no timeout is pending afterwards and the runner holds no timer. *)
Theorem inner_rejection_while_pending (hr : hrtime_t) (d : option Z) tr w e w' :
  hrtime_ok hr ->
  run (new_DeadlineRunner hr d) tr = Some w ->
  result w = Pending \/
  (closed tr /\
   forall d0, d = Some d0 -> now w < d0 /\ d0 - monotonicTime hr <= TIMEOUT_MAX) ->
  step w (InnerRejects e) = Some w' ->
  result w' = Rejected e /\ timers w' = ∅ /\ _timer w' = None /\
  (forall h, _timer w = Some h -> timers w' !! h = None).
Proof.
  intros Hok Hrun Hbefore Hst.
  pose proof (Inv_new hr d Hok) as HI0.
  pose proof (Inv_run _ _ _ HI0 Hrun) as HI.
  cbn in Hst. destruct (settled w) eqn:Hs; [discriminate|]. injection Hst as <-.
  assert (Hp : result w = Pending).
  { destruct Hbefore as [Hp|[Hcl Hlt]]; [exact Hp|].
    destruct d as [d0|].
    - pose proof (Armed_run _ d0 tr _ _ HI0 (Armed_new hr d0 Hok) Hcl Hrun) as HA.
      destruct (armed_running _ d0 w HA Hs) as [[Hp _]|[_ Hle]]; [exact Hp|].
      destruct (Hlt d0 eq_refl) as [Hlt' Hfit]. specialize (Hle Hfit). lia.
    - pose proof (Unarmed_run tr _ _ HI0 (Unarmed_new hr) Hcl Hrun) as HU.
      apply (unarmed_running w HU Hs). }
  assert (Hd : _done (set_settled true w) = false) by (cbn; apply HI).
  assert (Ht : forall k t', timers (set_settled true w) !! k = Some t' ->
                            _timer (set_settled true w) = Some k) by (cbn; apply HI).
  destruct (_finish_frame None e _ Hd Ht) as (H1 & H2 & H3 & H4 & H5).
  repeat split.
  - rewrite result_finish_pending; [reflexivity|exact Hd|cbn; exact Hp].
  - exact H4.
  - exact H5.
  - intros h _. rewrite H4. apply lookup_empty.
Qed.

Lemma idle_run tr : forall w w',
  timers w = ∅ -> closed tr -> unsettled tr -> run w tr = Some w' ->
  result w' = result w.
Proof.
  induction tr as [|ev tr IH]; intros w w' Hts Hcl Hu; cbn.
  - intros [= <-]. reflexivity.
  - apply closed_cons in Hcl as [Hev Hcl].
    unfold unsettled in Hu. cbn in Hu. apply andb_true_iff in Hu as [Hev' Hu].
    apply negb_true_iff in Hev'.
    destruct ev as [hr|h|v|e|d]; cbn in Hev, Hev' |- *; try discriminate.
    + destruct (_ && _); [|discriminate]. intros Hrun.
      rewrite (IH (set_hrtime hr w) w' Hts Hcl Hu Hrun). reflexivity.
    + rewrite Hts, lookup_empty. discriminate.
Qed.


End Facts.

(** A runner with a deadline at 5 ms: the inner promise fulfils with 7 at
    3 ms. *)
Lemma raceAgainstDeadline_traces_witness :
  exists w' : World nat nat,
    run (raceAgainstDeadline (0, 0) (Some 5))
        [Advance (0, 3000000); InnerFulfils 7%nat] = Some w' /\
    result w' = Fulfilled (with_result 7%nat).
Proof.
  eexists. split; [reflexivity|].
  refine (proj1 (raceAgainstDeadline_traces (0, 0) (Some 5)
                   [Advance (0, 3000000); InnerFulfils 7%nat] _ _ _ _)
                [Advance (0, 3000000)] 7%nat [] _ _ _ _).
  - unfold hrtime_ok. cbn. lia.
  - reflexivity.
  - reflexivity.
  - reflexivity.
  - reflexivity.
  - intros d0 [= <-]. left. split; [vm_compute; reflexivity|vm_compute; discriminate].
Defined.

(** The same runner when the timeout fires at 6 ms and the inner promise
    fulfils afterwards. *)
Example raceAgainstDeadline_timeout_first :
  option_map result
    (run (raceAgainstDeadline (T := nat) (E := nat) (0, 0) (Some 5))
         [Advance (0, 6000000); TimerFires 0%nat; InnerFulfils 7%nat])
  = Some (Fulfilled timed_out).
Proof. vm_compute. reflexivity. Qed.

(** The timeout cannot fire before its delay has passed. *)
Example raceAgainstDeadline_timer_not_early :
  run (raceAgainstDeadline (T := nat) (E := nat) (0, 0) (Some 5))
      [Advance (0, 4999999); TimerFires 0%nat] = None.
Proof. vm_compute. reflexivity. Qed.

(** C1. [raceAgainstDeadline] does not wait for a deadline more than
    2^31 - 1 milliseconds ahead. [raceAgainstDeadline(p, d)] called when
    [monotonicTime()] is 1000 with [d = 1000 + 2147483648]: the runner
    calls [setTimeout] with the delay 2147483648, which node turns into
    1; one millisecond later the timeout fires, and when [p] fulfils with
    7 after that, long before the deadline, the result is
    [{ timedOut: true }] and not [{ result: 7 }]. With the deadline one
    millisecond earlier the timeout cannot fire then, and the result is
    [{ result: 7 }]. *)
Theorem raceAgainstDeadline_overflow :
  let w0 : World nat nat := raceAgainstDeadline (1, 0) (Some (1000 + 2147483648)) in
  let tr := [Advance (1, 1000000); TimerFires 0%nat; InnerFulfils 7%nat] in
  timers w0 = {[ 0%nat := mkTimer 1000 2147483648 ]} /\
  idleTimeout 2147483648 = 1 /\
  option_map now (run w0 tr) = Some 1001 /\
  option_map result (run w0 tr) = Some (Fulfilled timed_out) /\
  run (raceAgainstDeadline (T := nat) (E := nat) (1, 0) (Some (1000 + 2147483647)))
      [Advance (1, 1000000); TimerFires 0%nat] = None /\
  option_map result
    (run (raceAgainstDeadline (T := nat) (E := nat) (1, 0) (Some (1000 + 2147483647)))
         [Advance (1, 1000000); InnerFulfils 7%nat])
  = Some (Fulfilled (with_result 7%nat)).
Proof. repeat split; vm_compute; reflexivity. Qed.

(** C8. A rejection of the inner promise before the deadline does not
    reject the result when the deadline is more than 2^31 - 1
    milliseconds ahead. A runner built when [monotonicTime()] is 1000
    with the deadline [1000 + 2147483648]: node turns the delay of its
    timeout into 1, the timeout fires one millisecond later, and when the
    inner promise rejects with 13 after that, long before the deadline,
    the result stays [{ timedOut: true }]; it is not rejected with 13.
    With the deadline one millisecond earlier the same rejection rejects
    the result with 13. *)
Theorem inner_rejection_after_overflow :
  let w0 : World nat nat := new_DeadlineRunner (1, 0) (Some (1000 + 2147483648)) in
  let tr := [Advance (1, 1000000); TimerFires 0%nat; InnerRejects (Some 13%nat)] in
  option_map now (run w0 tr) = Some 1001 /\
  option_map result (run w0 tr) = Some (Fulfilled timed_out) /\
  option_map result (run w0 tr) <> Some (Rejected (Some 13%nat)) /\
  option_map result
    (run (new_DeadlineRunner (T := nat) (E := nat) (1, 0) (Some (1000 + 2147483647)))
         [Advance (1, 1000000); InnerRejects (Some 13%nat)])
  = Some (Rejected (Some 13%nat)).
Proof. repeat split; try (vm_compute; reflexivity). vm_compute. discriminate. Qed.

Lemma result_settles_once_witness :
  exists w w' : World nat nat,
    run (raceAgainstDeadline (0, 0) (Some 5)) [Advance (0, 6000000); TimerFires 0%nat]
      = Some w /\
    run w [InnerFulfils 7%nat; CallSetDeadline (Some 100); Advance (1, 0);
           TimerFires 1%nat] = Some w' /\
    result w' = Fulfilled timed_out.
Proof.
  eexists. eexists. split; [vm_compute; reflexivity|]. split; [vm_compute; reflexivity|].
  match goal with
  | |- result ?w' = ?r =>
      change (result w' = result (T := nat) (E := nat)
                (mkWorld nat nat (0, 6000000) ∅ 1%nat false None false
                         (Fulfilled timed_out)))
  end.
  apply (result_settles_once _
           [InnerFulfils 7%nat; CallSetDeadline (Some 100); Advance (1, 0);
            TimerFires 1%nat]).
  - cbn. discriminate.
  - vm_compute. reflexivity.
Defined.

(** A runner with a deadline at 5 ms whose inner promise rejects at 3 ms. *)
Lemma inner_rejection_while_pending_witness :
  exists w w' : World nat nat,
    run (new_DeadlineRunner (0, 0) (Some 5)) [Advance (0, 3000000)] = Some w /\
    step w (InnerRejects (Some 13%nat)) = Some w' /\
    result w' = Rejected (Some 13%nat) /\ timers w' = ∅.
Proof.
  eexists. eexists. split; [reflexivity|]. split; [reflexivity|].
  pose proof (inner_rejection_while_pending (T := nat) (E := nat) (0, 0) (Some 5)
                [Advance (0, 3000000)] _ (Some 13%nat) _
                ltac:(unfold hrtime_ok; cbn; lia) eq_refl
                (or_introl eq_refl) eq_refl) as (H1 & H2 & _).
  split; [exact H1|exact H2].
Defined.


End DeadlineFacts.

Module SerializeFacts.
Import Serialize.

Local Open Scope string_scope.

(** C6. [serializeError] gives an [Error] instance the literal
    [{ message: error.message, stack: error.stack }] and every other
    value the literal [{ value: util.inspect(value) }]; the result has
    one of these two shapes and never both a [message] and a [value]
    key. *)
Theorem serializeError_shape (inspect : JsValue -> string) (error : JsValue) :
  (instanceof_Error error = true ->
     serializeError inspect error =
       [("message", get error "message"); ("stack", get error "stack")]) /\
  (instanceof_Error error = false ->
     serializeError inspect error = [("value", JsString (inspect error))]) /\
  (map fst (serializeError inspect error) = ["message"; "stack"] \/
   map fst (serializeError inspect error) = ["value"]) /\
  has_key "message" (serializeError inspect error)
    && has_key "value" (serializeError inspect error) = false.
Proof.
  unfold serializeError.
  destruct (instanceof_Error error); repeat split; try discriminate; auto.
Qed.

Example serializeError_Error :
  serializeError (fun _ => "?")
    (JsObject true [("message", JsString "boom"); ("stack", JsString "Error: boom at f")])
  = [("message", JsString "boom"); ("stack", JsString "Error: boom at f")].
Proof. reflexivity. Qed.

Example serializeError_thrown_number :
  serializeError (fun _ => "42") (JsNumber 42) = [("value", JsString "42")].
Proof. reflexivity. Qed.

End SerializeFacts.

Module MatcherFacts.
Import Matcher.

Local Open Scope string_scope.

Section Facts.

Context {RegExpSource : Type}.
Variable regex_match : RegExpSource -> bool -> string -> nat -> option nat.
Variable minimatch : string -> string -> bool.

Abbreviation test := (test regex_match).
Abbreviation test_reList := (test_reList regex_match).
Abbreviation matcher := (matcher regex_match minimatch).
Abbreviation createMatcher := (createMatcher regex_match minimatch).
Abbreviation matches := (matches regex_match).

Lemma test_after_reset re value st :
  fst (test re value (set_lastIndex re 0 st)) = matches re value.
Proof.
  unfold test, matches, lastIndex, set_lastIndex.
  rewrite lookup_insert_eq. cbn [default].
  destruct (re_global re) eqn:Hg; destruct (re_sticky re) eqn:Hs; cbn;
    try (destruct (regex_match _ _ value 0%nat); reflexivity).
Qed.

Lemma test_reList_existsb res value : forall st,
  fst (test_reList res value st) = existsb (fun re => matches re value) res.
Proof.
  induction res as [|re rest IH]; intros st; cbn; [reflexivity|].
  pose proof (test_after_reset re value st) as Ht.
  destruct (test re value (set_lastIndex re 0 st)) as [b st'].
  cbn in Ht. subst b.
  destruct (matches re value); [reflexivity|]. apply IH.
Qed.

Lemma test_filePatterns_existsb ps value :
  test_filePatterns minimatch ps value = existsb (fun p => minimatch value p) ps.
Proof.
  induction ps as [|p rest IH]; cbn; [reflexivity|].
  destruct (minimatch value p); [reflexivity|exact IH].
Qed.

Lemma matcher_answer l value st :
  fst (matcher l value st) =
  existsb (fun re => matches re value) (reList l)
  || existsb (fun p => minimatch value p) (filePatterns l).
Proof.
  unfold matcher.
  pose proof (test_reList_existsb (reList l) value st) as Hre.
  destruct (test_reList (reList l) value st) as [b st'].
  cbn in Hre. rewrite <- Hre.
  destruct b; cbn; [reflexivity|apply test_filePatterns_existsb].
Qed.

Lemma includes_prefixed s : includes (String.append "**/" s) slash = true.
Proof.
  unfold includes, slash.
  change (String.append "**/" s) with (String "*" (String "*" (String "/" s))).
  assert (H : String.index 0 "/" (String "*" (String "*" (String "/" s))) = Some 2%nat).
  { destruct s; reflexivity. }
  rewrite H. reflexivity.
Qed.

Lemma push_pattern_prefixed (acc : Lists RegExpSource) p :
  push_pattern acc (prefixed p) = push_pattern acc p.
Proof.
  destruct p as [re|s]; [reflexivity|]. cbn.
  destruct (negb (includes s slash) && negb (includes s backslash)) eqn:Hs.
  - cbn. rewrite includes_prefixed. reflexivity.
  - cbn. rewrite Hs. reflexivity.
Qed.

Lemma fold_push_prefixed ps : forall acc : Lists RegExpSource,
  fold_left push_pattern (map prefixed ps) acc = fold_left push_pattern ps acc.
Proof.
  induction ps as [|p ps IH]; intros acc; cbn; [reflexivity|].
  rewrite push_pattern_prefixed. apply IH.
Qed.


End Facts.

(** Without the reset, a [g] expression answers differently the second
    time: the first [test] leaves [lastIndex] after the match. *)
Example test_without_reset :
  let re := mkRegExp 0 "spec" true false in
  let '(b1, st1) := test literal_match re "a.spec.ts" ∅ in
  let '(b2, _) := test literal_match re "a.spec.ts" st1 in
  (b1, b2) = (true, false).
Proof. vm_compute. reflexivity. Qed.

Example createMatcher_twice :
  let re := mkRegExp 0 "spec" true false in
  let m := createMatcher literal_match String.eqb (Many [PRegExp re; PRegExp re]) in
  let '(b1, st1) := m "a.spec.ts" ∅ in
  let '(b2, _) := m "a.spec.ts" st1 in
  (b1, b2) = (true, true).
Proof. vm_compute. reflexivity. Qed.


End MatcherFacts.

Module DispatcherFacts.
Import Dispatcher.

Local Open Scope nat_scope.

(** *** Picking from lists *)

Lemma take_run_spec f h q run rest :
  take_run f h q = (run, rest) ->
  q = run ++ rest /\ Forall (fun e => in_run f h e = true) run.
Proof.
  revert run rest. induction q as [|e q IH]; intros run rest; cbn.
  - intros [= <- <-]. split; [reflexivity|constructor].
  - destruct (in_run f h e) eqn:He.
    + destruct (take_run f h q) as [run' rest'].
      intros [= <- <-]. destruct (IH run' rest' eq_refl) as [-> HF].
      split; [reflexivity|constructor; assumption].
    + intros [= <- <-]. split; [reflexivity|constructor].
Qed.

(** Two neighbours of one file and one hash stay together when the queue
    is split into its first hash-run and the rest. *)
Lemma take_run_neighbours f h q run rest a e1 e2 b :
  take_run f h q = (run, rest) ->
  q = a ++ e1 :: e2 :: b ->
  in_run f h e2 = in_run f h e1 ->
  (exists a' b', run = a' ++ e1 :: e2 :: b') \/
  (exists a' b', rest = a' ++ e1 :: e2 :: b').
Proof.
  intros Htake Hq Hsame. revert q run rest Htake Hq.
  induction a as [|x a IH]; intros q run rest Htake ->; cbn in Htake.
  - destruct (in_run f h e1) eqn:H1.
    + rewrite Hsame in Htake.
      destruct (take_run f h b) as [run' rest'].
      injection Htake as <- <-. left. exists [], run'. reflexivity.
    + injection Htake as <- <-. right. exists [], b. reflexivity.
  - destruct (in_run f h x).
    + destruct (take_run f h (a ++ e1 :: e2 :: b)) as [run' rest'] eqn:Ht.
      injection Htake as <- <-.
      destruct (IH _ _ _ Ht eq_refl) as [(a' & b' & ->)|(a' & b' & ->)].
      * left. exists (x :: a'), b'. reflexivity.
      * right. exists a', b'. reflexivity.
    + injection Htake as <- <-. right. exists (x :: a), b. reflexivity.
Qed.

Lemma pick_spec {A : Type} k (l : list A) x l' :
  pick k l = Some (x, l') -> exists l1 l2, l = l1 ++ x :: l2 /\ l' = l1 ++ l2.
Proof.
  revert k x l'. induction l as [|y l IH]; intros [|k] x l'; cbn; try discriminate.
  - intros [= <- <-]. exists [], l. split; reflexivity.
  - destruct (pick k l) as [[z rest]|] eqn:Hp; [|discriminate].
    intros [= <- <-]. destruct (IH _ _ _ Hp) as (l1 & l2 & -> & ->).
    exists (y :: l1), l2. split; reflexivity.
Qed.

Lemma pick_lt {A : Type} k (l : list A) p : pick k l = Some p -> k < length l.
Proof.
  revert k p. induction l as [|y l IH]; intros [|k] p; cbn; try discriminate.
  - lia.
  - destruct (pick k l) as [q|] eqn:Hp; [|discriminate].
    intros _. specialize (IH _ _ Hp). lia.
Qed.

Lemma pick_free_spec h fr i fr' :
  pick_free h fr = Some (i, fr') ->
  exists l1 l2, fr = l1 ++ (i, h) :: l2 /\ fr' = l1 ++ l2.
Proof.
  revert i fr'. induction fr as [|[j h'] fr IH]; intros i fr'; cbn; [discriminate|].
  destruct (Nat.eqb_spec h' h) as [->|Hne].
  - intros [= <- <-]. exists [], fr. split; reflexivity.
  - destruct (pick_free h fr) as [[k rest]|] eqn:Hp; [|discriminate].
    intros [= <- <-]. destruct (IH _ _ eq_refl) as (l1 & l2 & -> & ->).
    exists ((j, h') :: l1), l2. split; reflexivity.
Qed.

(** *** Turns, runs and the search of all runs *)

Lemma step_successors W s s' : step W s s' <-> s' ∈ successors W s.
Proof.
  unfold step, successors. rewrite list_elem_of_omap. split.
  - intros [a Ha]. exists a. split; [|exact Ha].
    unfold actions. destruct a as [|k|k].
    + apply elem_of_cons. left. reflexivity.
    + apply elem_of_cons. right. apply elem_of_app. left.
      apply list_elem_of_fmap. exists k. split; [reflexivity|].
      apply elem_of_seq. cbn in Ha.
      destruct (assign W s); [discriminate|].
      unfold testEnd in Ha. destruct (pick k (busy s)) as [p|] eqn:Hp; [|discriminate].
      apply pick_lt in Hp. lia.
    + apply elem_of_cons. right. apply elem_of_app. right.
      apply list_elem_of_fmap. exists k. split; [reflexivity|].
      apply elem_of_seq. cbn in Ha.
      destruct (assign W s); [discriminate|].
      unfold retire in Ha. destruct (queue s); [|discriminate].
      destruct (pick k (free s)) as [p|] eqn:Hp; [|discriminate].
      apply pick_lt in Hp. lia.
  - intros (a & _ & Ha). exists a. exact Ha.
Qed.

Lemma exec_rtc W acts : forall s s', exec W acts s = Some s' -> rtc (step W) s s'.
Proof.
  induction acts as [|a acts IH]; intros s s'; cbn.
  - intros [= <-]. apply rtc_refl.
  - destruct (perform W a s) as [s1|] eqn:Hp; [|discriminate].
    intros He. eapply rtc_l; [exists a; exact Hp|apply IH, He].
Qed.

(** The state a list of actions leads to, when each of them is possible. *)
Lemma exec_reaches W acts s0 d :
  match exec W acts s0 with Some _ => true | None => false end = true ->
  rtc (step W) s0 (default d (exec W acts s0)).
Proof.
  destruct (exec W acts s0) as [s|] eqn:He; [|discriminate].
  intros _. cbn. eapply exec_rtc, He.
Qed.

Lemma explore_fold_elem_of W n succs fs s1 s' :
  foldr (fun s' acc =>
           match explore W n s', acc with
           | Some l1, Some l2 => Some (l1 ++ l2)
           | _, _ => None
           end) (Some []) succs = Some fs ->
  s1 ∈ succs ->
  exists fs1, explore W n s1 = Some fs1 /\ (s' ∈ fs1 -> s' ∈ fs).
Proof.
  revert fs. induction succs as [|x succs IH]; intros fs; cbn.
  - intros _ H. apply elem_of_nil in H. contradiction.
  - destruct (explore W n x) as [l1|] eqn:Hx; [|discriminate].
    destruct (foldr _ _ succs) as [l2|] eqn:Hf; [|discriminate].
    intros [= <-] Hin. apply elem_of_cons in Hin as [->|Hin].
    + exists l1. split; [exact Hx|]. intros H. apply elem_of_app. left. exact H.
    + destruct (IH l2 eq_refl Hin) as (fs1 & H1 & H2).
      exists fs1. split; [exact H1|]. intros H. apply elem_of_app. right. auto.
Qed.

(** [explore] finds every state in which a run can end. *)
Lemma explore_complete W n : forall s fs s',
  explore W n s = Some fs ->
  rtc (step W) s s' -> successors W s' = [] -> s' ∈ fs.
Proof.
  induction n as [|n IH]; intros s fs s'; cbn [explore]; [discriminate|].
  intros Hex Hrtc Hend. destruct Hrtc as [s|s s1 s' Hst Hrtc].
  - rewrite Hend in Hex. injection Hex as <-. apply elem_of_cons. left. reflexivity.
  - apply step_successors in Hst.
    destruct (successors W s) as [|x succs] eqn:Hs.
    + apply elem_of_nil in Hst. contradiction.
    + destruct (explore_fold_elem_of W n (x :: succs) fs s1 s' Hex Hst) as (fs1 & H1 & H2).
      apply H2. eapply IH; eauto.
Qed.

(** When [explore] answers, no run is longer than its fuel. *)
Lemma explore_bound W n : forall s fs k s',
  explore W n s = Some fs -> nsteps (step W) k s s' -> k < n.
Proof.
  induction n as [|n IH]; intros s fs k s'; cbn [explore]; [discriminate|].
  intros Hex Hn. destruct Hn as [s|k s s1 s' Hst Hn]; [lia|].
  apply step_successors in Hst.
  destruct (successors W s) as [|x succs] eqn:Hs.
  - apply elem_of_nil in Hst. contradiction.
  - destruct (explore_fold_elem_of W n (x :: succs) fs s1 s' Hex Hst) as (fs1 & H1 & _).
    specialize (IH _ _ _ _ H1 Hn). lia.
Qed.

(** *** The shapes of a turn *)

Lemma assign_Move W s s' : assign W s = Some s' -> Move s s'.
Proof.
  destruct s as [q bs fr sp rs fs]. unfold assign.
  cbn [queue busy free spawned results files].
  destruct q as [|e q]; [discriminate|].
  destruct (take_run (file e.1) (fixtureHash e.1) (e :: q)) as [run rest] eqn:Ht.
  destruct (pick_free (fixtureHash e.1) fr) as [[i fr']|] eqn:Hp.
  - intros [= <-]. destruct (pick_free_spec _ _ _ _ Hp) as (l1 & l2 & -> & ->).
    eapply move_reuse. exact Ht.
  - destruct (length bs + length fr <? W).
    + intros [= <-]. eapply move_spawn; [exact Ht|left; reflexivity].
    + destruct fr as [|x fr']; [discriminate|].
      intros [= <-]. eapply move_spawn; [exact Ht|right; eauto].
Qed.

Lemma testEnd_Move k s s' : testEnd k s = Some s' -> Move s s'.
Proof.
  destruct s as [q bs fr sp rs fs]. unfold testEnd.
  cbn [queue busy free spawned results files].
  destruct (pick k bs) as [[w others]|] eqn:Hp; [|discriminate].
  destruct (pick_spec _ _ _ _ Hp) as (b1 & b2 & -> & ->).
  destruct (w_run w) as [|[t a] rest] eqn:Hrun; [discriminate|].
  destruct (body t (w_index w) a fs) as [[st fs']|]; [|discriminate].
  destruct (is_failure st) eqn:Hst.
  - intros [= <-]. eapply move_fail; eauto.
  - destruct rest as [|e rest].
    + intros [= <-]. eapply move_done; eauto.
    + intros [= <-]. eapply move_next; eauto.
Qed.

Lemma retire_Move k s s' : retire k s = Some s' -> Move s s'.
Proof.
  destruct s as [q bs fr sp rs fs]. unfold retire.
  cbn [queue busy free spawned results files].
  destruct q; [|discriminate].
  destruct (pick k fr) as [[x others]|] eqn:Hp; [|discriminate].
  destruct (pick_spec _ _ _ _ Hp) as (l1 & l2 & -> & ->).
  intros [= <-]. apply move_retire.
Qed.

Lemma step_Move W s s' : step W s s' -> Move s s'.
Proof.
  intros [[|k|k] Ha]; cbn in Ha.
  - eapply assign_Move, Ha.
  - destruct (assign W s); [discriminate|]. eapply testEnd_Move, Ha.
  - destruct (assign W s); [discriminate|]. eapply retire_Move, Ha.
Qed.

(** A property kept by every turn holds in every reachable state. *)
Lemma reachable_ind W (P : State -> Prop) s s' :
  (forall s1 s2, P s1 -> Move s1 s2 -> P s2) ->
  P s -> rtc (step W) s s' -> P s'.
Proof.
  intros Hkeep H0 Hrtc. induction Hrtc as [s|s s1 s' Hst _ IH]; [exact H0|].
  apply IH. eapply Hkeep; [exact H0|]. eapply step_Move, Hst.
Qed.

(** *** Workers and hashes *)

Lemma WInv_intro s s' (fresh : list (nat * nat)) :
  WInv s ->
  spawned s <= spawned s' ->
  (forall p, p ∈ pool s' -> p ∈ pool s \/ p ∈ fresh) ->
  (forall p, p ∈ fresh -> p.1 = spawned s /\ spawned s < spawned s') ->
  (forall p q, p ∈ fresh -> q ∈ fresh -> p.2 = q.2) ->
  (forall w e, w ∈ busy s' -> e ∈ w_run w -> fixtureHash e.1 = w_hash w) ->
  (forall tr, tr ∈ results s' ->
     tr ∈ results s \/ (workerIndex tr.2, fixtureHash tr.1) ∈ pool s) ->
  WInv s'.
Proof.
  intros [Hb Hf Hr Hrb Hrp Hrr] Hsp Hpool Hfresh Hfresh2 Hruns Hres.
  split.
  - intros p Hp. destruct (Hpool p Hp) as [Ho|Hn].
    + specialize (Hb p Ho). lia.
    + destruct (Hfresh p Hn). lia.
  - intros p q Hp Hq Heq.
    destruct (Hpool p Hp) as [Hpo|Hpn]; destruct (Hpool q Hq) as [Hqo|Hqn].
    + apply Hf; assumption.
    + specialize (Hb p Hpo). destruct (Hfresh q Hqn). lia.
    + specialize (Hb q Hqo). destruct (Hfresh p Hpn). lia.
    + apply Hfresh2; assumption.
  - exact Hruns.
  - intros tr Htr. destruct (Hres tr Htr) as [Ho|Hn].
    + specialize (Hrb tr Ho). lia.
    + specialize (Hb _ Hn). cbn in Hb. lia.
  - intros tr p Htr Hp Heq.
    destruct (Hres tr Htr) as [Ho|Hn]; destruct (Hpool p Hp) as [Hpo|Hpn].
    + apply Hrp; assumption.
    + specialize (Hrb tr Ho). destruct (Hfresh p Hpn). lia.
    + apply (Hf _ p Hn Hpo). exact Heq.
    + specialize (Hb _ Hn). cbn in Hb. destruct (Hfresh p Hpn). lia.
  - intros tr1 tr2 H1 H2 Heq.
    destruct (Hres tr1 H1) as [Ho1|Hn1]; destruct (Hres tr2 H2) as [Ho2|Hn2].
    + apply Hrr; assumption.
    + apply (Hrp tr1 _ Ho1 Hn2). exact Heq.
    + symmetry. apply (Hrp tr2 _ Ho2 Hn1). symmetry. exact Heq.
    + apply (Hf _ _ Hn1 Hn2). exact Heq.
Qed.

Lemma in_run_hash f h e : in_run f h e = true -> fixtureHash e.1 = h.
Proof.
  unfold in_run. intros H. apply andb_true_iff in H as [_ H].
  apply Nat.eqb_eq, H.
Qed.

Lemma in_run_file f h e : in_run f h e = true -> file e.1 = f.
Proof.
  unfold in_run. intros H. apply andb_true_iff in H as [H _].
  apply String.eqb_eq, H.
Qed.

Lemma take_run_hash f h q run rest e :
  take_run f h q = (run, rest) -> e ∈ run -> fixtureHash e.1 = h.
Proof.
  intros Ht He. destruct (take_run_spec _ _ _ _ _ Ht) as [_ HF].
  rewrite Forall_forall in HF. eapply in_run_hash, HF, He.
Qed.

Ltac pool_solver :=
  unfold pool; cbn [busy free];
  rewrite ?fmap_app, ?fmap_cons; cbn [fmap list_fmap w_index w_hash];
  rewrite ?elem_of_app, ?elem_of_cons, ?elem_of_app, ?elem_of_nil;
  intuition (subst; auto).

Lemma WInv_Move s s' : WInv s -> Move s s' -> WInv s'.
Proof.
  intros HI HM. destruct HM.
  - apply (WInv_intro _ _ [] HI); cbn [spawned busy results]; auto.
    + intros p. pool_solver.
    + intros p Hp. apply elem_of_nil in Hp. contradiction.
    + intros p p' Hp. apply elem_of_nil in Hp. contradiction.
    + intros w e Hw He. apply elem_of_app in Hw as [Hw|Hw].
      * eapply (wi_runs _ HI); [exact Hw|exact He].
      * apply list_elem_of_singleton in Hw. subst w. cbn in *.
        eapply take_run_hash; eauto.
  - apply (WInv_intro _ _ [(sp, h)] HI); cbn [spawned busy results]; auto.
    + intros p. destruct H0 as [->|[x ->]]; pool_solver.
    + intros p Hp. apply list_elem_of_singleton in Hp. subst p. cbn. lia.
    + intros p p' Hp Hq. apply list_elem_of_singleton in Hp, Hq. congruence.
    + intros w e Hw He. apply elem_of_app in Hw as [Hw|Hw].
      * eapply (wi_runs _ HI); [exact Hw|exact He].
      * apply list_elem_of_singleton in Hw. subst w. cbn in *.
        eapply take_run_hash; eauto.
  - apply (WInv_intro _ _ [] HI); cbn [spawned busy results]; auto.
    + intros p. pool_solver.
    + intros p Hp. apply elem_of_nil in Hp. contradiction.
    + intros p p' Hp. apply elem_of_nil in Hp. contradiction.
    + intros w' e Hw He. eapply (wi_runs _ HI); [|exact He]. cbn.
      rewrite elem_of_app, elem_of_cons. rewrite elem_of_app in Hw. tauto.
    + intros tr Htr. apply elem_of_app in Htr as [Htr|Htr]; [left; exact Htr|right].
      apply list_elem_of_singleton in Htr. subst tr. cbn.
      assert (Hh : fixtureHash t = w_hash w).
      { apply (wi_runs _ HI w (t, a)); cbn.
        - rewrite elem_of_app, elem_of_cons. tauto.
        - rewrite H. apply elem_of_cons. left. reflexivity. }
      rewrite Hh. pool_solver.
  - apply (WInv_intro _ _ [] HI); cbn [spawned busy results]; auto.
    + intros p. pool_solver.
    + intros p Hp. apply elem_of_nil in Hp. contradiction.
    + intros p p' Hp. apply elem_of_nil in Hp. contradiction.
    + intros w' e Hw He. eapply (wi_runs _ HI); [|exact He]. cbn.
      rewrite elem_of_app, elem_of_cons. rewrite elem_of_app in Hw. tauto.
    + intros tr Htr. apply elem_of_app in Htr as [Htr|Htr]; [left; exact Htr|right].
      apply list_elem_of_singleton in Htr. subst tr. cbn.
      assert (Hh : fixtureHash t = w_hash w).
      { apply (wi_runs _ HI w (t, a)); cbn.
        - rewrite elem_of_app, elem_of_cons. tauto.
        - rewrite H. apply elem_of_cons. left. reflexivity. }
      rewrite Hh. pool_solver.
  - apply (WInv_intro _ _ [] HI); cbn [spawned busy results]; auto.
    + intros p. pool_solver.
    + intros p Hp. apply elem_of_nil in Hp. contradiction.
    + intros p p' Hp. apply elem_of_nil in Hp. contradiction.
    + intros w' e Hw He. apply elem_of_app in Hw as [Hw|Hw].
      * eapply (wi_runs _ HI); [|exact He]. cbn.
        rewrite elem_of_app, elem_of_cons. rewrite elem_of_app in Hw. tauto.
      * apply list_elem_of_singleton in Hw. subst w'. cbn in *.
        apply (wi_runs _ HI w e); cbn.
        -- rewrite elem_of_app, elem_of_cons. tauto.
        -- rewrite H. apply elem_of_cons. right. exact He.
    + intros tr Htr. apply elem_of_app in Htr as [Htr|Htr]; [left; exact Htr|right].
      apply list_elem_of_singleton in Htr. subst tr. cbn.
      assert (Hh : fixtureHash t = w_hash w).
      { apply (wi_runs _ HI w (t, a)); cbn.
        - rewrite elem_of_app, elem_of_cons. tauto.
        - rewrite H. apply elem_of_cons. left. reflexivity. }
      rewrite Hh. pool_solver.
  - apply (WInv_intro _ _ [] HI); cbn [spawned busy results]; auto.
    + intros p. pool_solver.
    + intros p Hp. apply elem_of_nil in Hp. contradiction.
    + intros p p' Hp. apply elem_of_nil in Hp. contradiction.
    + intros w e Hw He. eapply (wi_runs _ HI); eauto.
Qed.

Lemma WInv_start tests fs : WInv (start tests fs).
Proof.
  split; cbn; intros; repeat match goal with
  | H : _ ∈ [] |- _ => apply elem_of_nil in H; contradiction
  end.
Qed.

Lemma WInv_reachable W tests fs s :
  rtc (step W) (start tests fs) s -> WInv s.
Proof.
  apply (reachable_ind W WInv); [apply WInv_Move|apply WInv_start].
Qed.

(** *** Deciding a property of every run of a concrete input *)

Lemma verdict_sound W n s0 check :
  verdict W n s0 check = true ->
  (forall s, rtc (step W) s0 s -> successors W s = [] -> check s = true) /\
  (forall k s, nsteps (step W) k s0 s -> k < n).
Proof.
  unfold verdict. destruct (explore W n s0) as [ends|] eqn:Hex; [|discriminate].
  intros Hall. split.
  - intros s Hrtc Hend.
    pose proof (explore_complete W n s0 ends s Hex Hrtc Hend) as Hin.
    rewrite forallb_forall in Hall. apply Hall.
    apply list_elem_of_In, Hin.
  - intros k s Hn. eapply explore_bound; eauto.
Qed.

Lemma project_tests_verdict W fs :
  1 <= W ->
  verdict W 12 (start project_tests fs)
          (fun s => bool_decide (report s = ([0; 1; 2], 3, 0, 0))) = true.
Proof.
  intros HW. destruct W as [|[|[|W]]]; [lia| | |]; vm_compute; reflexivity.
Qed.

(** C3 (amended). Two tests share a worker only if their fixture hashes
    match: in every state the dispatcher can reach, two results with the
    same [workerIndex] belong to tests of the same [fixtureHash]. In
    particular, with three projects that give one spec three tests of
    three hashes, every run of the dispatcher (with one worker or more)
    ends, within 12 turns, with the worker indices 0, 1, 2, three tests
    passed and exit code 0. *)
Theorem same_worker_same_hash (W : nat) (tests : list Test) (fs : Files) (s : State) :
  rtc (step W) (start tests fs) s ->
  (forall tr1 tr2,
      tr1 ∈ results s -> tr2 ∈ results s ->
      workerIndex tr1.2 = workerIndex tr2.2 ->
      fixtureHash tr1.1 = fixtureHash tr2.1) /\
  (1 <= W -> tests = project_tests ->
     (successors W s = [] -> report s = ([0; 1; 2], 3, 0, 0)) /\
     (forall k s', nsteps (step W) k (start tests fs) s' -> k < 12)).
Proof.
  intros Hreach. split.
  - apply (wi_res s (WInv_reachable W tests fs s Hreach)).
  - intros HW ->.
    destruct (verdict_sound _ _ _ _ (project_tests_verdict W fs HW)) as [Hends Hbound].
    split; [|exact Hbound].
    intros Hend. specialize (Hends s Hreach Hend).
    apply bool_decide_eq_true in Hends. exact Hends.
Qed.

(** The three projects with two workers: one run, to its end. *)
Lemma same_worker_same_hash_witness :
  exists s,
    exec 2 [Assign; Assign; TestEnd 0; Assign; TestEnd 0; TestEnd 0; Retire 0; Retire 0]
         (start project_tests ∅) = Some s /\
    successors 2 s = [] /\
    report s = ([0; 1; 2], 3, 0, 0).
Proof.
  eexists. split; [vm_compute; reflexivity|]. split; [vm_compute; reflexivity|].
  refine (proj1 (proj2 (same_worker_same_hash 2 project_tests ∅ _ _) _ eq_refl) _).
  - apply (exec_rtc 2 [Assign; Assign; TestEnd 0; Assign; TestEnd 0; TestEnd 0;
                       Retire 0; Retire 0]).
    vm_compute. reflexivity.
  - lia.
  - vm_compute. reflexivity.
Defined.

(** C3, as stated, fails: after a failure the worker is discarded, so two
    tests of one hash run in two workers. *)
Lemma same_hash_two_workers :
  exists s tr1 tr2,
    exec 1 [Assign; TestEnd 0; Assign; TestEnd 0] (start failing_first ∅) = Some s /\
    tr1 ∈ results s /\ tr2 ∈ results s /\
    fixtureHash tr1.1 = fixtureHash tr2.1 /\
    workerIndex tr1.2 <> workerIndex tr2.2 /\
    ~ (workerIndex tr1.2 = workerIndex tr2.2 <-> fixtureHash tr1.1 = fixtureHash tr2.1).
Proof.
  eexists. eexists. eexists. split; [vm_compute; reflexivity|].
  split; [apply elem_of_cons; left; reflexivity|].
  split; [apply elem_of_cons; right; apply elem_of_cons; left; reflexivity|].
  cbn. split; [reflexivity|]. split; [discriminate|].
  intros [_ H]. specialize (H eq_refl). discriminate.
Qed.

(** *** Every first attempt is pending or has one result *)

Lemma retry_of_later t a : Forall (fun k => k.2 <> 0) (ekey <$> retry_of t a).
Proof.
  unfold retry_of. destruct (a <? retries t); cbn; repeat constructor.
  cbn. discriminate.
Qed.

Lemma keys_Move s s' :
  Move s s' ->
  exists extra, keys s' ≡ₚ keys s ++ extra /\ Forall (fun k => k.2 <> 0) extra.
Proof.
  intros HM. destruct HM; unfold keys, pending; cbn [queue busy results].
  - exists []. split; [|constructor].
    destruct (take_run_spec _ _ _ _ _ H) as [-> _].
    rewrite ?bind_app, ?bind_singleton. cbn [w_run].
    rewrite ?fmap_app. solve_Permutation.
  - exists []. split; [|constructor].
    destruct (take_run_spec _ _ _ _ _ H) as [-> _].
    rewrite ?bind_app, ?bind_singleton. cbn [w_run].
    rewrite ?fmap_app. solve_Permutation.
  - exists (ekey <$> retry_of t a). split; [|apply retry_of_later].
    rewrite ?bind_app, ?bind_cons, H.
    repeat rewrite ?fmap_app, ?fmap_cons. rewrite ?fmap_nil.
    change (rkey (t, mkTestResult a (w_index w) st)) with (ekey (t, a)).
    solve_Permutation.
  - exists []. split; [|constructor].
    rewrite ?bind_app, ?bind_cons, H.
    repeat rewrite ?fmap_app, ?fmap_cons. rewrite ?fmap_nil.
    change (rkey (t, mkTestResult a (w_index w) st)) with (ekey (t, a)).
    solve_Permutation.
  - exists []. split; [|constructor].
    rewrite ?bind_app, ?bind_cons, ?bind_singleton, H. cbn [w_run].
    repeat rewrite ?fmap_app, ?fmap_cons. rewrite ?fmap_nil.
    change (rkey (t, mkTestResult a (w_index w) st)) with (ekey (t, a)).
    solve_Permutation.
  - exists []. split; [|constructor]. rewrite app_nil_r. reflexivity.
Qed.

Lemma filter_later (l : list (nat * nat)) :
  Forall (fun k => k.2 <> 0) l -> filter (fun k => k.2 = 0) l = [].
Proof.
  induction 1 as [|k l Hk _ IH]; [reflexivity|].
  rewrite filter_cons_False by exact Hk. exact IH.
Qed.

Lemma first_keys_Move s s' : Move s s' -> NoDup (first_keys s) -> NoDup (first_keys s').
Proof.
  intros HM Hnd. destruct (keys_Move s s' HM) as (extra & Hperm & Hlater).
  unfold first_keys. rewrite Hperm, filter_app, (filter_later extra Hlater), app_nil_r.
  exact Hnd.
Qed.

Lemma first_keys_start tests fs :
  NoDup (testId <$> tests) -> NoDup (first_keys (start tests fs)).
Proof.
  intros Hnd. unfold first_keys. apply NoDup_filter.
  unfold keys, pending. cbn. rewrite !app_nil_r.
  rewrite <- list_fmap_compose.
  assert (Heq : (ekey ∘ (fun t => (t, 0))) <$> tests
                = (fun i => (i, 0)) <$> (testId <$> tests)).
  { rewrite <- list_fmap_compose. reflexivity. }
  rewrite Heq. apply NoDup_fmap_2; [|exact Hnd].
  intros i j [= ->]. reflexivity.
Qed.

Lemma first_keys_reachable W tests fs s :
  NoDup (testId <$> tests) ->
  rtc (step W) (start tests fs) s -> NoDup (first_keys s).
Proof.
  intros Hnd. apply (reachable_ind W (fun s => NoDup (first_keys s))).
  - intros s1 s2 H1 HM. eapply first_keys_Move; eauto.
  - apply first_keys_start, Hnd.
Qed.

(** A first attempt that is pending has no result. *)
Lemma pending_no_result s t r :
  NoDup (first_keys s) -> (t, 0) ∈ pending s -> (t, r) ∈ results s ->
  attempt r = 0 -> False.
Proof.
  unfold first_keys, keys. rewrite filter_app. intros Hnd Hp Hr Ha.
  apply NoDup_app in Hnd as (_ & Hdisj & _).
  apply (Hdisj (testId t, 0)).
  - apply list_elem_of_filter. split; [reflexivity|].
    apply list_elem_of_fmap. exists (t, 0). split; [reflexivity|exact Hp].
  - apply list_elem_of_filter. split; [reflexivity|].
    apply list_elem_of_fmap. exists (t, r). split; [|exact Hr].
    unfold rkey. cbn. rewrite Ha. reflexivity.
Qed.

Lemma NoDup_filter_fmap_elem {A B : Type} (f : A -> B) (P : B -> Prop)
    `{!forall b, Decision (P b)} (l : list A) x y :
  NoDup (filter P (f <$> l)) -> x ∈ l -> y ∈ l -> P (f x) -> f x = f y -> x = y.
Proof.
  induction l as [|z l IH]; intros Hnd Hx Hy HP Heq.
  - apply elem_of_nil in Hx. contradiction.
  - rewrite fmap_cons in Hnd.
    apply elem_of_cons in Hx as [->|Hx]; apply elem_of_cons in Hy as [->|Hy].
    + reflexivity.
    + rewrite filter_cons_True in Hnd by exact HP.
      apply NoDup_cons in Hnd as [Hnin _]. exfalso. apply Hnin.
      apply list_elem_of_filter. split; [exact HP|].
      apply list_elem_of_fmap. exists y. split; [exact Heq|exact Hy].
    + rewrite filter_cons_True in Hnd by (rewrite <- Heq; exact HP).
      apply NoDup_cons in Hnd as [Hnin _]. exfalso. apply Hnin.
      apply list_elem_of_filter. split; [rewrite <- Heq; exact HP|].
      apply list_elem_of_fmap. exists x. split; [symmetry; exact Heq|exact Hx].
    + apply IH; try assumption.
      destruct (decide (P (f z))) as [Hz|Hz].
      * rewrite filter_cons_True in Hnd by exact Hz.
        apply NoDup_cons in Hnd as [_ Hnd]. exact Hnd.
      * rewrite filter_cons_False in Hnd by exact Hz. exact Hnd.
Qed.

(** A first attempt has at most one result. *)
Lemma first_result_unique s t r r' :
  NoDup (first_keys s) -> (t, r) ∈ results s -> (t, r') ∈ results s ->
  attempt r = 0 -> attempt r' = 0 -> r = r'.
Proof.
  unfold first_keys, keys. rewrite filter_app. intros Hnd Hr Hr' Ha Ha'.
  apply NoDup_app in Hnd as (_ & _ & Hnd).
  assert (Heq : (t, r) = (t, r')); [|congruence].
  apply (NoDup_filter_fmap_elem rkey (fun k => k.2 = 0) (results s)); auto.
  unfold rkey. cbn. congruence.
Qed.

(** *** Neighbours in a hash-run *)

Lemma Move_results s s' tr : Move s s' -> tr ∈ results s -> tr ∈ results s'.
Proof.
  intros HM Htr. destruct HM; cbn [results] in *; try exact Htr;
    apply elem_of_app; left; exact Htr.
Qed.

(** What a turn does to the queue: it grows at its head, or loses its
    first hash-run to a worker. *)
Lemma Move_queue s s' :
  Move s s' ->
  (exists pre, queue s' = pre ++ queue s) \/
  (exists f h run i,
      take_run f h (queue s) = (run, queue s') /\ mkWorker i h run ∈ busy s').
Proof.
  intros HM. destruct HM; cbn [queue busy].
  - right. exists f, h, run, i. split; [exact H|].
    apply elem_of_app. right. apply list_elem_of_singleton. reflexivity.
  - right. exists f, h, run, sp. split; [exact H|].
    apply elem_of_app. right. apply list_elem_of_singleton. reflexivity.
  - left. exists (retry_of t a ++ rest). rewrite <- app_assoc. reflexivity.
  - left. exists []. reflexivity.
  - left. exists []. reflexivity.
  - left. exists []. reflexivity.
Qed.

(** What a turn does to a worker at work: nothing, or the test at the
    head of its run ends. *)
Lemma Move_busy s s' w :
  Move s s' -> w ∈ busy s ->
  w ∈ busy s' \/
  exists t a rest st,
    w_run w = (t, a) :: rest /\
    (t, mkTestResult a (w_index w) st) ∈ results s' /\
    ((is_failure st = true /\ exists pre, queue s' = pre ++ rest ++ queue s) \/
     (is_failure st = false /\
      (rest = [] \/ mkWorker (w_index w) (w_hash w) rest ∈ busy s'))).
Proof.
  intros HM Hw. destruct HM; cbn [queue busy results] in *.
  - left. apply elem_of_app. left. exact Hw.
  - left. apply elem_of_app. left. exact Hw.
  - apply elem_of_app in Hw as [Hw|Hw]; [left; apply elem_of_app; tauto|].
    apply elem_of_cons in Hw as [->|Hw]; [|left; apply elem_of_app; tauto].
    right. exists t, a, rest, st. split; [exact H|]. split.
    + apply elem_of_app. right. apply list_elem_of_singleton. reflexivity.
    + left. split; [exact H0|]. exists (retry_of t a). reflexivity.
  - apply elem_of_app in Hw as [Hw|Hw]; [left; apply elem_of_app; tauto|].
    apply elem_of_cons in Hw as [->|Hw]; [|left; apply elem_of_app; tauto].
    right. exists t, a, [], st. split; [exact H|]. split.
    + apply elem_of_app. right. apply list_elem_of_singleton. reflexivity.
    + right. split; [exact H0|]. left. reflexivity.
  - apply elem_of_app in Hw as [Hw|Hw];
      [left; apply elem_of_app; left; apply elem_of_app; tauto|].
    apply elem_of_cons in Hw as [->|Hw];
      [|left; apply elem_of_app; left; apply elem_of_app; tauto].
    right. exists t, a, rest, st. split; [exact H|]. split.
    + apply elem_of_app. right. apply list_elem_of_singleton. reflexivity.
    + right. split; [exact H0|]. right.
      apply elem_of_app. right. apply list_elem_of_singleton. reflexivity.
  - left. exact Hw.
Qed.

Lemma Pair_Move t1 t2 s s' :
  file t1 = file t2 -> fixtureHash t1 = fixtureHash t2 ->
  Pair t1 t2 s -> Move s s' -> Pair t1 t2 s'.
Proof.
  intros Hfile Hhash HP HM.
  destruct HP as [(a & b & Hq)|[(w & a & b & Hw & Hrun)|[(w & b & r1 & Hw & Hrun & Hr1 & Ha1 & Hi1)
                 |[(r1 & r2 & Hr1 & Hr2 & Ha1 & Ha2 & Hi)|(r1 & Hr1 & Ha1 & Hf1)]]]].
  - destruct (Move_queue s s' HM) as [(pre & Hq')|(f & h & run & i & Ht & Hnew)].
    + left. exists (pre ++ a), b. rewrite Hq', Hq, <- app_assoc. reflexivity.
    + assert (Hsame : in_run f h (t2, 0) = in_run f h (t1, 0)).
      { unfold in_run. cbn. rewrite Hfile, Hhash. reflexivity. }
      destruct (take_run_neighbours _ _ _ _ _ _ _ _ _ Ht Hq Hsame)
        as [(a' & b' & ->)|(a' & b' & Hrest)].
      * right. left. exists (mkWorker i h (a' ++ (t1, 0) :: (t2, 0) :: b')), a', b'.
        split; [exact Hnew|reflexivity].
      * left. exists a', b'. exact Hrest.
  - destruct (Move_busy s s' w HM Hw)
      as [Hw'|(t & a0 & rest & st & Hrun' & Hres & Hcase)].
    + right. left. exists w, a, b. split; assumption.
    + rewrite Hrun in Hrun'. destruct a as [|x a]; cbn in Hrun'.
      * injection Hrun' as Et Ea Erest. subst t a0 rest.
        destruct Hcase as [[Hf _]|[Hf [Hnil|Hw']]].
        -- right. right. right. right. eexists. split; [exact Hres|]. split; [reflexivity|exact Hf].
        -- discriminate.
        -- right. right. left. eexists _, b, _. split; [exact Hw'|].
           split; [reflexivity|]. split; [exact Hres|]. split; reflexivity.
      * injection Hrun' as Ex Erest. subst rest.
        destruct Hcase as [[Hf (pre & Hq')]|[Hf [Hnil|Hw']]].
        -- left. exists (pre ++ a), (b ++ queue s). rewrite Hq'.
           rewrite <- !app_assoc. reflexivity.
        -- destruct a; discriminate.
        -- right. left. eexists _, a, b. split; [exact Hw'|reflexivity].
  - destruct (Move_busy s s' w HM Hw)
      as [Hw'|(t & a0 & rest & st & Hrun' & Hres & Hcase)].
    + right. right. left. exists w, b, r1. repeat split; try assumption.
      eapply Move_results; eauto.
    + rewrite Hrun in Hrun'. injection Hrun' as Et Ea Erest. subst t a0 rest.
      right. right. right. left. exists r1, (mkTestResult 0 (w_index w) st).
      repeat split; try assumption. eapply Move_results; eauto.
  - right. right. right. left. exists r1, r2.
    repeat split; try assumption; eapply Move_results; eauto.
  - right. right. right. right. exists r1.
    repeat split; try assumption. eapply Move_results; eauto.
Qed.

Lemma Pair_start tests fs pre t1 t2 post :
  tests = pre ++ t1 :: t2 :: post -> Pair t1 t2 (start tests fs).
Proof.
  intros ->. left. cbn.
  exists ((fun t => (t, 0)) <$> pre), ((fun t => (t, 0)) <$> post).
  rewrite fmap_app. reflexivity.
Qed.

Lemma Pair_reachable W tests fs s pre t1 t2 post :
  tests = pre ++ t1 :: t2 :: post ->
  file t1 = file t2 -> fixtureHash t1 = fixtureHash t2 ->
  rtc (step W) (start tests fs) s -> Pair t1 t2 s.
Proof.
  intros Htests Hfile Hhash.
  apply (reachable_ind W (Pair t1 t2)).
  - intros s1 s2 H1 HM. eapply Pair_Move; eauto.
  - eapply Pair_start, Htests.
Qed.

(** Two neighbours in a hash-run: when the second has a first-attempt
    result, so has the first; and unless the first failed, both ran in
    one worker. *)
Lemma neighbours_same_worker W tests fs s pre t1 t2 post r2 :
  NoDup (testId <$> tests) ->
  tests = pre ++ t1 :: t2 :: post ->
  file t1 = file t2 -> fixtureHash t1 = fixtureHash t2 ->
  rtc (step W) (start tests fs) s ->
  (t2, r2) ∈ results s -> attempt r2 = 0 ->
  exists r1, (t1, r1) ∈ results s /\ attempt r1 = 0 /\
             (is_failure (status r1) = false -> workerIndex r1 = workerIndex r2).
Proof.
  intros Hnd Htests Hfile Hhash Hreach Hr2 Ha2.
  pose proof (first_keys_reachable W tests fs s Hnd Hreach) as Huniq.
  destruct (Pair_reachable W tests fs s pre t1 t2 post Htests Hfile Hhash Hreach)
    as [(a & b & Hq)|[(w & a & b & Hw & Hrun)|[(w & b & r1 & Hw & Hrun & Hr1 & Ha1 & Hi1)
       |[(r1 & r2' & Hr1 & Hr2' & Ha1 & Ha2' & Hi)|(r1 & Hr1 & Ha1 & Hf1)]]]].
  - exfalso. apply (pending_no_result s t2 r2 Huniq); [|exact Hr2|exact Ha2].
    unfold pending. apply elem_of_app. left. rewrite Hq.
    apply elem_of_app. right. apply elem_of_cons. right. apply elem_of_cons. left. reflexivity.
  - exfalso. apply (pending_no_result s t2 r2 Huniq); [|exact Hr2|exact Ha2].
    unfold pending. apply elem_of_app. right.
    apply list_elem_of_bind. exists w. split; [|exact Hw].
    rewrite Hrun.
    apply elem_of_app. right. apply elem_of_cons. right. apply elem_of_cons. left. reflexivity.
  - exfalso. apply (pending_no_result s t2 r2 Huniq); [|exact Hr2|exact Ha2].
    unfold pending. apply elem_of_app. right.
    apply list_elem_of_bind. exists w. split; [|exact Hw].
    rewrite Hrun. apply elem_of_cons. left. reflexivity.
  - exists r1. split; [exact Hr1|]. split; [exact Ha1|]. intros _.
    rewrite (first_result_unique s t2 r2 r2' Huniq Hr2 Hr2' Ha2 Ha2'). exact Hi.
  - exists r1. split; [exact Hr1|]. split; [exact Ha1|]. intros Hok. congruence.
Qed.

Lemma segment_same_worker W tests fs s t1 :
  NoDup (testId <$> tests) ->
  rtc (step W) (start tests fs) s ->
  forall mid pre t2 post r1 r2,
    tests = pre ++ t1 :: mid ++ t2 :: post ->
    (forall t, t ∈ mid ++ [t2] -> file t = file t1 /\ fixtureHash t = fixtureHash t1) ->
    (forall t r, t ∈ t1 :: mid -> (t, r) ∈ results s -> attempt r = 0 ->
                 is_failure (status r) = false) ->
    (t1, r1) ∈ results s -> attempt r1 = 0 ->
    (t2, r2) ∈ results s -> attempt r2 = 0 ->
    workerIndex r1 = workerIndex r2.
Proof.
  intros Hnd Hreach.
  pose proof (first_keys_reachable W tests fs s Hnd Hreach) as Huniq.
  induction mid as [|m mid IH] using rev_ind;
    intros pre t2 post r1 r2 Htests Hsame Hok Hr1 Ha1 Hr2 Ha2.
  - cbn in Htests.
    destruct (Hsame t2 ltac:(apply elem_of_cons; left; reflexivity)) as [Hf Hh].
    destruct (neighbours_same_worker W tests fs s pre t1 t2 post r2 Hnd Htests
                (eq_sym Hf) (eq_sym Hh) Hreach Hr2 Ha2) as (r1' & Hr1' & Ha1' & Hw).
    rewrite (first_result_unique s t1 r1 r1' Huniq Hr1 Hr1' Ha1 Ha1').
    apply Hw. apply (Hok t1 r1'); [apply elem_of_cons; left; reflexivity| |]; assumption.
  - assert (Htests' : tests = (pre ++ t1 :: mid) ++ m :: t2 :: post).
    { rewrite Htests. rewrite <- (app_assoc pre). cbn.
      rewrite <- (app_assoc mid). reflexivity. }
    destruct (Hsame t2) as [Hf2 Hh2].
    { apply elem_of_app. right. apply list_elem_of_singleton. reflexivity. }
    destruct (Hsame m) as [Hfm Hhm].
    { apply elem_of_app. left. apply elem_of_app. right.
      apply list_elem_of_singleton. reflexivity. }
    destruct (neighbours_same_worker W tests fs s (pre ++ t1 :: mid) m t2 post r2 Hnd
                Htests' ltac:(congruence) ltac:(congruence) Hreach Hr2 Ha2)
      as (rm & Hrm & Ham & Hw).
    assert (Hokm : is_failure (status rm) = false).
    { apply (Hok m rm); [|exact Hrm|exact Ham].
      apply elem_of_cons. right. apply elem_of_app. right.
      apply list_elem_of_singleton. reflexivity. }
    rewrite <- (Hw Hokm).
    apply (IH pre m (t2 :: post) r1 rm); try assumption.
    + rewrite Htests. rewrite <- (app_assoc mid). reflexivity.
    + intros t Ht. apply Hsame. apply elem_of_app. left. exact Ht.
    + intros t r Ht. apply Hok.
      apply elem_of_cons in Ht as [->|Ht]; [apply elem_of_cons; left; reflexivity|].
      apply elem_of_cons. right. apply elem_of_app. left. exact Ht.
Qed.

Lemma reuse_tests_verdict W fs :
  1 <= W ->
  verdict W 8 (start reuse_tests fs)
          (fun s => bool_decide (report s = ([0; 0; 0], 3, 0, 0))) = true.
Proof.
  intros HW. destruct W as [|W]; [lia|]. vm_compute. reflexivity.
Qed.

(** C4 (amended). For two tests T1 before T2 in declaration order, in one
    file and with one fixture hash, with only tests of that file and that
    hash between them: if T1 and the tests between them did not fail, the
    worker that ran T1 ran the first attempt of T2. In particular one
    file with three tests that each expect [workerIndex] 0 ends, in every
    run of the dispatcher (with one worker or more), within 8 turns, with
    the three tests run by worker 0, three tests passed and exit code
    0. *)
Theorem same_run_same_worker (W : nat) (tests : list Test) (fs : Files) (s : State) :
  rtc (step W) (start tests fs) s ->
  (NoDup (testId <$> tests) ->
   forall pre t1 mid t2 post r1 r2,
     tests = pre ++ t1 :: mid ++ t2 :: post ->
     (forall t, t ∈ mid ++ [t2] -> file t = file t1 /\ fixtureHash t = fixtureHash t1) ->
     (forall t r, t ∈ t1 :: mid -> (t, r) ∈ results s -> attempt r = 0 ->
                  is_failure (status r) = false) ->
     (t1, r1) ∈ results s -> attempt r1 = 0 ->
     (t2, r2) ∈ results s -> attempt r2 = 0 ->
     workerIndex r1 = workerIndex r2) /\
  (1 <= W -> tests = reuse_tests ->
     (successors W s = [] -> report s = ([0; 0; 0], 3, 0, 0)) /\
     (forall k s', nsteps (step W) k (start tests fs) s' -> k < 8)).
Proof.
  intros Hreach. split.
  - intros Hnd pre t1 mid t2 post r1 r2.
    apply (segment_same_worker W tests fs s t1 Hnd Hreach mid pre t2 post r1 r2).
  - intros HW ->.
    destruct (verdict_sound _ _ _ _ (reuse_tests_verdict W fs HW)) as [Hends Hbound].
    split; [|exact Hbound].
    intros Hend. specialize (Hends s Hreach Hend).
    apply bool_decide_eq_true in Hends. exact Hends.
Qed.

(** The three tests of [a.test.js] with two workers: the run, to its end. *)
Lemma same_run_same_worker_witness :
  exists s,
    exec 2 [Assign; TestEnd 0; TestEnd 0; TestEnd 0; Retire 0]
         (start reuse_tests ∅) = Some s /\
    successors 2 s = [] /\
    report s = ([0; 0; 0], 3, 0, 0).
Proof.
  eexists. split; [vm_compute; reflexivity|]. split; [vm_compute; reflexivity|].
  refine (proj1 (proj2 (same_run_same_worker 2 reuse_tests ∅ _ _) _ eq_refl) _).
  - apply (exec_rtc 2 [Assign; TestEnd 0; TestEnd 0; TestEnd 0; Retire 0]).
    vm_compute. reflexivity.
  - lia.
  - vm_compute. reflexivity.
Defined.

(** C4, as stated, fails: two files of one hash run in two workers,
    though no test fails. *)
Lemma same_hash_other_file :
  exists s t1 r1 t2 r2,
    exec 2 [Assign; Assign; TestEnd 0; TestEnd 0] (start two_files ∅) = Some s /\
    two_files = [t1; t2] /\ fixtureHash t1 = fixtureHash t2 /\
    results s = [(t1, r1); (t2, r2)] /\
    is_failure (status r1) = false /\ is_failure (status r2) = false /\
    workerIndex r1 <> workerIndex r2.
Proof.
  do 5 eexists. split; [vm_compute; reflexivity|].
  split; [reflexivity|]. split; [reflexivity|]. split; [reflexivity|].
  cbn. split; [reflexivity|]. split; [reflexivity|]. discriminate.
Qed.

(** In every run of the two files with two workers, the two tests run in
    workers 0 and 1. *)
Example two_files_two_workers :
  verdict 2 8 (start two_files ∅)
          (fun s => bool_decide (sort_indices (worker_indices s) = [0; 1])) = true.
Proof. vm_compute. reflexivity. Qed.

(** *** The states a run is in after a given number of turns *)

Lemma nsteps_after W n : forall s s', nsteps (step W) n s s' -> s' ∈ after W n s.
Proof.
  induction n as [|n IH]; intros s s' Hn.
  - inversion Hn; subst. apply list_elem_of_singleton. reflexivity.
  - inversion Hn as [|k x y z Hst Hrest]; subst. cbn.
    apply list_elem_of_bind. exists y. split; [apply IH, Hrest|].
    apply step_successors, Hst.
Qed.

(** C7. Two spec files of one test each, with two workers: the first
    test expects [workerIndex] 0 and waits for the sentinel file, the
    second writes the file and expects [workerIndex] 1. After the first
    two turns of the dispatcher both tests are in flight, the first in
    worker 0 and the second in worker 1; every run ends, within 8 turns,
    with the worker indices 0 and 1, two tests passed and exit code 0. *)
Theorem parallel_files_two_workers (s : State) :
  rtc (step 2) (start parallel_tests ∅) s ->
  (successors 2 s = [] -> report s = ([0; 1], 2, 0, 0)) /\
  (forall k s', nsteps (step 2) k (start parallel_tests ∅) s' -> k < 8) /\
  (forall s', nsteps (step 2) 2 (start parallel_tests ∅) s' ->
              in_flight s' = [(0, 0); (1, 1)]).
Proof.
  intros Hreach.
  assert (Hv : verdict 2 8 (start parallel_tests ∅)
                 (fun s => bool_decide (report s = ([0; 1], 2, 0, 0))) = true)
    by (vm_compute; reflexivity).
  destruct (verdict_sound _ _ _ _ Hv) as [Hends Hbound].
  split; [|split].
  - intros Hend. specialize (Hends s Hreach Hend).
    apply bool_decide_eq_true in Hends. exact Hends.
  - exact Hbound.
  - intros s' Hn. apply nsteps_after in Hn.
    assert (Hall : forallb (fun s' => bool_decide (in_flight s' = [(0, 0); (1, 1)]))
                           (after 2 2 (start parallel_tests ∅)) = true)
      by (vm_compute; reflexivity).
    rewrite forallb_forall in Hall.
    apply list_elem_of_In in Hn. specialize (Hall s' Hn).
    apply bool_decide_eq_true in Hall. exact Hall.
Qed.

Lemma parallel_files_two_workers_witness :
  let acts := [Assign; Assign; TestEnd 1; TestEnd 0; Retire 0; Retire 0] in
  let s := default (start [] ∅) (exec 2 acts (start parallel_tests ∅)) in
  successors 2 s = [] /\ report s = ([0; 1], 2, 0, 0).
Proof.
  intros acts s.
  assert (Hend : successors 2 s = []) by (vm_compute; reflexivity).
  split; [exact Hend|].
  refine (proj1 (parallel_files_two_workers s _) Hend).
  apply exec_reaches. vm_compute. reflexivity.
Defined.

(** The first test cannot end before the second has written the file. *)
Example parallel_first_waits :
  exec 2 [Assign; Assign; TestEnd 0] (start parallel_tests ∅) = None.
Proof. vm_compute. reflexivity. Qed.

(** With one worker the first test would wait for ever: the second test
    is never given a worker. *)
Example parallel_needs_two_workers :
  option_map (fun s => (successors 1 s, in_flight s, length (queue s)))
             (exec 1 [Assign] (start parallel_tests ∅))
  = Some ([], [(0, 0)], 1).
Proof. vm_compute. reflexivity. Qed.

End DispatcherFacts.

(** * Further properties *)

Module DeadlineMore.
Import Clock ClockFacts Deadline DeadlineFacts.

Section Facts.
Context {T E : Type}.
Implicit Types (w : World T E) (ev : Event T E) (tr : list (Event T E)).

Lemma nextTimer_finish s e w : nextTimer (_finish s e w) = nextTimer w.
Proof.
  unfold _finish. destruct (_done w); [reflexivity|].
  destruct (cancelTimer_frame w) as (_ & _ & _ & Hn).
  destruct s as [o|].
  - destruct (_fulfill_frame o (cancelTimer w)) as (_ & _ & _ & _ & _ & ->). exact Hn.
  - destruct (_reject_frame e (cancelTimer w)) as (_ & _ & _ & _ & _ & ->). exact Hn.
Qed.

(** X1. At any point of a runner's life at most one timeout is pending,
    and it is the one [_timer] holds. *)
Theorem at_most_one_timeout (hr : hrtime_t) (d : option Z) tr w :
  hrtime_ok hr ->
  run (new_DeadlineRunner hr d) tr = Some w ->
  forall h1 t1 h2 t2,
    timers w !! h1 = Some t1 -> timers w !! h2 = Some t2 ->
    h1 = h2 /\ _timer w = Some h1.
Proof.
  intros Hok Hrun h1 t1 h2 t2 H1 H2.
  pose proof (Inv_run _ _ _ (Inv_new hr d Hok) Hrun) as HI.
  pose proof (inv_timers w HI h1 t1 H1) as E1.
  pose proof (inv_timers w HI h2 t2 H2) as E2.
  split; [congruence|exact E1].
Qed.

(** X2. Whenever the runner's timeout fires or the inner promise
    settles, no timeout is pending afterwards and [_timer] is
    [undefined]: a runner that has reported leaves nothing behind in the
    timer table. *)
Theorem reporting_leaves_no_timeout (hr : hrtime_t) (d : option Z) tr w ev w' :
  hrtime_ok hr ->
  run (new_DeadlineRunner hr d) tr = Some w ->
  is_fire ev = true \/ is_settlement ev = true ->
  step w ev = Some w' ->
  timers w' = ∅ /\ _timer w' = None /\ result w' <> Pending.
Proof.
  intros Hok Hrun Hev Hst.
  pose proof (Inv_run _ _ _ (Inv_new hr d Hok) Hrun) as HI.
  destruct ev as [hr'|h|v|e|d']; cbn in Hev, Hst;
    try (destruct Hev; discriminate).
  - destruct (timers w !! h) as [t|] eqn:Hh; [|discriminate].
    destruct (_ <=? _); [|discriminate]. injection Hst as <-.
    assert (Hd : _done (clearTimeout h w) = false) by (cbn; apply HI).
    assert (Ht : forall k t', timers (clearTimeout h w) !! k = Some t' ->
                              _timer (clearTimeout h w) = Some k).
    { intros k t'. cbn. destruct (decide (h = k)) as [->|Hne].
      - rewrite lookup_delete_eq. discriminate.
      - rewrite lookup_delete_ne by exact Hne. apply HI. }
    destruct (_finish_frame (Some timed_out) None _ Hd Ht) as (_ & _ & _ & H4 & H5).
    split; [exact H4|]. split; [exact H5|]. apply result_finish_not_pending, Hd.
  - destruct (settled w); [discriminate|]. injection Hst as <-.
    assert (Hd : _done (set_settled true w) = false) by (cbn; apply HI).
    assert (Ht : forall k t', timers (set_settled true w) !! k = Some t' ->
                              _timer (set_settled true w) = Some k) by (cbn; apply HI).
    destruct (_finish_frame (Some (with_result v)) None _ Hd Ht) as (_ & _ & _ & H4 & H5).
    split; [exact H4|]. split; [exact H5|]. apply result_finish_not_pending, Hd.
  - destruct (settled w); [discriminate|]. injection Hst as <-.
    assert (Hd : _done (set_settled true w) = false) by (cbn; apply HI).
    assert (Ht : forall k t', timers (set_settled true w) !! k = Some t' ->
                              _timer (set_settled true w) = Some k) by (cbn; apply HI).
    destruct (_finish_frame None e _ Hd Ht) as (_ & _ & _ & H4 & H5).
    split; [exact H4|]. split; [exact H5|]. apply result_finish_not_pending, Hd.
Qed.

(** X3. The field [_done] is never written: it is [false] in every state
    of a runner, so the early return of [_finish] is never taken, and
    [_finish] always cancels the timer and calls a resolving function. *)
Theorem _done_stays_false (hr : hrtime_t) (d : option Z) tr w :
  hrtime_ok hr ->
  run (new_DeadlineRunner hr d) tr = Some w ->
  _done w = false /\
  forall s e,
    _finish s e w =
    match s with
    | Some o => _fulfill o (cancelTimer w)
    | None => _reject e (cancelTimer w)
    end.
Proof.
  intros Hok Hrun.
  pose proof (Inv_run _ _ _ (Inv_new hr d Hok) Hrun) as HI.
  split; [apply HI|]. intros s e. apply _finish_unfold, HI.
Qed.

Lemma Armed_setDeadline d w :
  Inv w -> result w = Pending -> now w < d ->
  Armed (now w) d (setDeadline (Some d) w).
Proof.
  intros HI Hp Hlt. unfold setDeadline.
  pose proof (timers_cancelTimer w (inv_timers w HI)) as Hempty.
  destruct (cancelTimer_frame w) as (Hc1 & Hc2 & _).
  rewrite Hc1. unfold now in Hlt.
  destruct (Z.leb_spec (d - monotonicTime (hrtime w)) 0); [lia|].
  split; cbn.
  - intros h t. rewrite Hempty.
    destruct (decide (nextTimer (cancelTimer w) = h)) as [<-|Hne].
    + rewrite lookup_insert_eq. intros [= <-]. cbn. rewrite Hc1. unfold now. lia.
    + rewrite lookup_insert_ne by exact Hne. rewrite lookup_empty. discriminate.
  - intros _. left. split; [rewrite result_cancelTimer; exact Hp|].
    eexists _, _. apply lookup_insert_eq.
Qed.

(** X4. Moving the deadline works: after [setDeadline(d)] on a runner
    whose result is pending, with [d] ahead of the clock by at most
    [TIMEOUT_MAX] milliseconds, the result stays pending for as long as
    the clock reads less than [d] and the inner promise has not settled,
    whatever the deadline was before. *)
Theorem moved_deadline_holds (hr : hrtime_t) (d0 : option Z) tr w (d : Z) tr' w' :
  hrtime_ok hr ->
  run (new_DeadlineRunner hr d0) tr = Some w ->
  result w = Pending -> now w < d -> d - now w <= TIMEOUT_MAX ->
  closed tr' -> run (setDeadline (Some d) w) tr' = Some w' ->
  settled w' = false -> now w' < d ->
  result w' = Pending.
Proof.
  intros Hok Hrun Hp Hlt Hfit Hcl Hrun' Hs Hlt'.
  pose proof (Inv_run _ _ _ (Inv_new hr d0 Hok) Hrun) as HI.
  pose proof (Armed_run _ d tr' _ _ (Inv_setDeadline (Some d) w HI)
                (Armed_setDeadline d w HI Hp Hlt) Hcl Hrun') as HA.
  destruct (armed_running _ d w' HA Hs) as [[Hp' _]|[_ Hle]]; [exact Hp'|].
  specialize (Hle Hfit). lia.
Qed.

Lemma gone_setDeadline h d w : Inv w -> (h < nextTimer w)%nat -> gone h (setDeadline d w).
Proof.
  intros HI Hlt. unfold setDeadline, gone.
  pose proof (timers_cancelTimer w (inv_timers w HI)) as Hempty.
  pose proof (Inv_cancelTimer w HI) as HIc.
  destruct (cancelTimer_frame w) as (_ & _ & _ & Hn).
  destruct d as [d|].
  - destruct (_ <=? 0).
    + destruct (_finish_frame (Some timed_out) None (cancelTimer w)
                  (inv_done _ HIc) (inv_timers _ HIc)) as (_ & _ & _ & -> & _).
      rewrite nextTimer_finish, Hn. split; [apply lookup_empty|exact Hlt].
    + cbn. rewrite Hempty, Hn. split; [|lia].
      rewrite lookup_insert_ne by lia. apply lookup_empty.
  - rewrite Hempty, Hn. split; [apply lookup_empty|exact Hlt].
Qed.

Lemma gone_step h w ev w' : Inv w -> gone h w -> step w ev = Some w' -> gone h w'.
Proof.
  intros HI [Hh Hlt]. destruct ev as [hr|k|v|e|d]; cbn.
  - destruct (_ && _); [|discriminate]. intros [= <-]. split; assumption.
  - destruct (timers w !! k) as [t|] eqn:Hk; [|discriminate].
    destruct (_ <=? _); [|discriminate]. intros [= <-].
    assert (Hd : _done (clearTimeout k w) = false) by (cbn; apply HI).
    assert (Ht : forall j t', timers (clearTimeout k w) !! j = Some t' ->
                              _timer (clearTimeout k w) = Some j).
    { intros j t'. cbn. destruct (decide (k = j)) as [->|Hne].
      - rewrite lookup_delete_eq. discriminate.
      - rewrite lookup_delete_ne by exact Hne. apply HI. }
    destruct (_finish_frame (Some timed_out) None _ Hd Ht) as (_ & _ & _ & H4 & _).
    split; [rewrite H4; apply lookup_empty|rewrite nextTimer_finish; exact Hlt].
  - destruct (settled w); [discriminate|]. intros [= <-].
    assert (Hd : _done (set_settled true w) = false) by (cbn; apply HI).
    assert (Ht : forall j t', timers (set_settled true w) !! j = Some t' ->
                              _timer (set_settled true w) = Some j) by (cbn; apply HI).
    destruct (_finish_frame (Some (with_result v)) None _ Hd Ht) as (_ & _ & _ & H4 & _).
    split; [rewrite H4; apply lookup_empty|rewrite nextTimer_finish; exact Hlt].
  - destruct (settled w); [discriminate|]. intros [= <-].
    assert (Hd : _done (set_settled true w) = false) by (cbn; apply HI).
    assert (Ht : forall j t', timers (set_settled true w) !! j = Some t' ->
                              _timer (set_settled true w) = Some j) by (cbn; apply HI).
    destruct (_finish_frame None e _ Hd Ht) as (_ & _ & _ & H4 & _).
    split; [rewrite H4; apply lookup_empty|rewrite nextTimer_finish; exact Hlt].
  - intros [= <-]. apply gone_setDeadline; assumption.
Qed.

Lemma gone_run h tr : forall w w', Inv w -> gone h w -> run w tr = Some w' -> gone h w'.
Proof.
  induction tr as [|ev tr IH]; intros w w' HI Hg; cbn.
  - intros [= <-]. exact Hg.
  - destruct (step w ev) as [w1|] eqn:Hst; [|discriminate].
    apply IH; [eapply Inv_step; eauto|eapply gone_step; eauto].
Qed.

(** X5. A timeout cancelled by [setDeadline] never fires: whatever
    happens afterwards, its handle is not pending again and the event
    loop cannot run its callback. *)
Theorem cancelled_timeout_never_fires (hr : hrtime_t) (d0 : option Z) tr w h d tr' w' :
  hrtime_ok hr ->
  run (new_DeadlineRunner hr d0) tr = Some w ->
  _timer w = Some h ->
  run (setDeadline d w) tr' = Some w' ->
  timers w' !! h = None /\ step w' (TimerFires h) = None.
Proof.
  intros Hok Hrun Hh Hrun'.
  pose proof (Inv_run _ _ _ (Inv_new hr d0 Hok) Hrun) as HI.
  destruct (gone_run h tr' _ _ (Inv_setDeadline d w HI)
              (gone_setDeadline h d w HI (inv_fresh w HI h Hh)) Hrun') as [Hg _].
  split; [exact Hg|]. cbn. rewrite Hg. reflexivity.
Qed.


End Facts.

Lemma at_most_one_timeout_witness :
  exists w : World nat nat,
    run (new_DeadlineRunner (0, 0) (Some 5)) [CallSetDeadline (Some 9)] = Some w /\
    _timer w = Some 1%nat.
Proof.
  eexists. split; [reflexivity|].
  exact (proj2 (at_most_one_timeout (T := nat) (E := nat) (0, 0) (Some 5)
                  [CallSetDeadline (Some 9)] _
                  ltac:(unfold hrtime_ok; cbn; lia) eq_refl
                  1%nat (mkTimer 0 9) 1%nat (mkTimer 0 9) eq_refl eq_refl)).
Defined.

Lemma reporting_leaves_no_timeout_witness :
  exists w w' : World nat nat,
    run (new_DeadlineRunner (0, 0) (Some 5)) [Advance (0, 6000000)] = Some w /\
    step w (TimerFires 0%nat) = Some w' /\
    timers w' = ∅.
Proof.
  eexists. eexists. split; [reflexivity|]. split; [reflexivity|].
  exact (proj1 (reporting_leaves_no_timeout (T := nat) (E := nat) (0, 0) (Some 5)
                  [Advance (0, 6000000)] _ (TimerFires 0%nat) _
                  ltac:(unfold hrtime_ok; cbn; lia) eq_refl
                  (or_introl eq_refl) eq_refl)).
Defined.

Lemma _done_stays_false_witness :
  exists w : World nat nat,
    run (new_DeadlineRunner (0, 0) (Some 5))
        [Advance (0, 6000000); TimerFires 0%nat; InnerFulfils 7%nat] = Some w /\
    _done w = false.
Proof.
  eexists. split; [reflexivity|].
  exact (proj1 (_done_stays_false (T := nat) (E := nat) (0, 0) (Some 5)
                  [Advance (0, 6000000); TimerFires 0%nat; InnerFulfils 7%nat] _
                  ltac:(unfold hrtime_ok; cbn; lia) eq_refl)).
Defined.

(** A deadline at 5 ms moved to 50 ms at once: at 20 ms the result is
    still pending. *)
Lemma moved_deadline_holds_witness :
  exists w' : World nat nat,
    run (setDeadline (Some 50) (new_DeadlineRunner (0, 0) (Some 5)))
        [Advance (0, 20000000)] = Some w' /\
    result w' = Pending.
Proof.
  eexists. split; [reflexivity|].
  refine (moved_deadline_holds (T := nat) (E := nat) (0, 0) (Some 5) [] _ 50
            [Advance (0, 20000000)] _ _ eq_refl _ _ _ _ eq_refl _ _).
  - unfold hrtime_ok. cbn. lia.
  - reflexivity.
  - vm_compute. reflexivity.
  - vm_compute. discriminate.
  - reflexivity.
  - reflexivity.
  - vm_compute. reflexivity.
Defined.

Lemma cancelled_timeout_never_fires_witness :
  exists w' : World nat nat,
    run (setDeadline (Some 50) (new_DeadlineRunner (0, 0) (Some 5)))
        [Advance (0, 6000000)] = Some w' /\
    step w' (TimerFires 0%nat) = None.
Proof.
  eexists. split; [reflexivity|].
  exact (proj2 (cancelled_timeout_never_fires (T := nat) (E := nat) (0, 0) (Some 5) [] _
                  0%nat (Some 50) [Advance (0, 6000000)] _
                  ltac:(unfold hrtime_ok; cbn; lia) eq_refl eq_refl eq_refl)).
Defined.


End DeadlineMore.

Module MatcherMore.
Import Matcher MatcherFacts.

Local Open Scope string_scope.

Section Facts.

Context {RegExpSource : Type}.
Variable regex_match : RegExpSource -> bool -> string -> nat -> option nat.
Variable minimatch : string -> string -> bool.

Abbreviation test := (test regex_match).
Abbreviation test_reList := (test_reList regex_match).
Abbreviation matcher := (matcher regex_match minimatch).
Abbreviation createMatcher := (createMatcher regex_match minimatch).
Abbreviation matches := (matches regex_match).

Lemma fold_push_lists (ps : list (Pattern RegExpSource)) : forall acc,
  fold_left push_pattern ps acc
  = mkLists (reList acc ++ regexps ps) (filePatterns acc ++ globs ps).
Proof.
  induction ps as [|p ps IH]; intros acc; cbn [fold_left].
  - unfold regexps, globs. cbn. rewrite !app_nil_r. destruct acc; reflexivity.
  - rewrite IH. destruct p as [re|s]; cbn.
    + rewrite <- !app_assoc. reflexivity.
    + destruct (negb (includes s slash) && negb (includes s backslash)); cbn;
        rewrite <- !app_assoc; reflexivity.
Qed.

Lemma createMatcher_answer (patterns : Patterns RegExpSource) value st :
  fst (createMatcher patterns value st) =
  existsb (fun re => matches re value) (regexps (to_array patterns))
  || existsb (fun p => minimatch value p) (globs (to_array patterns)).
Proof.
  unfold Matcher.createMatcher.
  rewrite (matcher_answer regex_match minimatch), fold_push_lists. reflexivity.
Qed.

Lemma existsb_Permutation {A : Type} (f : A -> bool) (l k : list A) :
  l ≡ₚ k -> existsb f l = existsb f k.
Proof.
  induction 1 as [|x l k _ IH|x y l|l k m _ IH1 _ IH2]; cbn.
  - reflexivity.
  - rewrite IH. reflexivity.
  - destruct (f x), (f y); reflexivity.
  - congruence.
Qed.

(** X7. Patterns add up: the matcher of two arrays of patterns put
    together accepts a value exactly when the matcher of one of them
    does, whatever the [lastIndex] of the expressions; the matcher of the
    empty array accepts nothing, and a single pattern is the same as the
    array of that pattern. *)
Theorem createMatcher_union (ps qs : list (Pattern RegExpSource))
    (value : string) (st st1 st2 : Store) :
  fst (createMatcher (Many (ps ++ qs)) value st)
    = fst (createMatcher (Many ps) value st1) || fst (createMatcher (Many qs) value st2) /\
  createMatcher (Many []) value st = (false, st) /\
  (forall p, createMatcher (Single p) = createMatcher (Many [p])).
Proof.
  split; [|split; [reflexivity|reflexivity]].
  rewrite !createMatcher_answer. cbn [to_array].
  unfold regexps, globs. rewrite !flat_map_app, !existsb_app.
  repeat match goal with |- context [existsb ?f ?l] =>
    let b := fresh "b" in generalize (existsb f l); intro b end.
  destruct b, b0, b1, b2; reflexivity.
Qed.

(** X8. The order of the patterns does not matter: two arrays with the
    same patterns in another order give matchers that accept the same
    values. *)
Theorem createMatcher_order (ps qs : list (Pattern RegExpSource))
    (value : string) (st st' : Store) :
  ps ≡ₚ qs ->
  fst (createMatcher (Many ps) value st) = fst (createMatcher (Many qs) value st').
Proof.
  intros Hperm. rewrite !createMatcher_answer. cbn [to_array].
  unfold regexps, globs.
  f_equal; apply existsb_Permutation, Permutation_flat_map, Hperm.
Qed.

Lemma test_frame re value st r :
  r <> re_ref re -> snd (test re value st) !! r = st !! r.
Proof.
  intros Hne. unfold Matcher.test, set_lastIndex.
  destruct (re_global re || re_sticky re); [|reflexivity].
  destruct (_ <? _)%nat; cbn; [apply lookup_insert_ne; congruence|].
  destruct (regex_match _ _ _ _); cbn; apply lookup_insert_ne; congruence.
Qed.

Lemma test_reList_frame res value : forall st r,
  r ∉ (re_ref <$> res) -> snd (test_reList res value st) !! r = st !! r.
Proof.
  induction res as [|re rest IH]; intros st r Hr; cbn; [reflexivity|].
  rewrite fmap_cons in Hr. apply not_elem_of_cons in Hr as [Hne Hr].
  pose proof (test_frame re value (set_lastIndex re 0 st) r Hne) as Hf.
  destruct (test re value (set_lastIndex re 0 st)) as [b st1]. cbn in Hf.
  assert (H1 : st1 !! r = st !! r).
  { rewrite Hf. unfold set_lastIndex. apply lookup_insert_ne. congruence. }
  destruct b; cbn; [exact H1|]. rewrite IH by exact Hr. exact H1.
Qed.

Lemma test_false_zero re value st :
  fst (test re value (set_lastIndex re 0 st)) = false ->
  snd (test re value (set_lastIndex re 0 st)) !! re_ref re = Some 0%nat.
Proof.
  unfold Matcher.test, lastIndex, set_lastIndex. rewrite lookup_insert_eq. cbn [default].
  destruct (re_global re || re_sticky re); cbn; [|intros _; apply lookup_insert_eq].
  destruct (regex_match _ _ _ _); cbn; [discriminate|].
  intros _. apply lookup_insert_eq.
Qed.

Lemma test_reList_false_zero res value : forall st r,
  fst (test_reList res value st) = false ->
  r ∈ (re_ref <$> res) -> snd (test_reList res value st) !! r = Some 0%nat.
Proof.
  induction res as [|re rest IH]; intros st r Hb Hr; cbn in *.
  - apply elem_of_nil in Hr. contradiction.
  - pose proof (test_false_zero re value st) as Hz.
    destruct (test re value (set_lastIndex re 0 st)) as [b st1] eqn:Ht. cbn in Hz.
    destruct b; cbn in Hb; [discriminate|]. specialize (Hz eq_refl).
    destruct (decide (r ∈ (re_ref <$> rest))) as [Hin|Hnin].
    + apply IH; assumption.
    + rewrite test_reList_frame by exact Hnin.
      apply elem_of_cons in Hr as [->|Hr]; [exact Hz|contradiction].
Qed.

(** X9. What a call does to the expressions it was given: the
    [lastIndex] of an expression that is not among the patterns is left
    alone; and when the call answers [false], every expression among the
    patterns is left with [lastIndex] 0. *)
Theorem createMatcher_lastIndex (patterns : Patterns RegExpSource)
    (value : string) (st : Store) :
  (forall r, r ∉ (re_ref <$> regexps (to_array patterns)) ->
             snd (createMatcher patterns value st) !! r = st !! r) /\
  (fst (createMatcher patterns value st) = false ->
   forall re, re ∈ regexps (to_array patterns) ->
              lastIndex (snd (createMatcher patterns value st)) re = 0%nat).
Proof.
  unfold Matcher.createMatcher, Matcher.matcher. rewrite fold_push_lists. cbn [reList filePatterns app].
  split.
  - intros r Hr.
    pose proof (test_reList_frame (regexps (to_array patterns)) value st r Hr) as Hf.
    destruct (test_reList (regexps (to_array patterns)) value st) as [b st1].
    destruct b; exact Hf.
  - intros Hb re Hre.
    pose proof (test_reList_false_zero (regexps (to_array patterns)) value st (re_ref re)) as Hz.
    destruct (test_reList (regexps (to_array patterns)) value st) as [b st1].
    destruct b; [discriminate|]. cbn in *.
    unfold lastIndex. rewrite Hz; [reflexivity|reflexivity|].
    apply list_elem_of_fmap. exists re. split; [reflexivity|exact Hre].
Qed.

End Facts.

Lemma createMatcher_order_witness :
  let re := mkRegExp 0 "spec" true false in
  fst (createMatcher literal_match String.eqb (Many [PString "a/b"; PRegExp re]) "x.spec.ts" ∅)
  = fst (createMatcher literal_match String.eqb (Many [PRegExp re; PString "a/b"]) "x.spec.ts"
           {[ 0%nat := 3%nat ]}).
Proof.
  intros re.
  apply (createMatcher_order literal_match String.eqb
           [PString "a/b"; PRegExp re] [PRegExp re; PString "a/b"]).
  apply perm_swap.
Defined.

Lemma createMatcher_lastIndex_witness :
  let re := mkRegExp 0 "spec" true false in
  lastIndex (snd (createMatcher literal_match String.eqb (Many [PRegExp re]) "a.test.ts"
                    {[ 0%nat := 5%nat ]})) re = 0%nat.
Proof.
  intros re.
  apply (proj2 (createMatcher_lastIndex literal_match String.eqb (Many [PRegExp re])
                  "a.test.ts" {[ 0%nat := 5%nat ]})).
  - vm_compute. reflexivity.
  - apply list_elem_of_singleton. reflexivity.
Defined.

End MatcherMore.

Module ObjectsFacts.
Import Serialize Objects.

Local Open Scope string_scope.

Lemma is_undefined_true v : is_undefined v = true <-> v = JsUndefined.
Proof. destruct v; cbn; split; congruence. Qed.

Lemma JsObj_eq (x y : JsObj) : own x = own y -> prototype x = prototype y -> x = y.
Proof. destruct x, y. cbn. intros -> ->. reflexivity. Qed.

Lemma own_spread a k : own (spread a) !! k = own_of a k.
Proof. destruct a; cbn; [reflexivity|apply lookup_empty]. Qed.

(** What the loop of [mergeObjects] leaves, started on an object with
    the own properties [a0] and the prototype [Object.prototype]. *)
Lemma fold_assign_spec (a0 b0 : gmap string JsValue) :
  (forall k,
      own (map_fold assign_entry (mkJsObj a0 None) b0) !! k =
      match b0 !! k with
      | Some v =>
          if is_undefined v then a0 !! k
          else if String.eqb k "__proto__"
          then match a0 !! k with Some _ => Some v | None => None end
          else Some v
      | None => a0 !! k
      end) /\
  prototype (map_fold assign_entry (mkJsObj a0 None) b0) =
  match a0 !! "__proto__", b0 !! "__proto__" with
  | None, Some v => if is_object_or_null v then Some v else None
  | _, _ => None
  end.
Proof.
  apply (map_fold_weak_ind
           (fun (r : JsObj) (m : gmap string JsValue) =>
              (forall k,
                  own r !! k =
                  match m !! k with
                  | Some v =>
                      if is_undefined v then a0 !! k
                      else if String.eqb k "__proto__"
                      then match a0 !! k with Some _ => Some v | None => None end
                      else Some v
                  | None => a0 !! k
                  end) /\
              prototype r =
              match a0 !! "__proto__", m !! "__proto__" with
              | None, Some v => if is_object_or_null v then Some v else None
              | _, _ => None
              end)).
  - split.
    + intros k. rewrite lookup_empty. reflexivity.
    + rewrite lookup_empty. destruct (a0 !! "__proto__"); reflexivity.
  - intros i x m r Hi [IHown IHproto]. unfold assign_entry.
    destruct (is_undefined x) eqn:Hx.
    + split.
      * intros k. destruct (decide (i = k)) as [->|Hne].
        -- rewrite lookup_insert_eq, Hx, IHown, Hi. reflexivity.
        -- rewrite lookup_insert_ne by exact Hne. apply IHown.
      * destruct (decide (i = "__proto__")) as [->|Hne].
        -- rewrite lookup_insert_eq, IHproto, Hi.
           destruct x; try discriminate. destruct (a0 !! "__proto__"); reflexivity.
        -- rewrite lookup_insert_ne by exact Hne. exact IHproto.
    + unfold set_property. destruct (String.eqb_spec i "__proto__") as [->|Hne].
      * assert (Hreach : reaches_setter r
                         = match a0 !! "__proto__" with Some _ => false | None => true end).
        { unfold reaches_setter. rewrite IHown, Hi, IHproto, Hi.
          destruct (a0 !! "__proto__"); reflexivity. }
        rewrite Hreach. cbn [andb].
        destruct (a0 !! "__proto__") as [va|] eqn:Ha.
        -- cbn. split.
           ++ intros k. destruct (decide ("__proto__" = k)) as [<-|Hne].
              ** rewrite !lookup_insert_eq, Hx. cbn. rewrite Ha. reflexivity.
              ** rewrite !lookup_insert_ne by exact Hne. apply IHown.
           ++ rewrite IHproto. reflexivity.
        -- assert (Hown : forall k,
                      own r !! k =
                      match <[ "__proto__" := x ]> m !! k with
                      | Some v =>
                          if is_undefined v then a0 !! k
                          else if String.eqb k "__proto__"
                          then match a0 !! k with Some _ => Some v | None => None end
                          else Some v
                      | None => a0 !! k
                      end).
           { intros k. destruct (decide ("__proto__" = k)) as [<-|Hne].
             - rewrite lookup_insert_eq, Hx. cbn. rewrite Ha, IHown, Hi. exact Ha.
             - rewrite lookup_insert_ne by exact Hne. apply IHown. }
           rewrite lookup_insert_eq.
           destruct (is_object_or_null x); cbn; (split; [exact Hown|]).
           ++ reflexivity.
           ++ rewrite IHproto, Hi. reflexivity.
      * cbn. split.
        -- intros k. destruct (decide (i = k)) as [->|Hnk].
           ++ rewrite !lookup_insert_eq, Hx.
              destruct (String.eqb_spec k "__proto__"); [contradiction|reflexivity].
           ++ rewrite !lookup_insert_ne by exact Hnk. apply IHown.
        -- rewrite lookup_insert_ne by exact Hne. exact IHproto.
Qed.

Lemma mergeObjects_own (a b : option JsObj) (k : string) :
  own (mergeObjects a b) !! k =
  match own_of b k with
  | Some v =>
      if is_undefined v then own_of a k
      else if String.eqb k "__proto__"
      then match own_of a k with Some _ => Some v | None => None end
      else Some v
  | None => own_of a k
  end.
Proof.
  unfold mergeObjects. destruct b as [b|]; cbn; [|apply own_spread].
  unfold spread. rewrite (proj1 (fold_assign_spec _ (own b)) k).
  change (default ∅ (own <$> a) !! k) with (own (spread a) !! k).
  rewrite own_spread. reflexivity.
Qed.

Lemma mergeObjects_prototype (a b : option JsObj) :
  prototype (mergeObjects a b) =
  match own_of a "__proto__", own_of b "__proto__" with
  | None, Some v => if is_object_or_null v then Some v else None
  | _, _ => None
  end.
Proof.
  unfold mergeObjects. destruct b as [b|]; cbn.
  - unfold spread. rewrite (proj2 (fold_assign_spec _ (own b))).
    change (default ∅ (own <$> a) !! "__proto__") with (own (spread a) !! "__proto__").
    rewrite own_spread. reflexivity.
  - destruct (own_of a "__proto__"); reflexivity.
Qed.

(** X10. An own property of the result of [mergeObjects(a, b)] is the
    property of [b] unless [b] lacks it or has it [undefined], in which
    case it is the property of [a]: an [undefined] in [b] never
    overrides, while an [undefined] (or any other value) of [a] that [b]
    does not override is kept. The key [__proto__] is the exception when
    [a] does not have it as an own property: the result has no such own
    property either, and a value of [b] for it that is an object or
    [null] becomes the prototype of the result; in every other case the
    prototype is [Object.prototype]. *)
Theorem mergeObjects_property (a b : option JsObj) (k : string) :
  (forall v, own_of b k = Some v -> v <> JsUndefined ->
             k <> "__proto__" \/ is_Some (own_of a k) ->
             own (mergeObjects a b) !! k = Some v) /\
  (own_of b k = Some JsUndefined -> own (mergeObjects a b) !! k = own_of a k) /\
  (own_of b k = None -> own (mergeObjects a b) !! k = own_of a k) /\
  (own (mergeObjects a b) !! k = Some JsUndefined -> own_of a k = Some JsUndefined) /\
  (own_of a "__proto__" = None ->
     own (mergeObjects a b) !! "__proto__" = None /\
     (forall v, own_of b "__proto__" = Some v -> is_object_or_null v = true ->
                prototype (mergeObjects a b) = Some v) /\
     (forall v, own_of b "__proto__" = Some v -> is_object_or_null v = false ->
                prototype (mergeObjects a b) = None)) /\
  (is_Some (own_of a "__proto__") \/ own_of b "__proto__" = None ->
     prototype (mergeObjects a b) = None).
Proof.
  rewrite mergeObjects_prototype, !mergeObjects_own.
  split; [|split; [|split; [|split; [|split]]]].
  - intros v -> Hv Hk. destruct (is_undefined v) eqn:Hu.
    { apply is_undefined_true in Hu. contradiction. }
    destruct (String.eqb_spec k "__proto__") as [->|_]; [|reflexivity].
    destruct Hk as [Hk|[va Hva]]; [contradiction|]. rewrite Hva. reflexivity.
  - intros ->. reflexivity.
  - intros ->. reflexivity.
  - destruct (own_of b k) as [v|]; [|auto].
    destruct (is_undefined v) eqn:Hu; [auto|].
    destruct (String.eqb k "__proto__").
    + destruct (own_of a k); [|discriminate]. intros [= ->]. discriminate.
    + intros [= ->]. discriminate.
  - intros Ha. rewrite Ha. split; [|split].
    + destruct (own_of b "__proto__") as [v|]; [|reflexivity].
      destruct (is_undefined v); reflexivity.
    + intros v -> Hv. rewrite Hv. reflexivity.
    + intros v -> Hv. rewrite Hv. reflexivity.
  - intros [[va Hva]|Hb].
    + rewrite Hva. reflexivity.
    + rewrite Hb. destruct (own_of a "__proto__"); reflexivity.
Qed.

(** X11. Merging is associative as long as [__proto__] is not an own
    property of the second and the third object: merging [c] into the
    merge of [a] and [b] gives the same object as merging into [a] the
    merge of [b] and [c]. It is not when [b] has the own property
    [__proto__]: merged into [{}], its value becomes the prototype, which
    the spread of the next merge does not copy, while the merge of [b]
    and [{}] keeps it as an own property, which sets the prototype when
    it is merged into [{}] last. *)
Theorem mergeObjects_assoc (a b c : option JsObj) :
  (own_of b "__proto__" = None -> own_of c "__proto__" = None ->
   mergeObjects (Some (mergeObjects a b)) c = mergeObjects a (Some (mergeObjects b c))) /\
  (let e := Some (mkJsObj ∅ None) in
   let p := Some (mkJsObj {[ "__proto__" := JsObject false [] ]} None) in
   prototype (mergeObjects (Some (mergeObjects e p)) e) = None /\
   prototype (mergeObjects e (Some (mergeObjects p e))) = Some (JsObject false [])).
Proof.
  split; [|split; vm_compute; reflexivity].
  intros Hb Hc. apply JsObj_eq.
  - apply map_eq. intros k. rewrite !mergeObjects_own.
    change (own_of (Some (mergeObjects a b)) k) with (own (mergeObjects a b) !! k).
    change (own_of (Some (mergeObjects b c)) k) with (own (mergeObjects b c) !! k).
    rewrite !mergeObjects_own.
    destruct (String.eqb_spec k "__proto__") as [->|Hk].
    + rewrite Hb, Hc. reflexivity.
    + destruct (own_of c k) as [vc|]; [|reflexivity].
      destruct (is_undefined vc) eqn:Huc; [|rewrite Huc; reflexivity].
      destruct (own_of b k) as [vb|]; [|reflexivity].
      destruct (is_undefined vb) eqn:Hub; rewrite ?Hub; reflexivity.
  - rewrite !mergeObjects_prototype.
    change (own_of (Some (mergeObjects a b)) "__proto__")
      with (own (mergeObjects a b) !! "__proto__").
    change (own_of (Some (mergeObjects b c)) "__proto__")
      with (own (mergeObjects b c) !! "__proto__").
    rewrite !mergeObjects_own, Hb, Hc.
    destruct (own_of a "__proto__"); reflexivity.
Qed.

(** X12. Merging nothing in, or an object into itself, changes no
    property: [mergeObjects(a, undefined)] and [mergeObjects(a, a)] are
    new objects with the own properties of [a] and the prototype
    [Object.prototype], and so is [mergeObjects(a, b)] when every
    property of [b] is [undefined]; [mergeObjects(undefined, b)] has the
    own properties of [b] that are not [undefined], except [__proto__]. *)
Theorem mergeObjects_neutral (a b : JsObj) :
  mergeObjects (Some a) None = mkJsObj (own a) None /\
  mergeObjects (Some a) (Some a) = mkJsObj (own a) None /\
  ((forall k v, own b !! k = Some v -> v = JsUndefined) ->
     mergeObjects (Some a) (Some b) = mkJsObj (own a) None) /\
  (forall k v, own (mergeObjects None (Some b)) !! k = Some v <->
               own b !! k = Some v /\ v <> JsUndefined /\ k <> "__proto__").
Proof.
  split; [reflexivity|]. split; [|split].
  - apply JsObj_eq.
    + apply map_eq. intros k. rewrite mergeObjects_own. cbn.
      destruct (own a !! k) as [v|]; [|reflexivity].
      destruct (is_undefined v); [reflexivity|].
      destruct (String.eqb k "__proto__"); reflexivity.
    + rewrite mergeObjects_prototype. cbn.
      destruct (own a !! "__proto__"); reflexivity.
  - intros Hall. apply JsObj_eq.
    + apply map_eq. intros k. rewrite mergeObjects_own. cbn.
      destruct (own b !! k) as [v|] eqn:Hk; [|reflexivity].
      rewrite (Hall k v Hk). reflexivity.
    + rewrite mergeObjects_prototype. cbn.
      destruct (own a !! "__proto__"); [reflexivity|].
      destruct (own b !! "__proto__") as [v|] eqn:Hk; [|reflexivity].
      rewrite (Hall _ v Hk). reflexivity.
  - intros k v. rewrite mergeObjects_own. cbn.
    destruct (own b !! k) as [vb|];
      [|split; [discriminate|intros [? _]; discriminate]].
    destruct (is_undefined vb) eqn:Hu.
    + apply is_undefined_true in Hu. subst vb.
      split; [discriminate|]. intros ([= <-] & Hv & _). contradiction.
    + destruct (String.eqb_spec k "__proto__") as [->|Hk].
      * split; [discriminate|]. intros (_ & _ & Hk). contradiction.
      * split.
        -- intros [= ->]. split; [reflexivity|]. split; [|exact Hk].
           intros ->. discriminate.
        -- intros ([= ->] & _). reflexivity.
Qed.

(** Options merged: the [timeout] of the second object is [undefined]
    and does not override. *)
Lemma mergeObjects_property_witness :
  own (mergeObjects
         (Some (mkJsObj {[ "timeout" := JsNumber 10; "retries" := JsNumber 1 ]} None))
         (Some (mkJsObj {[ "timeout" := JsUndefined; "retries" := JsNumber 3 ]} None)))
    !! "retries" = Some (JsNumber 3).
Proof.
  apply (proj1 (mergeObjects_property
                  (Some (mkJsObj {[ "timeout" := JsNumber 10; "retries" := JsNumber 1 ]} None))
                  (Some (mkJsObj {[ "timeout" := JsUndefined; "retries" := JsNumber 3 ]} None))
                  "retries")).
  - vm_compute. reflexivity.
  - discriminate.
  - left. discriminate.
Defined.

Lemma mergeObjects_assoc_witness :
  let a := Some (mkJsObj {[ "timeout" := JsNumber 10 ]} None) in
  let b := Some (mkJsObj {[ "timeout" := JsUndefined; "retries" := JsNumber 3 ]} None) in
  let c := Some (mkJsObj {[ "retries" := JsNumber 5 ]} None) in
  mergeObjects (Some (mergeObjects a b)) c = mergeObjects a (Some (mergeObjects b c)).
Proof.
  intros a b c. apply (proj1 (mergeObjects_assoc a b c)); vm_compute; reflexivity.
Defined.

Lemma mergeObjects_neutral_witness :
  mergeObjects (Some (mkJsObj {[ "timeout" := JsNumber 10 ]} None))
               (Some (mkJsObj {[ "timeout" := JsUndefined ]} None))
  = mkJsObj {[ "timeout" := JsNumber 10 ]} None.
Proof.
  refine (proj1 (proj2 (proj2 (mergeObjects_neutral
                                 (mkJsObj {[ "timeout" := JsNumber 10 ]} None)
                                 (mkJsObj {[ "timeout" := JsUndefined ]} None)))) _).
  cbn [own]. intros k v Hk. apply lookup_singleton_Some in Hk as [_ <-]. reflexivity.
Defined.

(** An [undefined] of [b] does not override. *)
Example mergeObjects_undefined_kept :
  own (mergeObjects
         (Some (mkJsObj {[ "timeout" := JsNumber 10; "retries" := JsNumber 1 ]} None))
         (Some (mkJsObj {[ "timeout" := JsUndefined; "retries" := JsNumber 3 ]} None)))
    !! "timeout" = Some (JsNumber 10).
Proof. vm_compute. reflexivity. Qed.

(** An own property [__proto__] of [b], as [JSON.parse] makes it, sets
    the prototype of the result and is not among its own properties; when
    [a] has the property too, it is overwritten like any other. *)
Example mergeObjects_proto :
  let b := Some (mkJsObj {[ "__proto__" := JsObject false [("x", JsNumber 1)] ]} None) in
  let a := Some (mkJsObj {[ "__proto__" := JsNumber 0 ]} None) in
  mergeObjects None b = mkJsObj ∅ (Some (JsObject false [("x", JsNumber 1)])) /\
  mergeObjects a b = mkJsObj {[ "__proto__" := JsObject false [("x", JsNumber 1)] ]} None.
Proof. split; vm_compute; reflexivity. Qed.

End ObjectsFacts.

Module ErrorsFacts.
Import Matcher Errors.

Local Open Scope string_scope.

(** *** Strings *)

Ltac append_step :=
  repeat match goal with
  | |- context [String.append (String ?c ?s) ?t] =>
      change (String.append (String c s) t) with (String c (String.append s t))
  | |- context [String.append EmptyString ?t] =>
      change (String.append EmptyString t) with t
  | H : context [String.append (String ?c ?s) ?t] |- _ =>
      change (String.append (String c s) t) with (String c (String.append s t)) in H
  | H : context [String.append EmptyString ?t] |- _ =>
      change (String.append EmptyString t) with t in H
  end.

Lemma prefix_append (s t : string) : String.prefix s (String.append s t) = true.
Proof.
  induction s as [|c s IH]; append_step.
  - destruct t; reflexivity.
  - cbn [String.prefix]. destruct (ascii_dec c c); [exact IH|congruence].
Qed.

Lemma substring_from_append (s t : string) :
  substring_from (String.length s) (String.append s t) = t.
Proof.
  induction s as [|c s IH]; append_step; cbn [String.length substring_from].
  - destruct t; reflexivity.
  - exact IH.
Qed.

Lemma substring_split_0 (t : string) : forall s : string,
  String.substring 0 (String.length t) s = t ->
  s = String.append t (substring_from (String.length t) s).
Proof.
  induction t as [|c t IHt]; intros s; append_step; cbn [String.length].
  - intros _. destruct s; reflexivity.
  - destruct s as [|c' s]; cbn [String.substring substring_from]; [discriminate|].
    intros [= <- H]. rewrite <- (IHt s H). reflexivity.
Qed.

Lemma substring_split (i : nat) : forall s t : string,
  String.substring i (String.length t) s = t ->
  s = String.append (substring_to i s)
        (String.append t (substring_from (i + String.length t) s)).
Proof.
  induction i as [|i IH]; intros s t.
  - intros H. cbn [substring_to Nat.add]. append_step. apply substring_split_0, H.
  - destruct s as [|c s]; cbn [String.substring substring_to substring_from Nat.add].
    + intros H. append_step. destruct t; [reflexivity|].
      cbn in H. destruct i; discriminate.
    + intros H. append_step. rewrite <- (IH s t H). reflexivity.
Qed.

Lemma append_nil_r (s : string) : String.append s EmptyString = s.
Proof.
  induction s as [|c s IH]; append_step; [reflexivity|rewrite IH; reflexivity].
Qed.

(** *** [prependErrorMessage] *)

(** X13. After [prependErrorMessage(e, message)] the message of [e] is
    [message] followed by the old message without a leading [Error:],
    and the stack of [e] starts with the new message. *)
Theorem prependErrorMessage_message (e : JsError) (msg : string) :
  message (prependErrorMessage e msg) = String.append msg (kept_message (message e)) /\
  (forall m0, message e = String.append "Error:" m0 ->
              message (prependErrorMessage e msg) = String.append msg m0) /\
  (startsWith (message e) "Error:" = false ->
     message (prependErrorMessage e msg) = String.append msg (message e)) /\
  exists st, stack (prependErrorMessage e msg) = Some st /\
             startsWith st (message (prependErrorMessage e msg)) = true.
Proof.
  split; [reflexivity|]. split; [|split].
  - intros m0 Hm. unfold prependErrorMessage. cbn [message].
    rewrite Hm. unfold startsWith. rewrite prefix_append.
    rewrite (substring_from_append "Error:" m0). reflexivity.
  - intros Hs. unfold prependErrorMessage. cbn [message]. rewrite Hs. reflexivity.
  - eexists. split; [reflexivity|]. cbn [message prependErrorMessage].
    unfold startsWith. apply prefix_append.
Qed.

(** X14. What [prependErrorMessage] keeps of the stack: when the old
    message occurs in the old stack, everything up to the end of its
    first occurrence is dropped and the new message is put in front of
    the rest; when it does not occur (or there is no stack), the new
    message is put in front of the whole stack (of nothing). *)
Theorem prependErrorMessage_stack (e : JsError) (msg : string) :
  (forall st i,
      stack e = Some st -> indexOf st (message e) = Some i ->
      st = String.append (substring_to i st)
             (String.append (message e)
                (substring_from (i + String.length (message e)) st)) /\
      (forall j, j < i -> String.substring j (String.length (message e)) st <> message e)%nat /\
      stack (prependErrorMessage e msg)
        = Some (String.append (message (prependErrorMessage e msg))
                  (substring_from (i + String.length (message e)) st))) /\
  (forall st,
      stack e = Some st -> indexOf st (message e) = None ->
      stack (prependErrorMessage e msg)
        = Some (String.append (message (prependErrorMessage e msg)) st)) /\
  (stack e = None ->
     stack (prependErrorMessage e msg) = Some (message (prependErrorMessage e msg))).
Proof.
  split; [|split].
  - intros st i Hst Hi. unfold indexOf in Hi. split; [|split].
    + apply substring_split. eapply index_correct1, Hi.
    + intros j Hj. eapply index_correct2; [exact Hi|lia|exact Hj].
    + unfold prependErrorMessage. rewrite Hst. unfold includes, indexOf.
      rewrite Hi. reflexivity.
  - intros st Hst Hi. unfold indexOf in Hi.
    unfold prependErrorMessage. rewrite Hst. unfold includes, indexOf.
    rewrite Hi. reflexivity.
  - intros Hst. unfold prependErrorMessage. rewrite Hst.
    unfold includes, indexOf. cbn [stack message].
    destruct (String.index 0 (message e) EmptyString) as [i|] eqn:Hi.
    + destruct (message e); cbn in Hi; [|discriminate].
      injection Hi as <-. cbn. rewrite append_nil_r. reflexivity.
    + rewrite append_nil_r. reflexivity.
Qed.

Lemma prependErrorMessage_message_witness :
  message (prependErrorMessage (mkJsError "Error: boom" (Some "Error: boom at f")) "fixture: ")
  = "fixture:  boom".
Proof.
  exact (proj1 (proj2 (prependErrorMessage_message
                         (mkJsError "Error: boom" (Some "Error: boom at f")) "fixture: "))
               " boom" eq_refl).
Defined.

Lemma prependErrorMessage_stack_witness :
  stack (prependErrorMessage (mkJsError "boom" (Some "Error: boom at f")) "fixture: ")
  = Some "fixture: boom at f".
Proof.
  exact (proj2 (proj2 (proj1 (prependErrorMessage_stack
                                (mkJsError "boom" (Some "Error: boom at f")) "fixture: ")
                             "Error: boom at f" 7%nat eq_refl eq_refl))).
Defined.

(** *** [callFrames] and [errorWithCallLocation] *)

Lemma shift_folio_spec dirs frames :
  exists dropped,
    frames = (dropped ++ shift_folio dirs frames)%list /\
    Forall (fun f => in_folio dirs f = true) dropped /\
    (forall f rest, shift_folio dirs frames = f :: rest -> in_folio dirs f = false).
Proof.
  induction frames as [|f frames (dropped & Heq & Hall & Hhead)]; cbn.
  - exists []. split; [reflexivity|]. split; [constructor|discriminate].
  - destruct (in_folio dirs f) eqn:Hf.
    + exists (f :: dropped). split; [cbn; congruence|].
      split; [constructor; assumption|exact Hhead].
    + exists []. split; [reflexivity|]. split; [constructor|].
      intros f' rest [= <- _]. exact Hf.
Qed.

(** X15. [callFrames] drops the first line of the captured stack and
    then the frames that mention a folio directory, up to the first frame
    that mentions none: what it returns is the rest of the lines, in
    order, and its first frame, if any, is not in a folio directory. With
    no folio directory nothing but the first line is dropped. *)
Theorem callFrames_spec (dirs : list string) (captured : string) :
  (exists dropped,
      tail (split newline captured) = (dropped ++ callFrames dirs captured)%list /\
      Forall (fun f => in_folio dirs f = true) dropped /\
      (forall f rest, callFrames dirs captured = f :: rest -> in_folio dirs f = false)) /\
  callFrames [] captured = tail (split newline captured).
Proof.
  split; [apply shift_folio_spec|].
  unfold callFrames. destruct (tail (split newline captured)); reflexivity.
Qed.

Lemma split_append_sep sep (a b : string) :
  split sep (String.append a (String sep b)) = (split sep a ++ split sep b)%list.
Proof.
  unfold split. induction a as [|c a IH]; append_step; cbn [split_on].
  - destruct (split_on sep b) as [p ps]. rewrite Ascii.eqb_refl. reflexivity.
  - destruct (split_on sep (String.append a (String sep b))) as [p ps].
    destruct (split_on sep a) as [p' ps'].
    destruct (split_on sep b) as [q qs].
    injection IH as -> ->.
    destruct (Ascii.eqb c sep); reflexivity.
Qed.

Lemma split_lines sep (s : string) : Forall (fun f => split sep f = [f]) (split sep s).
Proof.
  unfold split. induction s as [|c s IH]; cbn [split_on].
  - repeat constructor.
  - destruct (split_on sep s) as [p ps].
    destruct (Ascii.eqb c sep) eqn:Hc.
    + constructor; [reflexivity|exact IH].
    + apply Forall_cons in IH as [Hp Hps]. constructor; [|exact Hps].
      cbn [split_on]. destruct (split_on sep p) as [q qs].
      injection Hp as -> ->. rewrite Hc. reflexivity.
Qed.

Lemma split_concat sep (f : string) (fs : list string) :
  Forall (fun f => split sep f = [f]) (f :: fs) ->
  split sep (String.concat (String sep EmptyString) (f :: fs)) = f :: fs.
Proof.
  revert f. induction fs as [|g fs IH]; intros f Hall.
  - apply Forall_cons in Hall as [Hf _]. exact Hf.
  - apply Forall_cons in Hall as [Hf Hall].
    change (String.concat (String sep EmptyString) (f :: g :: fs))
      with (String.append f (String.append (String sep EmptyString)
                               (String.concat (String sep EmptyString) (g :: fs)))).
    append_step. rewrite split_append_sep, Hf, (IH g Hall). reflexivity.
Qed.

Lemma append_assoc (a b c : string) :
  String.append (String.append a b) c = String.append a (String.append b c).
Proof.
  induction a as [|x a IH]; append_step; [reflexivity|rewrite IH; reflexivity].
Qed.

Lemma callFrames_lines dirs captured :
  Forall is_line (callFrames dirs captured).
Proof.
  destruct (shift_folio_spec dirs (tail (split newline captured)))
    as (dropped & Heq & _ & _).
  assert (Hall : Forall is_line (tail (split newline captured))).
  { pose proof (split_lines newline captured) as H.
    destruct (split newline captured) as [|p ps]; [constructor|].
    apply Forall_cons in H as [_ H]. exact H. }
  rewrite Heq in Hall. apply Forall_app in Hall as [_ Hall]. exact Hall.
Qed.

(** X16. The stack [errorWithCallLocation] builds, split into lines
    again, is the lines of ['Error: ' + message] followed by the frames
    [callFrames] kept, or by one empty line when it kept none. *)
Theorem errorWithCallLocation_lines (dirs : list string) (captured msg : string) :
  message (errorWithCallLocation dirs captured msg) = msg /\
  exists st,
    stack (errorWithCallLocation dirs captured msg) = Some st /\
    split newline st
    = (split newline (String.append "Error: " msg)
       ++ match callFrames dirs captured with
          | [] => [EmptyString]
          | frames => frames
          end)%list.
Proof.
  split; [reflexivity|]. eexists. split; [reflexivity|].
  rewrite <- append_assoc.
  change (String.append (String newline EmptyString)
            (String.concat (String newline EmptyString) (callFrames dirs captured)))
    with (String newline
            (String.concat (String newline EmptyString) (callFrames dirs captured))).
  rewrite split_append_sep. f_equal.
  pose proof (callFrames_lines dirs captured) as Hall.
  destruct (callFrames dirs captured) as [|f fs]; [reflexivity|].
  apply split_concat, Hall.
Qed.

End ErrorsFacts.

Module LocationsFacts.
Import Matcher Errors ErrorsFacts Locations.

Lemma shift_folio_app dirs dropped frames :
  Forall (fun f => in_folio dirs f = true) dropped ->
  shift_folio dirs (dropped ++ frames) = shift_folio dirs frames.
Proof.
  induction 1 as [|f dropped Hf _ IH]; cbn; [reflexivity|].
  rewrite Hf. exact IH.
Qed.

(** X17. [callLocation] reads the location off the first line of the
    captured stack, after the first, that mentions no folio directory,
    and resolves its file; when every such line mentions one (or there is
    none), it answers the fallback file at line 1, column 1. It throws
    exactly when there is such a line and [parseLine] cannot read it or
    finds no file in it; a line or column [parseLine] does not find is
    [undefined] in the answer. *)
Theorem callLocation_first_user_frame
    (parseLine : string -> option ParsedLine) (resolve : string -> string)
    (dirs : list string) (captured fallbackFile : string) :
  (Forall (fun f => in_folio dirs f = true) (tail (split newline captured)) ->
   callLocation parseLine resolve dirs captured fallbackFile
   = Some (mkLocation fallbackFile (Some 1%nat) (Some 1%nat))) /\
  (forall dropped frame rest,
      tail (split newline captured) = dropped ++ frame :: rest ->
      Forall (fun f => in_folio dirs f = true) dropped ->
      in_folio dirs frame = false ->
      callLocation parseLine resolve dirs captured fallbackFile
      = located parseLine resolve frame /\
      (forall file line column,
          parseLine frame = Some (mkParsedLine (Some file) line column) ->
          callLocation parseLine resolve dirs captured fallbackFile
          = Some (mkLocation (resolve file) line column)) /\
      (parseLine frame = None ->
       callLocation parseLine resolve dirs captured fallbackFile = None) /\
      (forall line column,
          parseLine frame = Some (mkParsedLine None line column) ->
          callLocation parseLine resolve dirs captured fallbackFile = None)) /\
  (callLocation parseLine resolve dirs captured fallbackFile = None <->
   exists dropped frame rest,
     tail (split newline captured) = dropped ++ frame :: rest /\
     Forall (fun f => in_folio dirs f = true) dropped /\
     in_folio dirs frame = false /\
     (parseLine frame = None \/ exists l, parseLine frame = Some l /\ p_file l = None)).
Proof.
  assert (Hframe : forall dropped frame rest,
             tail (split newline captured) = dropped ++ frame :: rest ->
             Forall (fun f => in_folio dirs f = true) dropped ->
             in_folio dirs frame = false ->
             callLocation parseLine resolve dirs captured fallbackFile
             = located parseLine resolve frame).
  { intros dropped frame rest Heq Hall Hf. unfold callLocation, callFrames.
    rewrite Heq, (shift_folio_app dirs dropped _ Hall). cbn. rewrite Hf.
    reflexivity. }
  split; [|split].
  - intros Hall. unfold callLocation, callFrames.
    rewrite <- (app_nil_r (tail (split newline captured))).
    rewrite (shift_folio_app dirs _ [] Hall). reflexivity.
  - intros dropped frame rest Heq Hall Hf.
    rewrite (Hframe dropped frame rest Heq Hall Hf). unfold located.
    split; [reflexivity|]. split; [|split].
    + intros file line column ->. reflexivity.
    + intros ->. reflexivity.
    + intros line column ->. reflexivity.
  - split.
    + intros Hnone.
      destruct (shift_folio_spec dirs (tail (split newline captured)))
        as (dropped & Heq & Hall & Hhead).
      unfold callLocation, callFrames in Hnone.
      destruct (shift_folio dirs (tail (split newline captured)))
        as [|frame rest] eqn:Hs; [discriminate|].
      exists dropped, frame, rest. split; [exact Heq|]. split; [exact Hall|].
      split; [apply (Hhead frame rest eq_refl)|].
      destruct (parseLine frame) as [l|]; [|left; reflexivity].
      right. exists l. split; [reflexivity|].
      destruct (p_file l); [discriminate|reflexivity].
    + intros (dropped & frame & rest & Heq & Hall & Hf & Hbad).
      rewrite (Hframe dropped frame rest Heq Hall Hf). unfold located.
      destruct Hbad as [->|(l & -> & ->)]; reflexivity.
Qed.

(** A call from [/home/u/a.spec.ts] through a frame of folio. *)
Lemma callLocation_first_user_frame_witness :
  callLocation (fun _ => Some (mkParsedLine (Some "a.spec.ts") (Some 7%nat) (Some 3%nat)))
               (fun f => String.append "/home/u/" f)
               ["/folio/out"]
               (String.concat (String newline EmptyString)
                  ["Error"; "    at it (/folio/out/spec.js:10:5)";
                   "    at /home/u/a.spec.ts:7:3"])
               "fallback.ts"
  = Some (mkLocation "/home/u/a.spec.ts" (Some 7%nat) (Some 3%nat)).
Proof.
  refine (proj1 (proj2 (proj1 (proj2 (callLocation_first_user_frame
            (fun _ => Some (mkParsedLine (Some "a.spec.ts") (Some 7%nat) (Some 3%nat)))
            (fun f => String.append "/home/u/" f)
            ["/folio/out"]
            (String.concat (String newline EmptyString)
                  ["Error"; "    at it (/folio/out/spec.js:10:5)";
                   "    at /home/u/a.spec.ts:7:3"])
            "fallback.ts"))
          ["    at it (/folio/out/spec.js:10:5)"] "    at /home/u/a.spec.ts:7:3" []
          _ _ _)) "a.spec.ts" (Some 7%nat) (Some 3%nat) eq_refl).
  - vm_compute. reflexivity.
  - repeat constructor.
  - vm_compute. reflexivity.
Defined.

(** The frame of a native function has no file: [path.resolve] throws. *)
Example callLocation_native_frame :
  callLocation (fun _ => Some (mkParsedLine None None None)) (fun f => f)
               [] (String.concat (String newline EmptyString)
                                  ["Error"; "    at Array.map (native)"]) "fallback.ts"
  = None.
Proof. vm_compute. reflexivity. Qed.

End LocationsFacts.

Module HarnessFacts.
Import Matcher Errors ErrorsFacts Harness.

Local Open Scope string_scope.

Lemma prefix_cons_inv c p s :
  String.prefix (String c p) s = true ->
  exists s', s = String c s' /\ String.prefix p s' = true.
Proof.
  destruct s as [|c' s']; cbn; [discriminate|].
  destruct (ascii_dec c c') as [->|]; [|discriminate].
  intros H. exists s'. split; [reflexivity|exact H].
Qed.

(** A name that ends in [d.ts] ends in none of [spec.js], [spec.ts],
    [test.js], [test.ts]. *)
Lemma declaration_not_test name :
  endsWith name "d.ts" = true -> is_test_file name = false.
Proof.
  unfold is_test_file, endsWith. cbn [rev_onto].
  generalize (rev_onto name EmptyString) as r. intros r H.
  apply prefix_cons_inv in H as (r1 & -> & H).
  apply prefix_cons_inv in H as (r2 & -> & H).
  apply prefix_cons_inv in H as (r3 & -> & H).
  apply prefix_cons_inv in H as (r4 & -> & _).
  reflexivity.
Qed.

Lemma test_file_is_script name : is_test_file name = true -> is_script name = true.
Proof.
  unfold is_test_file, is_script, endsWith. cbn [rev_onto].
  generalize (rev_onto name EmptyString) as r. intros r H.
  repeat (apply orb_true_iff in H as [H|H]);
    apply prefix_cons_inv in H as (r1 & -> & H);
    apply prefix_cons_inv in H as (r2 & -> & H);
    apply prefix_cons_inv in H as (r3 & -> & _);
    destruct r3; reflexivity.
Qed.

(** X18. What [writeFiles] does to a file: a file whose name ends in
    [d.ts] is written as it is (a declaration file, but also any module
    whose name happens to end so); a spec or test file gets the header
    (the TypeScript one exactly when its name ends in [ts]) and the line
    that defines [expect]; and in every case what is written ends with
    the content given. *)
Theorem written_content (headerJS headerTS name content : string) :
  (endsWith name "d.ts" = true -> written headerJS headerTS name content = content) /\
  (is_test_file name = true ->
     written headerJS headerTS name content
     = String.append
         (String.append (if endsWith name "ts" then headerTS else headerJS) expect_line)
         content) /\
  (exists before,
      written headerJS headerTS name content = String.append before content).
Proof.
  unfold written. split; [|split].
  - intros Hd. rewrite (declaration_not_test name Hd), Hd.
    rewrite andb_false_r. reflexivity.
  - intros Ht. rewrite Ht.
    destruct (endsWith name "d.ts") eqn:Hd.
    + rewrite (declaration_not_test name Hd) in Ht. discriminate.
    + rewrite andb_true_r. reflexivity.
  - destruct (is_test_file name); [eexists; reflexivity|].
    destruct (is_script name && negb (endsWith name "d.ts")); [eexists; reflexivity|].
    exists EmptyString. reflexivity.
Qed.

Lemma existsb_over_map {A B : Type} (f : B -> bool) (g : A -> B) (l : list A) :
  existsb f (map g l) = existsb (fun x => f (g x)) l.
Proof. induction l as [|x l IH]; cbn; [reflexivity|rewrite IH; reflexivity]. Qed.

Lemma includes_config : includes (fst default_config) ".config." = true.
Proof. vm_compute. reflexivity. Qed.

(** X19. [writeFiles] writes every file it is given, under its name and
    in order, and adds [folio.config.ts] exactly when no name contains
    [.config.]: what is written always has a configuration file. *)
Theorem writeFiles_config (headerJS headerTS : string) (files : list (string * string)) :
  map fst (writeFiles headerJS headerTS files)
  = (map fst files ++ if hasConfig files then [] else ["folio.config.ts"])%list /\
  hasConfig (writeFiles headerJS headerTS files) = true /\
  (hasConfig files = true -> length (writeFiles headerJS headerTS files) = length files).
Proof.
  unfold writeFiles. split; [|split].
  - rewrite map_map. cbn [fst]. destruct (hasConfig files).
    + rewrite app_nil_r. reflexivity.
    + rewrite map_app. reflexivity.
  - destruct (hasConfig files) eqn:Hc.
    + unfold hasConfig. rewrite existsb_over_map. exact Hc.
    + unfold hasConfig. rewrite existsb_over_map, existsb_app. cbn [existsb fst].
      rewrite includes_config, orb_true_r. reflexivity.
  - intros ->. apply length_map.
Qed.

Lemma written_content_witness :
  written "JS;" "TS;" "gold.ts" "export const x = 1;" = "export const x = 1;".
Proof.
  apply (proj1 (written_content "JS;" "TS;" "gold.ts" "export const x = 1;")).
  vm_compute. reflexivity.
Defined.

Lemma writeFiles_config_witness :
  length (writeFiles "JS;" "TS;" [("folio.config.ts", "module.exports = {};")]) = 1%nat.
Proof.
  apply (proj2 (proj2 (writeFiles_config "JS;" "TS;"
                         [("folio.config.ts", "module.exports = {};")]))).
  vm_compute. reflexivity.
Defined.

(** A test file in TypeScript and a helper in JavaScript. *)
Example writeFiles_example :
  writeFiles "JS;" "TS;" [("a.spec.ts", "test();"); ("helper.js", "h();");
                          ("my.config.ts", "c")]
  = [("a.spec.ts", String.append "TS;" (String.append expect_line "test();"));
     ("helper.js", "JS;h();");
     ("my.config.ts", "TS;c")].
Proof. vm_compute. reflexivity. Qed.

End HarnessFacts.
